(** * TanGOAT: the Tango solver of the DIY guide, embedded and verified

    The solver described in [DIY.md] is a JavaScript class working on a
    mutable game state: a square matrix of cells, two matrices of edge
    constraints and the globals [BOARD_SIZE] and [EDGE_SIZE].  This file
    embeds the validator ([isValidPlacement] and the checks it calls) and
    the search ([solvePuzzle] with its inner [dfs]) as functions over an
    explicit game state, with a small result monad for the one exception
    the code can raise (a [TypeError] on reading a property of
    [undefined]) and for fuel exhaustion of the recursive search. *)

From Stdlib Require Import Lia Bool Arith PeanoNat ZArith.
From stdpp Require Import base list sorting strings.

Set Default Proof Using "Type".

(** ** Data model *)

(** [CellState] of the source: what a cell [contains]. *)
Module CellState.
Inductive t : Set := EMPTY | SUN | MOON.

Definition eqb (a b : t) : bool :=
  match a, b with
  | EMPTY, EMPTY | SUN, SUN | MOON, MOON => true
  | _, _ => false
  end.
End CellState.

(** [EdgeState] of the source: the [state] of an edge.  The source calls
    the absence of a constraint [EdgeState.EMPTY]. *)
Module EdgeState.
Inductive t : Set := EMPTY | EQUAL | OPPOSITE.

Definition eqb (a b : t) : bool :=
  match a, b with
  | EMPTY, EMPTY | EQUAL, EQUAL | OPPOSITE, OPPOSITE => true
  | _, _ => false
  end.
End EdgeState.

#[global] Instance CellState_eq_dec : EqDecision CellState.t.
Proof. solve_decision. Defined.

#[global] Instance EdgeState_eq_dec : EqDecision EdgeState.t.
Proof. solve_decision. Defined.

(** [gameState.edges]: [horizontal[row][col]] links [(row,col)] with
    [(row,col+1)], [vertical[row][col]] links [(row,col)] with
    [(row+1,col)]. *)
Record Edges : Set := mkEdges {
  horizontal : list (list EdgeState.t);
  vertical : list (list EdgeState.t)
}.

(** The solver object: the global [BOARD_SIZE], the matrix [this.board]
    and [this.edges].  [EDGE_SIZE] is derived, as in [initialize]. *)
Record Solver : Set := mkSolver {
  BOARD_SIZE : nat;
  board : list (list CellState.t);
  edges : Edges
}.

(** [EDGE_SIZE = BOARD_SIZE - 1].  For [BOARD_SIZE = 0] JavaScript has
    [-1] where the truncated subtraction has [0]; the code only ever tests
    [x < EDGE_SIZE] with [x >= 0], which is false for both. *)
Definition EDGE_SIZE (g : Solver) : nat := BOARD_SIZE g - 1.

(** A cell coordinate [[row, col]] and a placement [[row, col, symbol]]. *)
Abbreviation Coord := (nat * nat)%type (only parsing).
Abbreviation Placement := (nat * nat * CellState.t)%type (only parsing).

(** ** Results of running the code *)

(** The code raises nothing by itself; the only exception that can occur
    is the [TypeError] of reading [.contains] or [.state] of [undefined],
    or of destructuring [undefined]. *)
Inductive Exception : Set := TypeError.

Inductive result (A : Type) : Type :=
| Ok (a : A)
| Throw (e : Exception)
| OutOfFuel.
Arguments Ok {A} a.
Arguments Throw {A} e.
Arguments OutOfFuel {A}.

Definition bind {A B : Type} (m : result A) (k : A -> result B) : result B :=
  match m with
  | Ok a => k a
  | Throw e => Throw e
  | OutOfFuel => OutOfFuel
  end.

Notation "'let*' x := m 'in' k" := (bind m (fun x => k))
  (at level 10, x pattern, m at level 100, k at level 200).

(** [a && b] of JavaScript: [b] is evaluated only when [a] is true. *)
Definition andM (a b : result bool) : result bool :=
  let* x := a in if x then b else Ok false.

(** ** Reading and writing the matrices *)

(** [this.board[row][col].contains] *)
Definition contains (g : Solver) (row col : nat) : result CellState.t :=
  match board g !! row with
  | Some r => match r !! col with
              | Some c => Ok c
              | None => Throw TypeError
              end
  | None => Throw TypeError
  end.

(** [m[row][col].state] for an edge matrix [m] *)
Definition state (m : list (list EdgeState.t)) (row col : nat) : result EdgeState.t :=
  match m !! row with
  | Some r => match r !! col with
              | Some e => Ok e
              | None => Throw TypeError
              end
  | None => Throw TypeError
  end.

(** [this.board[row][col].contains = v]: an in-place update of an existing
    cell object; the read of [this.board[row][col]] throws when there is
    none. *)
Definition setContains (g : Solver) (row col : nat) (v : CellState.t) : result Solver :=
  match board g !! row with
  | Some r => match r !! col with
              | Some _ => Ok (mkSolver (BOARD_SIZE g) (<[row := <[col := v]> r]> (board g)) (edges g))
              | None => Throw TypeError
              end
  | None => Throw TypeError
  end.

(** [this.board[row][col].contains === symbol] *)
Definition containsIs (g : Solver) (row col : nat) (symbol : CellState.t) : result bool :=
  let* c := contains g row col in Ok (CellState.eqb c symbol).

(** ** The validator *)

(** [checkThreeInRowHorizontal]: true when placing [symbol] at
    [(row,col)] would complete three in a row.  The guard
    [col <= BOARD_SIZE - 3] is written [col + 3 <= BOARD_SIZE], which also
    covers [BOARD_SIZE < 3], where the JavaScript difference is negative. *)
Definition checkThreeInRowHorizontal (g : Solver) (row col : nat) (symbol : CellState.t)
  : result bool :=
  (* Pattern: XX_ *)
  let* p1 := (if 2 <=? col
              then andM (containsIs g row (col - 1) symbol)
                        (containsIs g row (col - 2) symbol)
              else Ok false) in
  if p1 then Ok true else
  (* Pattern: _XX *)
  let* p2 := (if col + 3 <=? BOARD_SIZE g
              then andM (containsIs g row (col + 1) symbol)
                        (containsIs g row (col + 2) symbol)
              else Ok false) in
  if p2 then Ok true else
  (* Pattern: X_X *)
  let* p3 := (if (0 <? col) && (col <? BOARD_SIZE g - 1)
              then andM (containsIs g row (col - 1) symbol)
                        (containsIs g row (col + 1) symbol)
              else Ok false) in
  if p3 then Ok true else
  Ok false.

(** Modelled from the spec: [checkThreeInRowVertical] is called by
    [isValidPlacement] but its body is not in the guide.  The spec asks for
    the same three windows column-wise, so it is the horizontal check with
    the roles of [row] and [col] exchanged. *)
Definition checkThreeInRowVertical (g : Solver) (row col : nat) (symbol : CellState.t)
  : result bool :=
  let* p1 := (if 2 <=? row
              then andM (containsIs g (row - 1) col symbol)
                        (containsIs g (row - 2) col symbol)
              else Ok false) in
  if p1 then Ok true else
  let* p2 := (if row + 3 <=? BOARD_SIZE g
              then andM (containsIs g (row + 1) col symbol)
                        (containsIs g (row + 2) col symbol)
              else Ok false) in
  if p2 then Ok true else
  let* p3 := (if (0 <? row) && (row <? BOARD_SIZE g - 1)
              then andM (containsIs g (row - 1) col symbol)
                        (containsIs g (row + 1) col symbol)
              else Ok false) in
  if p3 then Ok true else
  Ok false.

(** The three patterns of the two checks above over an arbitrary line of
    [n] cells, [hit k] telling whether cell [k] of the line holds the
    symbol. *)
Definition threeWindows (hit : nat -> result bool) (n pos : nat) : result bool :=
  let* p1 := (if 2 <=? pos then andM (hit (pos - 1)) (hit (pos - 2)) else Ok false) in
  if p1 then Ok true else
  let* p2 := (if pos + 3 <=? n then andM (hit (pos + 1)) (hit (pos + 2)) else Ok false) in
  if p2 then Ok true else
  let* p3 := (if (0 <? pos) && (pos <? n - 1)
              then andM (hit (pos - 1)) (hit (pos + 1)) else Ok false) in
  if p3 then Ok true else
  Ok false.

(** A window of three consecutive cells of a line of [n] cells, starting
    at [start] and containing [pos], whose two other cells satisfy [P]. *)
Definition windowAround (P : nat -> Prop) (n pos : nat) : Prop :=
  exists start, start <= pos <= start + 2 /\ start + 2 < n /\
    forall k, start <= k <= start + 2 -> k <> pos -> P k.

(** Placing [symbol] at [(row,col)] completes three in a row, row-wise and
    column-wise. *)
Definition rowWindow (g : Solver) (row col : nat) (symbol : CellState.t) : Prop :=
  windowAround (fun k => contains g row k = Ok symbol) (BOARD_SIZE g) col.

Definition columnWindow (g : Solver) (row col : nat) (symbol : CellState.t) : Prop :=
  windowAround (fun k => contains g k col = Ok symbol) (BOARD_SIZE g) row.

(** Number of [k < n] with [p k]. *)
Fixpoint countBelow (p : nat -> bool) (n : nat) : nat :=
  match n with
  | 0 => 0
  | S k => countBelow p k + (if p k then 1 else 0)
  end.

(** Whether the cell at [(row,col)] exists and holds [symbol]. *)
Definition holds (g : Solver) (row col : nat) (symbol : CellState.t) : bool :=
  match board g !! row with
  | Some r => match r !! col with
              | Some c => CellState.eqb c symbol
              | None => false
              end
  | None => false
  end.

(** Occurrences of [symbol] in a row and in a column, over the
    [BOARD_SIZE] positions of the board. *)
Definition countInRow (g : Solver) (row : nat) (symbol : CellState.t) : nat :=
  countBelow (fun c => holds g row c symbol) (BOARD_SIZE g).

Definition countInColumn (g : Solver) (col : nat) (symbol : CellState.t) : nat :=
  countBelow (fun r => holds g r col symbol) (BOARD_SIZE g).

(** Modelled from the spec: [checkRowColumnBalance] is called by
    [isValidPlacement] but its body is not in the guide.  The spec: reject
    if the row or column would exceed [N/2] occurrences of [symbol] once
    placed, counted over the currently filled cells.  [count + 1 > N / 2]
    is written [N < 2 * (count + 1)], which is the same for the real
    division of JavaScript and for any parity of [N]. *)
Definition checkRowColumnBalance (g : Solver) (row col : nat) (symbol : CellState.t)
  : result bool :=
  Ok ((BOARD_SIZE g <? 2 * (countInRow g row symbol + 1))
      || (BOARD_SIZE g <? 2 * (countInColumn g col symbol + 1))).

(** [checkEdgeConstraints]: true when an edge constraint is violated.  The
    horizontal half reads [edges.horizontal[row][col]], the edge between
    [(row,col)] and the cell to its right, and that cell; the edge to the
    left of [(row,col)] is not read.  The guide gives the vertical half as
    two comment lines and no statement: as written, the function returns
    [false] once the horizontal half has found no violation, and
    [edges.vertical] is not read. *)
Definition checkEdgeConstraints (g : Solver) (row col : nat) (symbol : CellState.t)
  : result bool :=
  (* Check horizontal edge constraints *)
  let* h := (if col <? EDGE_SIZE g then
               let* edge := state (horizontal (edges g)) row col in
               let* rightCell := contains g row (col + 1) in
               if EdgeState.eqb edge EdgeState.EQUAL
                  && negb (CellState.eqb rightCell CellState.EMPTY)
                  && negb (CellState.eqb rightCell symbol)
               then Ok true (* Violation: equal constraint but different symbols *)
               else if EdgeState.eqb edge EdgeState.OPPOSITE
                       && negb (CellState.eqb rightCell CellState.EMPTY)
                       && CellState.eqb rightCell symbol
               then Ok true (* Violation: opposite constraint but same symbols *)
               else Ok false
             else Ok false) in
  if h then Ok true else
  (* Check vertical edge constraints (similar logic) *)
  (* ... vertical edge checking code *)
  Ok false.

(** [isValidPlacement]: the four rules in the order of the source, each
    one returning [false] as soon as it is violated. *)
Definition isValidPlacement (g : Solver) (row col : nat) (symbol : CellState.t)
  : result bool :=
  let* r1 := checkThreeInRowHorizontal g row col symbol in
  if r1 then Ok false else
  let* r2 := checkThreeInRowVertical g row col symbol in
  if r2 then Ok false else
  let* r3 := checkRowColumnBalance g row col symbol in
  if r3 then Ok false else
  let* r4 := checkEdgeConstraints g row col symbol in
  if r4 then Ok false else
  Ok true.

(** ** The search *)

(** A [for] loop over [l] threading an accumulator, stopping at the first
    exception. *)
Fixpoint forEach {A S : Type} (l : list A) (body : A -> S -> result S) (s : S)
  : result S :=
  match l with
  | [] => Ok s
  | x :: l' => let* s' := body x s in forEach l' body s'
  end.

(** The two nested loops at the start of [solvePuzzle]: the coordinates of
    the EMPTY cells, pushed in row-major order. *)
Definition findEmptyCells (g : Solver) : result (list Coord) :=
  forEach (seq 0 (BOARD_SIZE g))
    (fun row acc =>
       forEach (seq 0 (BOARD_SIZE g))
         (fun col acc =>
            let* c := contains g row col in
            if CellState.eqb c CellState.EMPTY
            then Ok (acc ++ [(row, col)])
            else Ok acc)
         acc)
    [].

(** Modelled from the spec: [getAdjacentEmptyCells] is called by the sort
    of [solvePuzzle] but its body is not in the guide.  The spec: the EMPTY
    4-neighbours of the cell (those that lie on the board). *)
Definition getAdjacentEmptyCells (g : Solver) (row col : nat) : list Coord :=
  List.filter (fun rc : Coord => holds g rc.1 rc.2 CellState.EMPTY)
    ((if 0 <? row then [(row - 1, col)] else [])
     ++ (if row + 1 <? BOARD_SIZE g then [(row + 1, col)] else [])
     ++ (if 0 <? col then [(row, col - 1)] else [])
     ++ (if col + 1 <? BOARD_SIZE g then [(row, col + 1)] else [])).

(** The sort key of a cell: [getAdjacentEmptyCells(a[0], a[1]).length]. *)
Definition adjacentCount (g : Solver) (a : Coord) : nat :=
  length (getAdjacentEmptyCells g a.1 a.2).

(** [Array.prototype.sort] with the comparator [key a - key b].  The sort
    of the language is stable, and a stable sort by a key has one possible
    result; it is computed here by insertion, each element going before
    the first element of the sorted rest whose key is not smaller. *)
Fixpoint insertByKey {A : Type} (key : A -> nat) (x : A) (l : list A) : list A :=
  match l with
  | [] => [x]
  | y :: l' => if key x <=? key y then x :: y :: l' else y :: insertByKey key x l'
  end.

Fixpoint sortByKey {A : Type} (key : A -> nat) (l : list A) : list A :=
  match l with
  | [] => []
  | x :: l' => insertByKey key x (sortByKey key l')
  end.

(** What [dfs] reads and writes: the solver object (its [board] is mutated
    in place) and the [solution] array. *)
Abbreviation SearchState := (Solver * list Placement)%type (only parsing).

(** One candidate of [dfs]: if the placement is valid, write it, push it,
    recurse with [next], and on failure pop it and write EMPTY back. *)
Definition tryCandidate (next : SearchState -> result (bool * SearchState))
    (row col : nat) (symbol : CellState.t) (st : SearchState)
  : result (bool * SearchState) :=
  let* ok := isValidPlacement st.1 row col symbol in
  if ok then
    let* g1 := setContains st.1 row col symbol in
    let* r := next (g1, st.2 ++ [(row, col, symbol)]) in
    if r.1 then Ok (true, r.2)
    else
      (* Backtrack *)
      let* g2 := setContains r.2.1 row col CellState.EMPTY in
      Ok (false, (g2, removelast r.2.2))
  else Ok (false, st).

(** The closure [dfs] of [solvePuzzle].  The recursion is on [index]
    growing towards [emptyCells.length]; [fuel] bounds its depth. *)
Fixpoint dfs (fuel : nat) (emptyCells : list Coord) (index : nat) (st : SearchState)
  : result (bool * SearchState) :=
  match fuel with
  | 0 => OutOfFuel
  | S fuel' =>
    if index =? length emptyCells then Ok (true, st) (* All cells filled *)
    else
      match emptyCells !! index with
      | None => Throw TypeError
      | Some (row, col) =>
        (* Try Moon first *)
        let* m := tryCandidate (dfs fuel' emptyCells (index + 1)) row col CellState.MOON st in
        if m.1 then Ok (true, m.2) else
        (* Try Sun *)
        let* s := tryCandidate (dfs fuel' emptyCells (index + 1)) row col CellState.SUN m.2 in
        if s.1 then Ok (true, s.2) else
        Ok (false, s.2) (* No valid placement found *)
      end
  end.

(** The empty cells in the order in which [dfs] visits them. *)
Definition sortedEmptyCells (g : Solver) : result (list Coord) :=
  let* emptyCells := findEmptyCells g in
  Ok (sortByKey (adjacentCount g) emptyCells).

(** [solvePuzzle]: [Some solution] or [None] for [null], together with
    the solver object as the call leaves it.  [dfs(0)] is given the fuel
    [emptyCells.length + 1]. *)
Definition solvePuzzle (g : Solver) : result (option (list Placement) * Solver) :=
  let* emptyCells := sortedEmptyCells g in
  let* r := dfs (S (length emptyCells)) emptyCells 0 (g, []) in
  if r.1 then Ok (Some r.2.2, r.2.1) else Ok (None, r.2.1).

(** ** Building game states *)

(** The [gameState] literal of the guide: every cell EMPTY and every edge
    without constraint, the three matrices dimensioned by [BOARD_SIZE] and
    [EDGE_SIZE].  The literal builds its rows and cells with [map], so each
    cell is an object of its own and writing one cell changes no other. *)
Definition gameState (n : nat) : Solver :=
  mkSolver n
    (replicate n (replicate n CellState.EMPTY))
    (mkEdges (replicate n (replicate (n - 1) EdgeState.EMPTY))
             (replicate (n - 1) (replicate n EdgeState.EMPTY))).

(** What [parseBoardState] does to one cell and to one edge: an assignment
    into the matrices built above. *)
Definition withCell (row col : nat) (v : CellState.t) (g : Solver) : Solver :=
  mkSolver (BOARD_SIZE g)
    (alter (fun r => <[col := v]> r) row (board g))
    (edges g).

Definition withHorizontal (row col : nat) (e : EdgeState.t) (g : Solver) : Solver :=
  mkSolver (BOARD_SIZE g) (board g)
    (mkEdges (alter (fun r => <[col := e]> r) row (horizontal (edges g)))
             (vertical (edges g))).

Definition withVertical (row col : nat) (e : EdgeState.t) (g : Solver) : Solver :=
  mkSolver (BOARD_SIZE g) (board g)
    (mkEdges (horizontal (edges g))
             (alter (fun r => <[col := e]> r) row (vertical (edges g)))).


(** ** Well-formed game states *)

(** The three matrices have the dimensions that [BOARD_SIZE] and
    [EDGE_SIZE] dictate, as [gameState] builds them. *)
Definition hasShape {A : Type} (rows cols : nat) (m : list (list A)) : bool :=
  (length m =? rows) && forallb (fun r => length r =? cols) m.

Definition wellFormed (g : Solver) : bool :=
  hasShape (BOARD_SIZE g) (BOARD_SIZE g) (board g)
  && hasShape (BOARD_SIZE g) (EDGE_SIZE g) (horizontal (edges g))
  && hasShape (EDGE_SIZE g) (BOARD_SIZE g) (vertical (edges g)).

(** Every cell of the [BOARD_SIZE] by [BOARD_SIZE] square can be read. *)
Definition readable (g : Solver) : Prop :=
  forall row col, row < BOARD_SIZE g -> col < BOARD_SIZE g ->
    exists c, contains g row col = Ok c.

(** ** Vocabulary of the properties of the search *)

(** The coordinates of an [n] by [n] board in the order of the two nested
    loops, row by row. *)
Definition allCoords (n : nat) : list Coord :=
  flat_map (fun row => map (pair row) (seq 0 n)) (seq 0 n).

Definition isEmptyAt (g : Solver) (rc : Coord) : bool :=
  holds g rc.1 rc.2 CellState.EMPTY.

(** Row-major order of coordinates. *)
Definition rowMajorLt (a b : Coord) : Prop :=
  a.1 < b.1 \/ (a.1 = b.1 /\ a.2 < b.2).

(** Ascending [key], and the order [R] among elements with the same
    key. *)
Definition keyThen {A : Type} (key : A -> nat) (R : relation A) (a b : A) : Prop :=
  key a < key b \/ (key a = key b /\ R a b).

(** The heuristic order on the cells of [g]: fewer EMPTY neighbours first,
    row-major order among cells with the same number of them. *)
Definition heuristicLt (g : Solver) : relation Coord :=
  keyThen (adjacentCount g) rowMajorLt.

(** The cell of a placement. *)
Definition cellOf (p : Placement) : Coord := p.1.

(** [Placements g cells pl g']: [pl] assigns MOON or SUN to the cells of
    [cells], one after the other in this order; each placement is accepted
    by [isValidPlacement] on the board as the earlier ones left it, and
    writing them all leads from [g] to [g']. *)
Inductive Placements : Solver -> list Coord -> list Placement -> Solver -> Prop :=
| Placements_nil (g : Solver) : Placements g [] [] g
| Placements_cons (g g1 g' : Solver) (row col : nat) (symbol : CellState.t)
    (cells : list Coord) (pl : list Placement) :
    symbol = CellState.MOON \/ symbol = CellState.SUN ->
    isValidPlacement g row col symbol = Ok true ->
    setContains g row col symbol = Ok g1 ->
    Placements g1 cells pl g' ->
    Placements g ((row, col) :: cells) ((row, col, symbol) :: pl) g'.

(** The order in which [dfs] tries the candidates of a cell. *)
Definition triedBefore (a b : CellState.t) : Prop :=
  a = CellState.MOON /\ b = CellState.SUN.

(** [SearchedFirst pl pl']: the search reaches the assignment [pl] no later
    than [pl']: they are equal, or at the first cell where they differ
    [pl] has the candidate that is tried first. *)
Inductive SearchedFirst : list Placement -> list Placement -> Prop :=
| SearchedFirst_nil : SearchedFirst [] []
| SearchedFirst_earlier (row col : nat) (s s' : CellState.t) (pl pl' : list Placement) :
    triedBefore s s' ->
    SearchedFirst ((row, col, s) :: pl) ((row, col, s') :: pl')
| SearchedFirst_same (p : Placement) (pl pl' : list Placement) :
    SearchedFirst pl pl' ->
    SearchedFirst (p :: pl) (p :: pl').

(** What a run of [dfs] from the state [st] over the cells [rest] that are
    still to be filled has done when it returns [r]: on success it has
    written and pushed placements for [rest], the first ones in search
    order; on failure there are none and the state is as before. *)
Definition dfsPost (rest : list Coord) (st : SearchState) (r : bool * SearchState) : Prop :=
  if r.1
  then exists pl, Placements st.1 rest pl r.2.1
                  /\ r.2.2 = st.2 ++ pl
                  /\ (forall pl' g', Placements st.1 rest pl' g' -> SearchedFirst pl pl')
  else r.2 = st /\ (forall pl' g', ~ Placements st.1 rest pl' g').

(** A run that did not stop for lack of fuel: it returned or it threw. *)
Definition finishes {A : Type} (m : result A) : Prop := m <> OutOfFuel.

(** How many placements of a solution are for the cell [rc]. *)
Definition timesPlaced (sol : list Placement) (rc : Coord) : nat :=
  length (List.filter (fun p : Placement => (p.1.1 =? rc.1) && (p.1.2 =? rc.2)) sol).

(** ** The rules of the puzzle, as properties of a board *)

(** No row and no column holds more than [N/2] SUN or more than [N/2]
    MOON. *)
Definition withinCaps (g : Solver) : Prop :=
  forall k s, k < BOARD_SIZE g -> s <> CellState.EMPTY ->
    2 * countInRow g k s <= BOARD_SIZE g
    /\ 2 * countInColumn g k s <= BOARD_SIZE g.

(** No three consecutive cells of a row or of a column hold [s]. *)
Definition noRunOf (g : Solver) (s : CellState.t) : Prop :=
  forall row col,
    ~ (row < BOARD_SIZE g /\ col + 2 < BOARD_SIZE g
       /\ contains g row col = Ok s
       /\ contains g row (col + 1) = Ok s
       /\ contains g row (col + 2) = Ok s)
    /\ ~ (row + 2 < BOARD_SIZE g /\ col < BOARD_SIZE g
          /\ contains g row col = Ok s
          /\ contains g (row + 1) col = Ok s
          /\ contains g (row + 2) col = Ok s).

(** The three-in-a-row rule on the cells that are filled. *)
Definition noThreeInARow (g : Solver) : Prop :=
  forall s, s <> CellState.EMPTY -> noRunOf g s.

(** The balance rule on a complete board: every row and every column has
    [N/2] SUN, [N/2] MOON and no EMPTY cell. *)
Definition balanced (g : Solver) : Prop :=
  forall k, k < BOARD_SIZE g ->
    (countInRow g k CellState.SUN = BOARD_SIZE g / 2
     /\ countInRow g k CellState.MOON = BOARD_SIZE g / 2
     /\ countInRow g k CellState.EMPTY = 0)
    /\ (countInColumn g k CellState.SUN = BOARD_SIZE g / 2
        /\ countInColumn g k CellState.MOON = BOARD_SIZE g / 2
        /\ countInColumn g k CellState.EMPTY = 0).

(** The edge rule between two linked cells holding [a] and [b]. *)
Definition edgeSatisfied (e : EdgeState.t) (a b : CellState.t) : Prop :=
  match e with
  | EdgeState.EMPTY => True
  | EdgeState.EQUAL => a <> CellState.EMPTY /\ a = b
  | EdgeState.OPPOSITE => a <> CellState.EMPTY /\ b <> CellState.EMPTY /\ a <> b
  end.

(** Every edge of the board is satisfied by the two cells it links. *)
Definition edgesSatisfied (g : Solver) : Prop :=
  (forall row col e a b,
     state (horizontal (edges g)) row col = Ok e ->
     contains g row col = Ok a -> contains g row (col + 1) = Ok b ->
     edgeSatisfied e a b)
  /\ (forall row col e a b,
        state (vertical (edges g)) row col = Ok e ->
        contains g row col = Ok a -> contains g (row + 1) col = Ok b ->
        edgeSatisfied e a b).

(** The three rule families together. *)
Definition satisfiesRules (g : Solver) : Prop :=
  balanced g /\ (forall s, noRunOf g s) /\ edgesSatisfied g.

(** ** Concrete boards *)

(** A 4 by 4 board whose only constraint is [horizontal[0][0] = EQUAL] and
    whose only filled cell is [(0,0)], holding SUN. *)
Definition equalEdgeBoard : Solver :=
  withHorizontal 0 0 EdgeState.EQUAL (withCell 0 0 CellState.SUN (gameState 4)).

(** A 4 by 4 board with SUN in every cell and no constraint. *)
Definition fullSunBoard : Solver :=
  mkSolver 4 (replicate 4 (replicate 4 CellState.SUN)) (edges (gameState 4)).

(** A 4 by 4 board whose row 0 starts with three SUN. *)
Definition lockedRunBoard4 : Solver :=
  withCell 0 2 CellState.SUN
    (withCell 0 1 CellState.SUN (withCell 0 0 CellState.SUN (gameState 4))).

(** A 6 by 6 board whose row 0 starts with MOON, SUN, SUN, SUN. *)
Definition lockedRunBoard6 : Solver :=
  withCell 0 3 CellState.SUN
    (withCell 0 2 CellState.SUN
       (withCell 0 1 CellState.SUN (withCell 0 0 CellState.MOON (gameState 6)))).


(** ** Vocabulary of further properties of the search *)

(** Replaying a placement list: the writes
    [this.board[row][col].contains = symbol], one after the other. *)
Definition writePlacements (sol : list Placement) (g : Solver) : result Solver :=
  forEach sol (fun p g => setContains g p.1.1 p.1.2 p.2) g.

(** The cell [a] is placed before the cell [b] in the list [sol]. *)
Definition placedBefore (sol : list Placement) (a b : Coord) : Prop :=
  exists l1 l2 l3 sa sb, sol = l1 ++ (a, sa) :: l2 ++ (b, sb) :: l3.

(** ** The page: what the code reads from and sends to the DOM *)

(** What [cell.querySelector('.lotka-cell-edge...')] and the calls that
    follow it find: no edge element, an edge element without [svg], or an
    [svg] with its [aria-label] attribute ([null] when it has none). *)
Inductive EdgeElement : Set :=
| NoEdge
| EdgeWithoutSvg
| EdgeSvg (label : option string).

(** A [.lotka-cell] element, as far as the code looks at it: the results
    of the queries of [parseBoardState] on its content, its two edge
    elements, and whether its class list has [lotka-cell--locked]. *)
Record LotkaCell : Set := mkLotkaCell {
  emptyMarker : bool;  (* .lotka-cell-content .lotka-cell-empty *)
  moonById : bool;     (* #Moon *)
  moonByLabel : bool;  (* svg[aria-label="Moon"] *)
  sunById : bool;      (* #Sun *)
  sunByLabel : bool;   (* svg[aria-label="Sun"] *)
  rightEdge : EdgeElement;
  downEdge : EdgeElement;
  locked : bool
}.

(** The position of the [index]-th cell of the page, as [parseBoardState]
    computes it: [Math.floor(index / BOARD_SIZE)] and
    [index % BOARD_SIZE]. *)
Definition cellPosition (n index : nat) : nat * nat := (index / n, index mod n).

(** The index of the cell at [(row,col)], as [inputSolution] computes it:
    [row * BOARD_SIZE + col]. *)
Definition cellIndex (n row col : nat) : nat := row * n + col.

(** [m[row][col] = v] on a matrix whose rows have all their columns: a
    [TypeError] when [m[row]] is [undefined]. *)
Definition assign2D {A : Type} (m : list (list A)) (row col : nat) (v : A)
  : result (list (list A)) :=
  match m !! row with
  | Some r => Ok (<[row := <[col := v]> r]> m)
  | None => Throw TypeError
  end.

(** [m[row][col].state = e] for an edge matrix [m]: an update of an
    existing edge object. *)
Definition setState (m : list (list EdgeState.t)) (row col : nat) (e : EdgeState.t)
  : result (list (list EdgeState.t)) :=
  match m !! row with
  | Some r => match r !! col with
              | Some _ => Ok (<[row := <[col := e]> r]> m)
              | None => Throw TypeError
              end
  | None => Throw TypeError
  end.

(** [label === 'Cross' ? EdgeState.OPPOSITE : EdgeState.EQUAL] *)
Definition edgeOfLabel (label : option string) : EdgeState.t :=
  match label with
  | Some l => if String.eqb l "Cross" then EdgeState.OPPOSITE else EdgeState.EQUAL
  | None => EdgeState.EQUAL
  end.

(** [parseConstraintEdges]: the right edge of a cell goes to
    [edges.horizontal[row][col]] when [col < EDGE_SIZE], its bottom edge to
    [edges.vertical[row][col]] when [row < EDGE_SIZE]; an edge element
    without [svg] changes nothing. *)
Definition parseConstraintEdges (cell : LotkaCell) (row col : nat) (st : Solver)
  : result Solver :=
  (* Parse right edge (horizontal constraint) *)
  let* st1 :=
    (match rightEdge cell with
     | EdgeSvg label =>
         if col <? EDGE_SIZE st then
           let* h := setState (horizontal (edges st)) row col (edgeOfLabel label) in
           Ok (mkSolver (BOARD_SIZE st) (board st) (mkEdges h (vertical (edges st))))
         else Ok st
     | _ => Ok st
     end) in
  (* Parse bottom edge (vertical constraint) *)
  match downEdge cell with
  | EdgeSvg label =>
      if row <? EDGE_SIZE st1 then
        let* v := setState (vertical (edges st1)) row col (edgeOfLabel label) in
        Ok (mkSolver (BOARD_SIZE st1) (board st1) (mkEdges (horizontal (edges st1)) v))
      else Ok st1
  | _ => Ok st1
  end.

(** The body of the two loops of [parseBoardState] for one position: the
    content of the cell, then its edges.  [cells2D[row][col]] is [null]
    where no cell of the page was put, and reading a [null] cell is a
    [TypeError]. *)
Definition parseCell (cells2D : list (list (option LotkaCell))) (row col : nat)
    (st : Solver) : result Solver :=
  match cells2D !! row with
  | None => Throw TypeError
  | Some r =>
    match r !! col with
    | None | Some None => Throw TypeError
    | Some (Some cell) =>
      (* Parse cell content *)
      let* st1 :=
        (if emptyMarker cell then setContains st row col CellState.EMPTY
         else if moonById cell || moonByLabel cell then setContains st row col CellState.MOON
         else if sunById cell || sunByLabel cell then setContains st row col CellState.SUN
         else Ok st) in
      (* Parse constraint edges *)
      parseConstraintEdges cell row col st1
    end
  end.

(** The first loop of [parseBoardState]: the linear list of the cells of
    the page is laid out in a [BOARD_SIZE] by [BOARD_SIZE] matrix that
    starts filled with [null]. *)
Definition layoutCells (n : nat) (cells : list LotkaCell)
  : result (list (list (option LotkaCell))) :=
  forEach (zip (seq 0 (length cells)) cells)
    (fun ic cells2D =>
       let pos := cellPosition n ic.1 in
       assign2D cells2D pos.1 pos.2 (Some ic.2))
    (replicate n (replicate n None)).

(** [parseBoardState]: [cells] is what
    [document.querySelectorAll('.lotka-cell')] returns, [st] the object
    [state] that the function fills and returns. *)
Definition parseBoardState (cells : list LotkaCell) (st : Solver) : result Solver :=
  let* cells2D := layoutCells (BOARD_SIZE st) cells in
  (* Parse each cell's state and constraints *)
  forEach (seq 0 (BOARD_SIZE st))
    (fun row s =>
       forEach (seq 0 (BOARD_SIZE st))
         (fun col s => parseCell cells2D row col s)
         s)
    st.

(** What a cell of the page makes of the content [old] of its position
    in [state], and what an edge element makes of an edge [old]. *)
Definition parsedContent (cell : LotkaCell) (old : CellState.t) : CellState.t :=
  if emptyMarker cell then CellState.EMPTY
  else if moonById cell || moonByLabel cell then CellState.MOON
  else if sunById cell || sunByLabel cell then CellState.SUN
  else old.

Definition parsedEdge (edge : EdgeElement) (old : EdgeState.t) : EdgeState.t :=
  match edge with
  | EdgeSvg label => edgeOfLabel label
  | _ => old
  end.

(** [m[row][col]] of a matrix, [None] for [undefined]. *)
Definition entry {A : Type} (m : list (list A)) (row col : nat) : option A :=
  match m !! row with
  | Some r => r !! col
  | None => None
  end.

(** [f] applied to what a read returned, when it returned. *)
Definition mapResult {A B : Type} (f : A -> B) (m : result A) : result B :=
  match m with
  | Ok a => Ok (f a)
  | Throw e => Throw e
  | OutOfFuel => OutOfFuel
  end.

(** ** Sending a solution to the page *)

(** The events that [createMouseEvent] builds and [dispatchEvent] sends. *)
Inductive MouseEventType : Set := mousedown | mouseup | click.

(** What the code does to the page: mouse events dispatched on the
    element [#lotka-cell-<index>], in order. *)
Abbreviation EventLog := (list (nat * MouseEventType)) (only parsing).

(** [singleClick]: mousedown, mouseup, click. *)
Definition singleClick (index : nat) : EventLog :=
  [(index, mousedown); (index, mouseup); (index, click)].

(** [doubleClick]: a first click, then a second click. *)
Definition doubleClick (index : nat) : EventLog :=
  singleClick index ++ singleClick index.

(** [Array.prototype.filter] with a callback that can throw. *)
Fixpoint filterM {A : Type} (p : A -> result bool) (l : list A) : result (list A) :=
  match l with
  | [] => Ok []
  | x :: l' =>
      let* keep := p x in
      let* rest := filterM p l' in
      Ok (if keep then x :: rest else rest)
  end.

(** [Array.prototype.sort] with a comparator: the stable sort, by
    insertion, each element going before the first element of the sorted
    rest that the comparator does not put before it. *)
Fixpoint insertBy {A : Type} (cmp : A -> A -> Z) (x : A) (l : list A) : list A :=
  match l with
  | [] => [x]
  | y :: l' => if (cmp x y <=? 0)%Z then x :: y :: l' else y :: insertBy cmp x l'
  end.

Fixpoint sortBy {A : Type} (cmp : A -> A -> Z) (l : list A) : list A :=
  match l with
  | [] => []
  | x :: l' => insertBy cmp x (sortBy cmp l')
  end.

(** The comparator of [inputSolution]: by row, then by column. *)
Definition comparePlacements (a b : Placement) : Z :=
  if negb (a.1.1 =? b.1.1)
  then (Z.of_nat a.1.1 - Z.of_nat b.1.1)%Z
  else (Z.of_nat a.1.2 - Z.of_nat b.1.2)%Z.

(** The body of the loop of [inputSolution] for one placement: nothing
    when the element is missing or locked, a single click for SUN, a
    double click for MOON. *)
Definition clicksFor (n : nat) (document : nat -> option LotkaCell) (p : Placement)
  : EventLog :=
  let index := cellIndex n p.1.1 p.1.2 in
  match document index with
  | Some cell =>
      if negb (locked cell) then
        match p.2 with
        | CellState.SUN => singleClick index
        | CellState.MOON => doubleClick index
        | CellState.EMPTY => []
        end
      else []
  | None => []
  end.

(** [inputSolution]: the placements on cells that are EMPTY in
    [baseGameState] are sorted by position and clicked one after the
    other; the function returns [true].  [document] gives the element with
    the id [lotka-cell-<index>], if there is one; the waits between the
    events are left out. *)
Definition inputSolution (baseGameState : Solver) (document : nat -> option LotkaCell)
    (solution : list Placement) : result (bool * EventLog) :=
  (* Filter out pre-filled cells *)
  let* newPlacements :=
    filterM (fun p : Placement =>
               let* c := contains baseGameState p.1.1 p.1.2 in
               Ok (CellState.eqb c CellState.EMPTY))
            solution in
  (* Sort placements by position (row, then column) *)
  let sorted := sortBy comparePlacements newPlacements in
  Ok (true, flat_map (clicksFor (BOARD_SIZE baseGameState) document) sorted).

(** How many [click] events the log has on the element of index
    [index]. *)
Definition clickCount (log : EventLog) (index : nat) : nat :=
  length (List.filter
            (fun ev : nat * MouseEventType =>
               (ev.1 =? index) && (match ev.2 with click => true | _ => false end))
            log).

(** The click pattern of the game that the guide describes: a click on an
    empty cell places Sun, a second click Moon, a third click clears the
    cell. *)
Definition nextSymbol (s : CellState.t) : CellState.t :=
  match s with
  | CellState.EMPTY => CellState.SUN
  | CellState.SUN => CellState.MOON
  | CellState.MOON => CellState.EMPTY
  end.

(** The symbols the page shows after the events of a log, when its cells
    follow the click pattern: [shown index] is the symbol of the element
    of index [index] before the events. *)
Fixpoint pageAfter (log : EventLog) (shown : nat -> CellState.t) : nat -> CellState.t :=
  match log with
  | [] => shown
  | (index, click) :: log' =>
      pageAfter log' (fun i => if i =? index then nextSymbol (shown i) else shown i)
  | _ :: log' => pageAfter log' shown
  end.

(** Two cells of a page for the examples: an empty cell, and a locked
    cell showing Sun with a Cross edge to its right and an Equal edge
    below. *)
Definition emptyLotkaCell : LotkaCell :=
  mkLotkaCell true false false false false NoEdge NoEdge false.

Definition sunLotkaCell : LotkaCell :=
  mkLotkaCell false false false false true
    (EdgeSvg (Some "Cross"%string)) (EdgeSvg (Some "Equal"%string)) true.

(** A page of four cells for a 2 by 2 board: Sun, then three empty
    cells. *)
Definition samplePage : list LotkaCell :=
  [sunLotkaCell; emptyLotkaCell; emptyLotkaCell; emptyLotkaCell].

(** The number of clicks that places a symbol on an empty cell. *)
Definition clicksOf (s : CellState.t) : nat :=
  match s with
  | CellState.EMPTY => 0
  | CellState.SUN => 1
  | CellState.MOON => 2
  end.

(** * Properties *)

(** ** The result monad *)

Lemma CellState_eqb_eq (a b : CellState.t) : CellState.eqb a b = true <-> a = b.
Proof. destruct a, b; simpl; split; congruence. Qed.

Lemma CellState_eqb_refl (a : CellState.t) : CellState.eqb a a = true.
Proof. by destruct a. Qed.

Lemma CellState_eqb_neq (a b : CellState.t) : CellState.eqb a b = false <-> a <> b.
Proof. destruct a, b; simpl; split; congruence. Qed.

Lemma EdgeState_eqb_eq (a b : EdgeState.t) : EdgeState.eqb a b = true <-> a = b.
Proof. destruct a, b; simpl; split; congruence. Qed.

Lemma bind_Ok {A B : Type} (m : result A) (k : A -> result B) (b : B) :
  bind m k = Ok b <-> exists a, m = Ok a /\ k a = Ok b.
Proof.
  destruct m as [a| |]; simpl; split.
  - intros H. by exists a.
  - by intros (a' & [= <-] & H).
  - discriminate.
  - by intros (a' & [=] & _).
  - discriminate.
  - by intros (a' & [=] & _).
Qed.

(** Splits a hypothesis [bind m k = Ok b] into its two runs. *)
Ltac inv_bind H :=
  let a := fresh "a" in
  let Ha := fresh "Ha" in
  apply bind_Ok in H; destruct H as (a & Ha & H); cbv beta in H.

Lemma andM_Ok (a b : result bool) (r : bool) :
  andM a b = Ok r <->
  (a = Ok false /\ r = false) \/ (a = Ok true /\ b = Ok r).
Proof.
  unfold andM. rewrite bind_Ok. split.
  - intros ([] & Ha & Hk); [right | left]; split; congruence.
  - intros [[-> ->] | [-> Hb]]; eauto.
Qed.

(** ** Reading and writing cells *)

Lemma holds_contains (g : Solver) (row col : nat) (s : CellState.t) :
  holds g row col s = true <-> contains g row col = Ok s.
Proof.
  unfold holds, contains.
  destruct (board g !! row) as [r|]; [|split; discriminate].
  destruct (r !! col) as [c|]; [|split; discriminate].
  rewrite CellState_eqb_eq. split; congruence.
Qed.

Lemma holds_false (g : Solver) (row col : nat) (s : CellState.t) :
  holds g row col s = false <-> contains g row col <> Ok s.
Proof.
  rewrite <- holds_contains. destruct (holds g row col s); split; congruence.
Qed.

Lemma containsIs_Ok (g : Solver) (row col : nat) (s : CellState.t) (b : bool) :
  containsIs g row col s = Ok b ->
  (b = true <-> contains g row col = Ok s).
Proof.
  unfold containsIs. intros H. inv_bind H. injection H as <-. rewrite Ha.
  rewrite CellState_eqb_eq. split; congruence.
Qed.

Lemma containsIs_true (g : Solver) (row col : nat) (s : CellState.t) :
  containsIs g row col s = Ok true <-> contains g row col = Ok s.
Proof.
  split.
  - intros H. by apply (containsIs_Ok _ _ _ _ _ H).
  - intros H. unfold containsIs. rewrite H. simpl. by rewrite CellState_eqb_refl.
Qed.

Lemma setContains_Ok (g g' : Solver) (row col : nat) (v : CellState.t) :
  setContains g row col v = Ok g' ->
  (exists old, contains g row col = Ok old)
  /\ contains g' row col = Ok v
  /\ (forall r c, (r, c) <> (row, col) -> contains g' r c = contains g r c)
  /\ BOARD_SIZE g' = BOARD_SIZE g
  /\ edges g' = edges g.
Proof.
  unfold setContains, contains.
  destruct (board g !! row) as [r|] eqn:Hr; [|discriminate].
  destruct (r !! col) as [old|] eqn:Hc; [|discriminate].
  intros [= <-]. simpl.
  assert (Hlr : row < length (board g)) by (by eapply lookup_lt_Some).
  assert (Hlc : col < length r) by (by eapply lookup_lt_Some).
  repeat split; eauto.
  - rewrite list_lookup_insert_eq by done.
    by rewrite list_lookup_insert_eq.
  - intros r' c' Hne.
    destruct (decide (r' = row)) as [->|Hrr].
    + rewrite list_lookup_insert_eq by done. rewrite Hr.
      rewrite list_lookup_insert_ne by congruence. done.
    + by rewrite list_lookup_insert_ne.
Qed.

Lemma setContains_total (g : Solver) (row col : nat) (old v : CellState.t) :
  contains g row col = Ok old -> exists g', setContains g row col v = Ok g'.
Proof.
  unfold setContains, contains.
  destruct (board g !! row) as [r|]; [|discriminate].
  destruct (r !! col); [|discriminate]. eauto.
Qed.

(** Writing a symbol and then writing back what the cell held gives the
    very same solver object. *)
Lemma setContains_undo (g g1 : Solver) (row col : nat) (old v : CellState.t) :
  contains g row col = Ok old ->
  setContains g row col v = Ok g1 ->
  setContains g1 row col old = Ok g.
Proof.
  unfold setContains, contains.
  destruct (board g !! row) as [r|] eqn:Hr; [|discriminate].
  destruct (r !! col) as [old'|] eqn:Hc; [|discriminate].
  intros [= ->] [= <-]. simpl.
  assert (Hlr : row < length (board g)) by (by eapply lookup_lt_Some).
  assert (Hlc : col < length r) by (by eapply lookup_lt_Some).
  rewrite list_lookup_insert_eq by done.
  rewrite list_lookup_insert_eq by done.
  rewrite !list_insert_insert_eq.
  rewrite (list_insert_id r col old) by done.
  rewrite (list_insert_id (board g) row r) by done.
  by destruct g.
Qed.

(** ** The three-in-a-row checks *)

Lemma andM_true (a b : result bool) :
  andM a b = Ok true <-> a = Ok true /\ b = Ok true.
Proof.
  rewrite andM_Ok. split.
  - intros [[_ [=]] | H]; done.
  - intros H. by right.
Qed.

Lemma checkThreeInRowHorizontal_windows (g : Solver) (row col : nat) (s : CellState.t) :
  checkThreeInRowHorizontal g row col s
  = threeWindows (fun k => containsIs g row k s) (BOARD_SIZE g) col.
Proof. reflexivity. Qed.

Lemma checkThreeInRowVertical_windows (g : Solver) (row col : nat) (s : CellState.t) :
  checkThreeInRowVertical g row col s
  = threeWindows (fun k => containsIs g k col s) (BOARD_SIZE g) row.
Proof. reflexivity. Qed.

(** When the three patterns return, they return [true] exactly when some
    window around [pos] has its two other cells holding the symbol. *)
Lemma threeWindows_Ok (hit : nat -> result bool) (n pos : nat) (b : bool) :
  pos < n ->
  threeWindows hit n pos = Ok b ->
  (b = true <-> windowAround (fun k => hit k = Ok true) n pos).
Proof.
  unfold threeWindows, windowAround. intros Hpos H.
  inv_bind H. destruct a as [|].
  { assert (b = true) as -> by congruence. split; [intros _ | done].
    destruct (Nat.leb_spec 2 pos) as [Hle|]; [|discriminate].
    apply andM_true in Ha as [H1 H2].
    exists (pos - 2). split; [lia|]. split; [lia|].
    intros k Hk Hne.
    assert (k = pos - 1 \/ k = pos - 2) as [-> | ->] by lia; done. }
  rename Ha into Hp1.
  inv_bind H. destruct a as [|].
  { assert (b = true) as -> by congruence. split; [intros _ | done].
    destruct (Nat.leb_spec (pos + 3) n) as [Hle|]; [|discriminate].
    apply andM_true in Ha as [H1 H2].
    exists pos. split; [lia|]. split; [lia|].
    intros k Hk Hne.
    assert (k = pos + 1 \/ k = pos + 2) as [-> | ->] by lia; done. }
  rename Ha into Hp2.
  inv_bind H. destruct a as [|].
  { assert (b = true) as -> by congruence. split; [intros _ | done].
    destruct (0 <? pos) eqn:E1; [|discriminate].
    destruct (pos <? n - 1) eqn:E2; [|discriminate]. simpl in Ha.
    apply Nat.ltb_lt in E1, E2.
    apply andM_true in Ha as [H1 H2].
    exists (pos - 1). split; [lia|]. split; [lia|].
    intros k Hk Hne.
    assert (k = pos - 1 \/ k = pos + 1) as [-> | ->] by lia; done. }
  rename Ha into Hp3.
  assert (b = false) as -> by congruence. split; [done|].
  intros (start & Hin & Hn & Hw). exfalso.
  assert (start = pos - 2 /\ 2 <= pos \/ start = pos - 1 /\ 1 <= pos \/ start = pos)
    as [[-> Hge] | [[-> Hge] | ->]] by lia.
  - destruct (Nat.leb_spec 2 pos); [|lia].
    assert (andM (hit (pos - 1)) (hit (pos - 2)) = Ok true) as Hc; [|congruence].
    apply andM_true. split; apply Hw; lia.
  - destruct (Nat.ltb_spec 0 pos); [|lia].
    destruct (Nat.ltb_spec pos (n - 1)); [|lia]. simpl in Hp3.
    assert (andM (hit (pos - 1)) (hit (pos + 1)) = Ok true) as Hc; [|congruence].
    apply andM_true. split; apply Hw; lia.
  - destruct (Nat.leb_spec (pos + 3) n); [|lia].
    assert (andM (hit (pos + 1)) (hit (pos + 2)) = Ok true) as Hc; [|congruence].
    apply andM_true. split; apply Hw; lia.
Qed.

(** The three patterns read cells of the line only, so they return when
    the whole line can be read. *)
Lemma threeWindows_total (hit : nat -> result bool) (n pos : nat) :
  (forall k, k < n -> exists b, hit k = Ok b) ->
  pos < n ->
  exists b, threeWindows hit n pos = Ok b.
Proof.
  intros Hhit Hpos. unfold threeWindows.
  assert (Hand : forall i j, i < n -> j < n -> exists b, andM (hit i) (hit j) = Ok b).
  { intros i j Hi Hj. destruct (Hhit i Hi) as [bi Hbi], (Hhit j Hj) as [bj Hbj].
    unfold andM. rewrite Hbi. simpl. destruct bi; eauto. }
  assert (exists p1, (if 2 <=? pos then andM (hit (pos - 1)) (hit (pos - 2)) else Ok false)
                     = Ok p1) as [p1 ->].
  { destruct (Nat.leb_spec 2 pos); [apply Hand; lia | eauto]. }
  simpl. destruct p1; [eauto|].
  assert (exists p2, (if pos + 3 <=? n then andM (hit (pos + 1)) (hit (pos + 2)) else Ok false)
                     = Ok p2) as [p2 ->].
  { destruct (Nat.leb_spec (pos + 3) n); [apply Hand; lia | eauto]. }
  simpl. destruct p2; [eauto|].
  assert (exists p3, (if (0 <? pos) && (pos <? n - 1)
                      then andM (hit (pos - 1)) (hit (pos + 1)) else Ok false)
                     = Ok p3) as [p3 ->].
  { destruct (Nat.ltb_spec 0 pos); simpl; [|eauto].
    destruct (Nat.ltb_spec pos (n - 1)); [apply Hand; lia | eauto]. }
  simpl. destruct p3; eauto.
Qed.

Lemma windowAround_iff (P Q : nat -> Prop) (n pos : nat) :
  (forall k, P k <-> Q k) -> windowAround P n pos <-> windowAround Q n pos.
Proof.
  intros HPQ. unfold windowAround.
  split; intros (start & H1 & H2 & H3); exists start;
    (split; [lia|]); (split; [lia|]); intros k Hk Hne; apply HPQ; auto.
Qed.

Lemma checkThreeInRowHorizontal_Ok (g : Solver) (row col : nat) (s : CellState.t) (b : bool) :
  col < BOARD_SIZE g ->
  checkThreeInRowHorizontal g row col s = Ok b ->
  (b = true <-> rowWindow g row col s).
Proof.
  rewrite checkThreeInRowHorizontal_windows. intros Hcol H.
  rewrite (threeWindows_Ok _ _ _ _ Hcol H). unfold rowWindow.
  apply windowAround_iff. intros k. apply containsIs_true.
Qed.

Lemma checkThreeInRowVertical_Ok (g : Solver) (row col : nat) (s : CellState.t) (b : bool) :
  row < BOARD_SIZE g ->
  checkThreeInRowVertical g row col s = Ok b ->
  (b = true <-> columnWindow g row col s).
Proof.
  rewrite checkThreeInRowVertical_windows. intros Hrow H.
  rewrite (threeWindows_Ok _ _ _ _ Hrow H). unfold columnWindow.
  apply windowAround_iff. intros k. apply containsIs_true.
Qed.

(** ** Well-formed game states *)

Lemma hasShape_lookup {A : Type} (rows cols : nat) (m : list (list A)) (r c : nat) :
  hasShape rows cols m = true -> r < rows -> c < cols ->
  exists row x, m !! r = Some row /\ row !! c = Some x.
Proof.
  unfold hasShape. intros [Hlen Hall]%andb_prop Hr Hc.
  apply Nat.eqb_eq in Hlen.
  destruct (lookup_lt_is_Some_2 m r) as [row Hrow]; [lia|].
  rewrite forallb_forall in Hall.
  assert (Hin : In row m).
  { apply list_elem_of_In. eapply list_elem_of_lookup_2. eauto. }
  apply Hall, Nat.eqb_eq in Hin.
  destruct (lookup_lt_is_Some_2 row c) as [x Hx]; [lia|].
  eauto.
Qed.

Lemma hasShape_insert {A : Type} (rows cols : nat) (m : list (list A))
    (r c : nat) (row : list A) (x : A) :
  hasShape rows cols m = true -> m !! r = Some row ->
  hasShape rows cols (<[r := <[c := x]> row]> m) = true.
Proof.
  unfold hasShape. intros [Hlen Hall]%andb_prop Hrow.
  apply andb_true_intro. split.
  - by rewrite length_insert.
  - rewrite forallb_forall in *. intros y Hy.
    apply list_elem_of_In, list_elem_of_lookup in Hy as [i Hi].
    destruct (decide (i = r)) as [->|Hne].
    + rewrite list_lookup_insert_eq in Hi by (by eapply lookup_lt_Some).
      injection Hi as <-. rewrite length_insert. apply Hall.
      apply list_elem_of_In. eapply list_elem_of_lookup_2. eauto.
    + rewrite list_lookup_insert_ne in Hi by done.
      apply Hall. apply list_elem_of_In. eapply list_elem_of_lookup_2. eauto.
Qed.

Lemma wellFormed_readable (g : Solver) : wellFormed g = true -> readable g.
Proof.
  unfold wellFormed. intros [[Hb _]%andb_prop _]%andb_prop row col Hr Hc.
  destruct (hasShape_lookup _ _ _ _ _ Hb Hr Hc) as (r & x & Hrow & Hx).
  exists x. unfold contains. by rewrite Hrow, Hx.
Qed.

Lemma wellFormed_horizontal (g : Solver) (row col : nat) :
  wellFormed g = true -> row < BOARD_SIZE g -> col < EDGE_SIZE g ->
  exists e, state (horizontal (edges g)) row col = Ok e.
Proof.
  unfold wellFormed. intros [[_ Hh]%andb_prop _]%andb_prop Hr Hc.
  destruct (hasShape_lookup _ _ _ _ _ Hh Hr Hc) as (r & x & Hrow & Hx).
  exists x. unfold state. by rewrite Hrow, Hx.
Qed.

Lemma wellFormed_vertical (g : Solver) (row col : nat) :
  wellFormed g = true -> row < EDGE_SIZE g -> col < BOARD_SIZE g ->
  exists e, state (vertical (edges g)) row col = Ok e.
Proof.
  unfold wellFormed. intros [_ Hv]%andb_prop Hr Hc.
  destruct (hasShape_lookup _ _ _ _ _ Hv Hr Hc) as (r & x & Hrow & Hx).
  exists x. unfold state. by rewrite Hrow, Hx.
Qed.

Lemma wellFormed_setContains (g g' : Solver) (row col : nat) (v : CellState.t) :
  wellFormed g = true -> setContains g row col v = Ok g' -> wellFormed g' = true.
Proof.
  unfold setContains.
  destruct (board g !! row) as [r|] eqn:Hr; [|discriminate].
  destruct (r !! col); [|discriminate].
  intros Hwf [= <-]. unfold wellFormed, EDGE_SIZE in *. simpl.
  apply andb_prop in Hwf as [[Hb Hh]%andb_prop Hv].
  rewrite Hh, Hv, (hasShape_insert _ _ _ _ _ _ _ Hb Hr). done.
Qed.

(** ** The validator returns on well-formed game states *)

Lemma containsIs_total (g : Solver) (row col : nat) (s : CellState.t) :
  readable g -> row < BOARD_SIZE g -> col < BOARD_SIZE g ->
  exists b, containsIs g row col s = Ok b.
Proof.
  intros Hg Hr Hc. destruct (Hg row col Hr Hc) as [c Hcell].
  unfold containsIs. rewrite Hcell. simpl. eauto.
Qed.

Lemma checkThreeInRowHorizontal_total (g : Solver) (row col : nat) (s : CellState.t) :
  readable g -> row < BOARD_SIZE g -> col < BOARD_SIZE g ->
  exists b, checkThreeInRowHorizontal g row col s = Ok b.
Proof.
  intros Hg Hr Hc. rewrite checkThreeInRowHorizontal_windows.
  apply threeWindows_total; [|done].
  intros k Hk. by apply containsIs_total.
Qed.

Lemma checkThreeInRowVertical_total (g : Solver) (row col : nat) (s : CellState.t) :
  readable g -> row < BOARD_SIZE g -> col < BOARD_SIZE g ->
  exists b, checkThreeInRowVertical g row col s = Ok b.
Proof.
  intros Hg Hr Hc. rewrite checkThreeInRowVertical_windows.
  apply threeWindows_total; [|done].
  intros k Hk. by apply containsIs_total.
Qed.

Lemma checkEdgeConstraints_total (g : Solver) (row col : nat) (s : CellState.t) :
  wellFormed g = true -> row < BOARD_SIZE g -> col < BOARD_SIZE g ->
  exists b, checkEdgeConstraints g row col s = Ok b.
Proof.
  intros Hwf Hr Hc. pose proof (wellFormed_readable _ Hwf) as Hg.
  unfold checkEdgeConstraints.
  assert (exists h,
    (if col <? EDGE_SIZE g then
       let* edge := state (horizontal (edges g)) row col in
       let* rightCell := contains g row (col + 1) in
       if EdgeState.eqb edge EdgeState.EQUAL
          && negb (CellState.eqb rightCell CellState.EMPTY)
          && negb (CellState.eqb rightCell s)
       then Ok true
       else if EdgeState.eqb edge EdgeState.OPPOSITE
               && negb (CellState.eqb rightCell CellState.EMPTY)
               && CellState.eqb rightCell s
       then Ok true else Ok false
     else Ok false) = Ok h) as [h ->].
  { destruct (Nat.ltb_spec col (EDGE_SIZE g)) as [Hlt|]; [|eauto].
    destruct (wellFormed_horizontal g row col Hwf Hr Hlt) as [e ->].
    destruct (Hg row (col + 1)) as [c ->]; [done | unfold EDGE_SIZE in Hlt; lia |].
    simpl. repeat (destruct (_ && _)); eauto. }
  cbn [bind]. destruct h; eauto.
Qed.

Lemma isValidPlacement_total (g : Solver) (row col : nat) (s : CellState.t) :
  wellFormed g = true -> row < BOARD_SIZE g -> col < BOARD_SIZE g ->
  exists b, isValidPlacement g row col s = Ok b.
Proof.
  intros Hwf Hr Hc. pose proof (wellFormed_readable _ Hwf) as Hg.
  unfold isValidPlacement.
  destruct (checkThreeInRowHorizontal_total g row col s Hg Hr Hc) as [r1 ->]. simpl.
  destruct r1; [eauto|].
  destruct (checkThreeInRowVertical_total g row col s Hg Hr Hc) as [r2 ->]. simpl.
  destruct r2; [eauto|].
  unfold checkRowColumnBalance. simpl.
  destruct (_ || _); [eauto|].
  destruct (checkEdgeConstraints_total g row col s Hwf Hr Hc) as [r4 ->]. simpl.
  destruct r4; eauto.
Qed.

(** An accepted placement has passed each of the four checks. *)
Lemma isValidPlacement_true (g : Solver) (row col : nat) (s : CellState.t) :
  isValidPlacement g row col s = Ok true <->
  checkThreeInRowHorizontal g row col s = Ok false
  /\ checkThreeInRowVertical g row col s = Ok false
  /\ checkRowColumnBalance g row col s = Ok false
  /\ checkEdgeConstraints g row col s = Ok false.
Proof.
  unfold isValidPlacement. split.
  - intros H.
    inv_bind H. destruct a; [discriminate|]. rename Ha into H1.
    inv_bind H. destruct a; [discriminate|]. rename Ha into H2.
    inv_bind H. destruct a; [discriminate|]. rename Ha into H3.
    inv_bind H. destruct a; [discriminate|]. done.
  - intros (-> & -> & -> & ->). done.
Qed.

(** The edge to the right is enforced: a filled right neighbour that
    conflicts with the candidate through its edge makes the check true. *)
Lemma checkEdgeConstraints_right (g : Solver) (row col : nat)
    (symbol : CellState.t) (e : EdgeState.t) (rightCell : CellState.t) :
  col < EDGE_SIZE g ->
  state (horizontal (edges g)) row col = Ok e ->
  contains g row (col + 1) = Ok rightCell ->
  rightCell <> CellState.EMPTY ->
  (e = EdgeState.EQUAL /\ rightCell <> symbol)
  \/ (e = EdgeState.OPPOSITE /\ rightCell = symbol) ->
  checkEdgeConstraints g row col symbol = Ok true
  /\ isValidPlacement g row col symbol <> Ok true.
Proof.
  intros Hlt He Hc Hne Hconflict.
  assert (Hcheck : checkEdgeConstraints g row col symbol = Ok true).
  { unfold checkEdgeConstraints.
    destruct (Nat.ltb_spec col (EDGE_SIZE g)); [|lia].
    rewrite He, Hc. cbn [bind].
    apply CellState_eqb_neq in Hne. rewrite Hne.
    destruct Hconflict as [[-> Hs] | [-> ->]].
    - apply CellState_eqb_neq in Hs. by rewrite Hs.
    - by rewrite CellState_eqb_refl. }
  split; [done|].
  intros (_ & _ & _ & H)%isValidPlacement_true. congruence.
Qed.

(** ** The scan for EMPTY cells *)

Lemma isEmptyAt_contains (g : Solver) (row col : nat) :
  isEmptyAt g (row, col) = true <-> contains g row col = Ok CellState.EMPTY.
Proof. unfold isEmptyAt. simpl. apply holds_contains. Qed.

Lemma scan_row (g : Solver) (row : nat) (len : nat) :
  forall (start : nat) (acc acc' : list Coord),
    forEach (seq start len)
      (fun col acc =>
         let* c := contains g row col in
         if CellState.eqb c CellState.EMPTY
         then Ok (acc ++ [(row, col)])
         else Ok acc) acc = Ok acc' ->
    (forall col, start <= col < start + len -> exists c, contains g row col = Ok c)
    /\ acc' = acc ++ List.filter (isEmptyAt g) (map (pair row) (seq start len)).
Proof.
  induction len as [|len IH]; intros start acc acc' H; simpl in H.
  - injection H as <-. split; [lia|]. simpl. by rewrite app_nil_r.
  - inv_bind H. rename a into acc1. inv_bind Ha. rename a into c.
    apply IH in H as [Hread ->].
    split.
    + intros col Hcol. destruct (decide (col = start)) as [->|]; [eauto|].
      apply Hread. lia.
    + simpl. unfold isEmptyAt at 2. simpl.
      destruct (CellState.eqb c CellState.EMPTY) eqn:E.
      * injection Ha as <-. apply CellState_eqb_eq in E as ->.
        apply holds_contains in Ha0 as ->. by rewrite <- app_assoc.
      * injection Ha as <-.
        assert (holds g row start CellState.EMPTY = false) as ->; [|done].
        apply holds_false. rewrite Ha0. intros [= ->]. done.
Qed.

Lemma scan_rows (g : Solver) (n : nat) (len : nat) :
  forall (start : nat) (acc acc' : list Coord),
    forEach (seq start len)
      (fun row acc =>
         forEach (seq 0 n)
           (fun col acc =>
              let* c := contains g row col in
              if CellState.eqb c CellState.EMPTY
              then Ok (acc ++ [(row, col)])
              else Ok acc) acc) acc = Ok acc' ->
    (forall row col, start <= row < start + len -> col < n ->
       exists c, contains g row col = Ok c)
    /\ acc' = acc ++ List.filter (isEmptyAt g)
                      (flat_map (fun row => map (pair row) (seq 0 n)) (seq start len)).
Proof.
  induction len as [|len IH]; intros start acc acc' H; simpl in H.
  - injection H as <-. split; [lia|]. simpl. by rewrite app_nil_r.
  - inv_bind H. rename a into acc1.
    apply scan_row in Ha as [Hrow ->].
    apply IH in H as [Hread ->].
    split.
    + intros row col Hr Hc. destruct (decide (row = start)) as [->|].
      * apply Hrow. lia.
      * apply Hread; lia.
    + simpl. by rewrite List.filter_app, <- app_assoc.
Qed.

(** When the scan returns, the whole board could be read and the result is
    the list of the EMPTY cells in row-major order. *)
Lemma findEmptyCells_Ok (g : Solver) (l : list Coord) :
  findEmptyCells g = Ok l ->
  readable g /\ l = List.filter (isEmptyAt g) (allCoords (BOARD_SIZE g)).
Proof.
  unfold findEmptyCells. intros H. apply scan_rows in H as [Hread ->].
  split; [|done]. intros row col Hr Hc. apply Hread; lia.
Qed.

Lemma scan_row_total (g : Solver) (row : nat) (len : nat) :
  forall (start : nat) (acc : list Coord),
    (forall col, start <= col < start + len -> exists c, contains g row col = Ok c) ->
    exists acc',
      forEach (seq start len)
        (fun col acc =>
           let* c := contains g row col in
           if CellState.eqb c CellState.EMPTY
           then Ok (acc ++ [(row, col)])
           else Ok acc) acc = Ok acc'.
Proof.
  induction len as [|len IH]; intros start acc Hread; simpl; [eauto|].
  destruct (Hread start) as [c ->]; [lia|]. simpl.
  destruct (CellState.eqb c CellState.EMPTY); simpl; apply IH;
    intros col Hcol; apply Hread; lia.
Qed.

Lemma scan_rows_total (g : Solver) (n : nat) (len : nat) :
  forall (start : nat) (acc : list Coord),
    (forall row col, start <= row < start + len -> col < n ->
       exists c, contains g row col = Ok c) ->
    exists acc',
      forEach (seq start len)
        (fun row acc =>
           forEach (seq 0 n)
             (fun col acc =>
                let* c := contains g row col in
                if CellState.eqb c CellState.EMPTY
                then Ok (acc ++ [(row, col)])
                else Ok acc) acc) acc = Ok acc'.
Proof.
  induction len as [|len IH]; intros start acc Hread; simpl; [eauto|].
  destruct (scan_row_total g start n 0 acc) as [acc1 ->].
  { intros col Hcol. apply Hread; lia. }
  simpl. apply IH. intros row col Hrow Hcol. apply Hread; lia.
Qed.

Lemma findEmptyCells_total (g : Solver) :
  readable g -> exists l, findEmptyCells g = Ok l.
Proof.
  intros Hread. unfold findEmptyCells. apply scan_rows_total.
  intros row col Hrow Hcol. apply Hread; lia.
Qed.

(** ** Row-major order of the scan *)

Lemma elem_of_allCoords (n row col : nat) :
  (row, col) ∈ allCoords n <-> row < n /\ col < n.
Proof.
  unfold allCoords. rewrite list_elem_of_In, in_flat_map. split.
  - intros (r & Hr%in_seq & Hin). apply in_map_iff in Hin as (c & [= <- <-] & Hc%in_seq). lia.
  - intros [Hr Hc]. exists row. split; [apply in_seq; lia|].
    apply in_map_iff. exists col. split; [done | apply in_seq; lia].
Qed.

Lemma StronglySorted_filter {A : Type} (R : relation A) (f : A -> bool) (l : list A) :
  StronglySorted R l -> StronglySorted R (List.filter f l).
Proof.
  induction 1 as [|x l Hl IH Hx]; simpl; [constructor|].
  destruct (f x); [|done]. constructor; [done|].
  rewrite List.Forall_forall in *. intros y [Hy _]%filter_In. by apply Hx.
Qed.

Lemma StronglySorted_row (row : nat) (len : nat) :
  forall start, StronglySorted rowMajorLt (map (pair row) (seq start len)).
Proof.
  induction len as [|len IH]; intros start; simpl; constructor; [apply IH|].
  rewrite List.Forall_forall. intros [r c] Hin.
  apply in_map_iff in Hin as (c' & [= <- <-] & Hc%in_seq).
  right. simpl. lia.
Qed.

Lemma StronglySorted_rows (n : nat) (len : nat) :
  forall start,
    StronglySorted rowMajorLt
      (flat_map (fun row => map (pair row) (seq 0 n)) (seq start len)).
Proof.
  induction len as [|len IH]; intros start; simpl; [constructor|].
  apply StronglySorted_app_2; [|apply StronglySorted_row | apply IH].
  intros [r1 c1] [r2 c2] H1 H2.
  apply list_elem_of_In, in_map_iff in H1 as (c & [= <- <-] & _).
  apply list_elem_of_In, in_flat_map in H2 as (r & Hr%in_seq & Hin).
  apply in_map_iff in Hin as (c' & [= <- <-] & _).
  left. simpl. lia.
Qed.

Lemma StronglySorted_allCoords (n : nat) : StronglySorted rowMajorLt (allCoords n).
Proof. apply StronglySorted_rows. Qed.

Lemma rowMajorLt_irrefl (a : Coord) : ~ rowMajorLt a a.
Proof. unfold rowMajorLt. lia. Qed.

Lemma StronglySorted_NoDup {A : Type} (R : relation A) (l : list A) :
  (forall x, ~ R x x) -> StronglySorted R l -> NoDup l.
Proof.
  intros Hirr. induction 1 as [|x l Hl IH Hx]; constructor; [|done].
  intros Hin. rewrite List.Forall_forall in Hx.
  apply list_elem_of_In, Hx in Hin. by apply Hirr in Hin.
Qed.

(** What [findEmptyCells] returns, as properties of the list. *)
Lemma findEmptyCells_spec (g : Solver) (l : list Coord) :
  findEmptyCells g = Ok l ->
  readable g
  /\ StronglySorted rowMajorLt l
  /\ NoDup l
  /\ (forall row col, (row, col) ∈ l <->
        row < BOARD_SIZE g /\ col < BOARD_SIZE g
        /\ contains g row col = Ok CellState.EMPTY).
Proof.
  intros [Hread ->]%findEmptyCells_Ok.
  assert (Hs : StronglySorted rowMajorLt
                 (List.filter (isEmptyAt g) (allCoords (BOARD_SIZE g)))).
  { apply StronglySorted_filter, StronglySorted_allCoords. }
  split; [done|]. split; [done|]. split.
  { eapply StronglySorted_NoDup; [apply rowMajorLt_irrefl | done]. }
  intros row col. rewrite list_elem_of_In, filter_In, <- list_elem_of_In.
  rewrite elem_of_allCoords, isEmptyAt_contains. tauto.
Qed.

(** ** The sort *)

Section sorting_by_key.
Context {A : Type} (key : A -> nat) (R : relation A).

Lemma insertByKey_Permutation (x : A) (l : list A) :
  insertByKey key x l ≡ₚ x :: l.
Proof.
  induction l as [|y l IH]; simpl; [done|].
  destruct (key x <=? key y); [done|].
  rewrite IH. apply Permutation_swap.
Qed.

Lemma sortByKey_Permutation (l : list A) : sortByKey key l ≡ₚ l.
Proof.
  induction l as [|x l IH]; simpl; [done|].
  by rewrite insertByKey_Permutation, IH.
Qed.

Lemma insertByKey_sorted (x : A) (l : list A) :
  StronglySorted (keyThen key R) l -> Forall (R x) l ->
  StronglySorted (keyThen key R) (insertByKey key x l).
Proof.
  induction 1 as [|y l Hl IH Hy]; intros Hx; simpl.
  - repeat constructor.
  - apply Forall_cons in Hx as [Hxy Hxl].
    destruct (Nat.leb_spec (key x) (key y)) as [Hle|Hgt].
    + constructor; [by constructor|].
      constructor.
      * unfold keyThen. destruct (decide (key x = key y)); [right | left]; [done | lia].
      * rewrite Forall_forall in *. intros z Hz.
        specialize (Hy z Hz). specialize (Hxl z Hz). unfold keyThen in *.
        destruct (decide (key x = key z)); [right | left]; [done | lia].
    + constructor; [by apply IH|].
      rewrite Forall_forall in *. intros z Hz.
      rewrite insertByKey_Permutation in Hz.
      apply elem_of_cons in Hz as [->|Hz]; [|by apply Hy].
      left. lia.
Qed.

(** Sorting a list that is in [R] order yields the list ordered by key,
    and by [R] among equal keys: the sort is stable. *)
Lemma sortByKey_sorted (l : list A) :
  StronglySorted R l -> StronglySorted (keyThen key R) (sortByKey key l).
Proof.
  induction 1 as [|x l Hl IH Hx]; simpl; [constructor|].
  apply insertByKey_sorted; [done|].
  by rewrite sortByKey_Permutation.
Qed.
End sorting_by_key.

Lemma sortedEmptyCells_spec (g : Solver) (cells : list Coord) :
  sortedEmptyCells g = Ok cells ->
  readable g
  /\ StronglySorted (heuristicLt g) cells
  /\ NoDup cells
  /\ (forall row col, (row, col) ∈ cells <->
        row < BOARD_SIZE g /\ col < BOARD_SIZE g
        /\ contains g row col = Ok CellState.EMPTY).
Proof.
  unfold sortedEmptyCells. intros H. inv_bind H. injection H as <-.
  apply findEmptyCells_spec in Ha as (Hread & Hsorted & Hnodup & Hin).
  split; [done|]. split; [|split].
  - by apply sortByKey_sorted.
  - by rewrite sortByKey_Permutation.
  - intros row col. by rewrite sortByKey_Permutation.
Qed.

Lemma sortedEmptyCells_total (g : Solver) :
  readable g -> exists cells, sortedEmptyCells g = Ok cells.
Proof.
  intros [l Hl]%findEmptyCells_total. unfold sortedEmptyCells. rewrite Hl. simpl. eauto.
Qed.

(** ** The search: what a returning [dfs] has done *)

Lemma Placements_nil_inv (g g' : Solver) (pl : list Placement) :
  Placements g [] pl g' -> pl = [] /\ g' = g.
Proof. by inversion 1. Qed.

Lemma Placements_cons_inv (g g' : Solver) (row col : nat) (cells : list Coord)
    (pl : list Placement) :
  Placements g ((row, col) :: cells) pl g' ->
  exists symbol g1 pl',
    pl = (row, col, symbol) :: pl'
    /\ (symbol = CellState.MOON \/ symbol = CellState.SUN)
    /\ isValidPlacement g row col symbol = Ok true
    /\ setContains g row col symbol = Ok g1
    /\ Placements g1 cells pl' g'.
Proof. inversion 1; subst. eauto 10. Qed.

(** One candidate of [dfs], for any way [next] of continuing that meets
    [dfsPost] on [rest]. *)
Lemma tryCandidate_Ok (next : SearchState -> result (bool * SearchState))
    (row col : nat) (symbol : CellState.t) (rest : list Coord)
    (st : SearchState) (r : bool * SearchState) :
  (forall st1 r1, next st1 = Ok r1 ->
     (forall row' col', (row', col') ∈ rest ->
        contains st1.1 row' col' = Ok CellState.EMPTY) ->
     dfsPost rest st1 r1) ->
  contains st.1 row col = Ok CellState.EMPTY ->
  (row, col) ∉ rest ->
  (forall row' col', (row', col') ∈ rest ->
     contains st.1 row' col' = Ok CellState.EMPTY) ->
  tryCandidate next row col symbol st = Ok r ->
  if r.1
  then exists g1 pl,
         isValidPlacement st.1 row col symbol = Ok true
         /\ setContains st.1 row col symbol = Ok g1
         /\ Placements g1 rest pl r.2.1
         /\ r.2.2 = st.2 ++ (row, col, symbol) :: pl
         /\ (forall pl' g', Placements g1 rest pl' g' -> SearchedFirst pl pl')
  else r.2 = st
       /\ (forall g1 pl' g',
             isValidPlacement st.1 row col symbol = Ok true ->
             setContains st.1 row col symbol = Ok g1 ->
             ~ Placements g1 rest pl' g').
Proof.
  intros Hnext Hcell Hnotin Hrest H. unfold tryCandidate in H.
  inv_bind H. rename Ha into Hvalid. destruct a.
  2:{ injection H as <-. simpl. split; [done|]. intros; congruence. }
  inv_bind H. rename a into g1, Ha into Hset.
  inv_bind H. rename a into r1, Ha into Hrec.
  apply Hnext in Hrec.
  2:{ simpl. intros row' col' Hin.
      apply setContains_Ok in Hset as (_ & _ & Hother & _).
      rewrite Hother; [by apply Hrest|]. intros [= -> ->]. done. }
  unfold dfsPost in Hrec. simpl in Hrec. destruct r1 as [[] st2]; simpl in *.
  - injection H as <-. simpl.
    destruct Hrec as (pl & Hpl & Hsol & Hfirst).
    exists g1, pl. rewrite Hsol, <- app_assoc. done.
  - destruct Hrec as [-> Hnone]. simpl in H.
    rewrite (setContains_undo _ _ _ _ _ _ Hcell Hset) in H. simpl in H.
    injection H as <-. simpl. rewrite removelast_last. split; [by destruct st|].
    intros g1' pl' g' _ Hset'. assert (g1' = g1) as -> by congruence. apply Hnone.
Qed.

(** The main property of [dfs]: started on cells that are distinct and
    EMPTY, a run that returns meets [dfsPost]. *)
Lemma dfs_Ok (emptyCells : list Coord) (fuel : nat) :
  forall (index : nat) (st : SearchState) (r : bool * SearchState),
    dfs fuel emptyCells index st = Ok r ->
    NoDup (drop index emptyCells) ->
    (forall row col, (row, col) ∈ drop index emptyCells ->
       contains st.1 row col = Ok CellState.EMPTY) ->
    dfsPost (drop index emptyCells) st r.
Proof.
  induction fuel as [|fuel IH]; intros index st r H Hnodup Hempty; [discriminate|].
  simpl in H.
  destruct (Nat.eqb_spec index (length emptyCells)) as [->|Hne].
  { injection H as <-. rewrite drop_all. unfold dfsPost. simpl.
    exists []. split; [constructor|]. split; [by rewrite app_nil_r|].
    intros pl' g' [-> _]%Placements_nil_inv. constructor. }
  destruct (emptyCells !! index) as [[row col]|] eqn:Hcell; [|discriminate].
  rewrite (drop_S _ _ _ Hcell) in *. rewrite Nat.add_1_r in H.
  apply NoDup_cons in Hnodup as [Hnotin Hnodup].
  assert (Hhere : contains st.1 row col = Ok CellState.EMPTY).
  { apply Hempty. left. }
  assert (Hrest : forall row' col', (row', col') ∈ drop (S index) emptyCells ->
                    contains st.1 row' col' = Ok CellState.EMPTY).
  { intros row' col' Hin. apply Hempty. by right. }
  assert (Hnext : forall st1 r1, dfs fuel emptyCells (S index) st1 = Ok r1 ->
            (forall row' col', (row', col') ∈ drop (S index) emptyCells ->
               contains st1.1 row' col' = Ok CellState.EMPTY) ->
            dfsPost (drop (S index) emptyCells) st1 r1).
  { intros st1 r1 Hrun Hst1. by apply IH. }
  inv_bind H. rename a into m, Ha into Hmoon.
  apply (tryCandidate_Ok _ _ _ _ _ _ _ Hnext Hhere Hnotin Hrest) in Hmoon.
  destruct m as [[] stm]; simpl in *.
  { injection H as <-. unfold dfsPost. simpl.
    destruct Hmoon as (g1 & pl & Hvalid & Hset & Hpl & Hsol & Hfirst).
    exists ((row, col, CellState.MOON) :: pl). split; [|split; [done|]].
    - econstructor; eauto.
    - intros pl' g' (s' & g1' & pl'' & -> & Hs' & Hvalid' & Hset' & Hpl')%Placements_cons_inv.
      destruct Hs' as [-> | ->].
      + assert (g1' = g1) as -> by congruence.
        apply SearchedFirst_same. eauto.
      + by apply SearchedFirst_earlier. }
  destruct Hmoon as [-> Hnomoon].
  inv_bind H. rename a into s, Ha into Hsun.
  apply (tryCandidate_Ok _ _ _ _ _ _ _ Hnext Hhere Hnotin Hrest) in Hsun.
  destruct s as [[] sts]; simpl in *.
  { injection H as <-. unfold dfsPost. simpl.
    destruct Hsun as (g1 & pl & Hvalid & Hset & Hpl & Hsol & Hfirst).
    exists ((row, col, CellState.SUN) :: pl). split; [|split; [done|]].
    - econstructor; eauto.
    - intros pl' g' (s' & g1' & pl'' & -> & Hs' & Hvalid' & Hset' & Hpl')%Placements_cons_inv.
      destruct Hs' as [-> | ->].
      + exfalso. by eapply Hnomoon.
      + assert (g1' = g1) as -> by congruence.
        apply SearchedFirst_same. eauto. }
  destruct Hsun as [-> Hnosun].
  injection H as <-. unfold dfsPost. simpl. split; [done|].
  intros pl' g' (s' & g1' & pl'' & -> & Hs' & Hvalid' & Hset' & Hpl')%Placements_cons_inv.
  destruct Hs' as [-> | ->]; [by eapply Hnomoon | by eapply Hnosun].
Qed.

(** ** The search returns: fuel and exceptions *)

Lemma tryCandidate_total (next : SearchState -> result (bool * SearchState))
    (row col : nat) (symbol : CellState.t) (st : SearchState) :
  wellFormed st.1 = true ->
  row < BOARD_SIZE st.1 -> col < BOARD_SIZE st.1 ->
  (forall st1, wellFormed st1.1 = true -> BOARD_SIZE st1.1 = BOARD_SIZE st.1 ->
     exists r1, next st1 = Ok r1
                /\ wellFormed r1.2.1 = true
                /\ BOARD_SIZE r1.2.1 = BOARD_SIZE st.1) ->
  exists r, tryCandidate next row col symbol st = Ok r
            /\ wellFormed r.2.1 = true
            /\ BOARD_SIZE r.2.1 = BOARD_SIZE st.1.
Proof.
  intros Hwf Hr Hc Hnext. unfold tryCandidate.
  destruct (isValidPlacement_total st.1 row col symbol Hwf Hr Hc) as [ok ->]. simpl.
  destruct ok; [|eauto].
  destruct (wellFormed_readable _ Hwf row col Hr Hc) as [old Hold].
  destruct (setContains_total st.1 row col old symbol Hold) as [g1 Hset].
  rewrite Hset. simpl.
  pose proof (wellFormed_setContains _ _ _ _ _ Hwf Hset) as Hwf1.
  apply setContains_Ok in Hset as (_ & _ & _ & Hsize1 & _).
  destruct (Hnext (g1, st.2 ++ [(row, col, symbol)]) Hwf1 Hsize1)
    as ([found st2] & -> & Hwf2 & Hsize2).
  simpl in *. destruct found; simpl; [eauto|].
  destruct (wellFormed_readable _ Hwf2 row col) as [old2 Hold2]; [lia | lia |].
  destruct (setContains_total st2.1 row col old2 CellState.EMPTY Hold2) as [g2 Hset2].
  rewrite Hset2. simpl.
  pose proof (wellFormed_setContains _ _ _ _ _ Hwf2 Hset2) as Hwf3.
  apply setContains_Ok in Hset2 as (_ & _ & _ & Hsize3 & _).
  eexists. split; [done|]. simpl. split; [done | lia].
Qed.

(** On a well-formed game state [dfs] raises nothing, and the fuel
    [emptyCells.length - index + 1] is enough for it. *)
Lemma dfs_total (emptyCells : list Coord) (fuel : nat) :
  forall (index : nat) (st : SearchState),
    wellFormed st.1 = true ->
    (forall row col, (row, col) ∈ emptyCells ->
       row < BOARD_SIZE st.1 /\ col < BOARD_SIZE st.1) ->
    index <= length emptyCells ->
    length emptyCells - index < fuel ->
    exists r, dfs fuel emptyCells index st = Ok r
              /\ wellFormed r.2.1 = true
              /\ BOARD_SIZE r.2.1 = BOARD_SIZE st.1.
Proof.
  induction fuel as [|fuel IH]; intros index st Hwf Hrange Hindex Hfuel; [lia|].
  simpl.
  destruct (Nat.eqb_spec index (length emptyCells)) as [->|Hne]; [eauto|].
  destruct (lookup_lt_is_Some_2 emptyCells index) as [[row col] Hcell]; [lia|].
  rewrite Hcell.
  assert (Hin : (row, col) ∈ emptyCells) by (by eapply list_elem_of_lookup_2).
  destruct (Hrange row col Hin) as [Hr Hc].
  assert (Hnext : forall st0 : SearchState, BOARD_SIZE st0.1 = BOARD_SIZE st.1 ->
            forall st1 : SearchState,
              wellFormed st1.1 = true -> BOARD_SIZE st1.1 = BOARD_SIZE st0.1 ->
              exists r1, dfs fuel emptyCells (index + 1) st1 = Ok r1
                         /\ wellFormed r1.2.1 = true
                         /\ BOARD_SIZE r1.2.1 = BOARD_SIZE st0.1).
  { intros st0 Hst0 st1 Hwf1 Hsize1.
    destruct (IH (index + 1) st1 Hwf1) as (r1 & Hrun & Hwfr & Hsizer); try lia.
    - intros row' col' Hin'. rewrite Hsize1, Hst0. by apply Hrange.
    - exists r1. split; [done|]. split; [done | lia]. }
  destruct (tryCandidate_total _ row col CellState.MOON st Hwf Hr Hc (Hnext st eq_refl))
    as ([foundm stm] & -> & Hwfm & Hsizem).
  simpl in *. destruct foundm; simpl; [eauto|].
  destruct (tryCandidate_total (dfs fuel emptyCells (index + 1)) row col CellState.SUN stm)
    as ([founds sts] & -> & Hwfs & Hsizes); try done; try lia.
  { by apply Hnext. }
  simpl in *. destruct founds; simpl; eexists; (split; [done|]); simpl; (split; [done | lia]).
Qed.

Lemma tryCandidate_mono (next next' : SearchState -> result (bool * SearchState))
    (row col : nat) (symbol : CellState.t) (st : SearchState) (r : bool * SearchState) :
  (forall st1 r1, next st1 = Ok r1 -> next' st1 = Ok r1) ->
  tryCandidate next row col symbol st = Ok r ->
  tryCandidate next' row col symbol st = Ok r.
Proof.
  intros Hnext H. unfold tryCandidate in *.
  inv_bind H. rewrite Ha. simpl. destruct a; [|done].
  inv_bind H. rewrite Ha0. simpl.
  inv_bind H. apply Hnext in Ha1. rewrite Ha1. done.
Qed.

(** More fuel does not change what a returning [dfs] returns. *)
Lemma dfs_fuel_mono (emptyCells : list Coord) (fuel : nat) :
  forall (fuel' index : nat) (st : SearchState) (r : bool * SearchState),
    fuel <= fuel' ->
    dfs fuel emptyCells index st = Ok r ->
    dfs fuel' emptyCells index st = Ok r.
Proof.
  induction fuel as [|fuel IH]; intros fuel' index st r Hle H; [discriminate|].
  destruct fuel' as [|fuel']; [lia|]. simpl in *.
  destruct (index =? length emptyCells); [done|].
  destruct (emptyCells !! index) as [[row col]|]; [|done].
  assert (Hnext : forall st1 r1,
            dfs fuel emptyCells (index + 1) st1 = Ok r1 ->
            dfs fuel' emptyCells (index + 1) st1 = Ok r1).
  { intros st1 r1. apply IH. lia. }
  inv_bind H. rewrite (tryCandidate_mono _ _ _ _ _ _ _ Hnext Ha). simpl.
  destruct a.1; [done|].
  inv_bind H. rewrite (tryCandidate_mono _ _ _ _ _ _ _ Hnext Ha0). done.
Qed.

Lemma finishes_bind {A B : Type} (m : result A) (k : A -> result B) :
  finishes m -> (forall a, m = Ok a -> finishes (k a)) -> finishes (bind m k).
Proof. unfold finishes. destruct m; simpl; auto. Qed.

Lemma finishes_if {A : Type} (b : bool) (m1 m2 : result A) :
  finishes m1 -> finishes m2 -> finishes (if b then m1 else m2).
Proof. by destruct b. Qed.

Lemma finishes_contains (g : Solver) (row col : nat) : finishes (contains g row col).
Proof. unfold contains. by repeat case_match. Qed.

Lemma finishes_state (m : list (list EdgeState.t)) (row col : nat) :
  finishes (state m row col).
Proof. unfold state. by repeat case_match. Qed.

Lemma finishes_setContains (g : Solver) (row col : nat) (v : CellState.t) :
  finishes (setContains g row col v).
Proof. unfold setContains. by repeat case_match. Qed.

Lemma finishes_containsIs (g : Solver) (row col : nat) (s : CellState.t) :
  finishes (containsIs g row col s).
Proof. apply finishes_bind; [apply finishes_contains | done]. Qed.

Lemma finishes_andM (a b : result bool) : finishes a -> finishes b -> finishes (andM a b).
Proof. intros Ha Hb. apply finishes_bind; [done|]. intros [] _; done. Qed.

Lemma finishes_threeWindows (hit : nat -> result bool) (n pos : nat) :
  (forall k, finishes (hit k)) -> finishes (threeWindows hit n pos).
Proof.
  intros Hhit. unfold threeWindows.
  repeat (apply finishes_bind;
          [apply finishes_if; [by apply finishes_andM | done] |];
          intros [] _; [done|]).
  done.
Qed.

Lemma finishes_checkEdgeConstraints (g : Solver) (row col : nat) (s : CellState.t) :
  finishes (checkEdgeConstraints g row col s).
Proof.
  unfold checkEdgeConstraints.
  apply finishes_bind.
  { apply finishes_if; [|done].
    apply finishes_bind; [apply finishes_state|]. intros e _.
    apply finishes_bind; [apply finishes_contains|]. intros c _.
    by repeat apply finishes_if. }
  intros [] _; done.
Qed.

Lemma finishes_isValidPlacement (g : Solver) (row col : nat) (s : CellState.t) :
  finishes (isValidPlacement g row col s).
Proof.
  unfold isValidPlacement.
  apply finishes_bind.
  { rewrite checkThreeInRowHorizontal_windows. apply finishes_threeWindows.
    intros k. apply finishes_containsIs. }
  intros [] _; [done|].
  apply finishes_bind.
  { rewrite checkThreeInRowVertical_windows. apply finishes_threeWindows.
    intros k. apply finishes_containsIs. }
  intros [] _; [done|].
  apply finishes_bind; [done|].
  intros [] _; [done|].
  apply finishes_bind; [apply finishes_checkEdgeConstraints|].
  intros [] _; done.
Qed.

Lemma finishes_forEach {A S : Type} (body : A -> S -> result S) (l : list A) :
  (forall x s, finishes (body x s)) -> forall s, finishes (forEach l body s).
Proof.
  intros Hbody. induction l as [|x l IH]; intros s; simpl; [done|].
  apply finishes_bind; [apply Hbody | auto].
Qed.

Lemma finishes_sortedEmptyCells (g : Solver) : finishes (sortedEmptyCells g).
Proof.
  unfold sortedEmptyCells, findEmptyCells.
  apply finishes_bind; [|done].
  apply finishes_forEach. intros row acc.
  apply finishes_forEach. intros col acc'.
  apply finishes_bind; [apply finishes_contains|].
  intros c _. by apply finishes_if.
Qed.

Lemma finishes_tryCandidate (next : SearchState -> result (bool * SearchState))
    (row col : nat) (symbol : CellState.t) (st : SearchState) :
  (forall st1, finishes (next st1)) ->
  finishes (tryCandidate next row col symbol st).
Proof.
  intros Hnext. unfold tryCandidate.
  apply finishes_bind; [apply finishes_isValidPlacement|].
  intros [] _; [|done].
  apply finishes_bind; [apply finishes_setContains|]. intros g1 _.
  apply finishes_bind; [apply Hnext|]. intros r _.
  apply finishes_if; [done|].
  apply finishes_bind; [apply finishes_setContains | done].
Qed.

(** With the fuel [emptyCells.length - index + 1], [dfs] does not run out
    of fuel, whatever the game state. *)
Lemma finishes_dfs (emptyCells : list Coord) (fuel : nat) :
  forall (index : nat) (st : SearchState),
    length emptyCells - index < fuel ->
    finishes (dfs fuel emptyCells index st).
Proof.
  induction fuel as [|fuel IH]; intros index st Hfuel; [lia|]. simpl.
  destruct (Nat.eqb_spec index (length emptyCells)) as [->|Hne]; [done|].
  destruct (emptyCells !! index) as [[row col]|] eqn:Hcell; [|done].
  apply lookup_lt_Some in Hcell.
  assert (Hnext : forall st1, finishes (dfs fuel emptyCells (index + 1) st1)).
  { intros st1. apply IH. lia. }
  apply finishes_bind; [by apply finishes_tryCandidate|]. intros m _.
  apply finishes_if; [done|].
  apply finishes_bind; [by apply finishes_tryCandidate|]. intros s _.
  by apply finishes_if.
Qed.

(** ** What the placements of a successful search do to the board *)

Lemma Placements_cells (g g' : Solver) (cells : list Coord) (pl : list Placement) :
  Placements g cells pl g' -> map cellOf pl = cells.
Proof. induction 1; simpl; congruence. Qed.

Lemma Placements_symbols (g g' : Solver) (cells : list Coord) (pl : list Placement) :
  Placements g cells pl g' ->
  forall row col s, (row, col, s) ∈ pl -> s = CellState.MOON \/ s = CellState.SUN.
Proof.
  induction 1 as [|g g1 g' row col symbol cells pl Hs Hv Hset Hpl IH];
    intros row' col' s' Hin.
  - by apply elem_of_nil in Hin.
  - apply elem_of_cons in Hin as [[= -> -> ->] | Hin]; eauto.
Qed.

Lemma Placements_frame (g g' : Solver) (cells : list Coord) (pl : list Placement) :
  Placements g cells pl g' ->
  BOARD_SIZE g' = BOARD_SIZE g
  /\ edges g' = edges g
  /\ (forall row col, (row, col) ∉ cells -> contains g' row col = contains g row col).
Proof.
  induction 1 as [|g g1 g' row col symbol cells pl Hs Hv Hset Hpl IH]; [done|].
  destruct IH as (Hsize & Hedges & Hother).
  apply setContains_Ok in Hset as (_ & _ & Hother1 & Hsize1 & Hedges1).
  split; [congruence|]. split; [congruence|].
  intros row' col' Hnotin. apply not_elem_of_cons in Hnotin as [Hne Hnotin].
  rewrite Hother by done. by apply Hother1.
Qed.

Lemma Placements_written (g g' : Solver) (cells : list Coord) (pl : list Placement) :
  Placements g cells pl g' -> NoDup cells ->
  forall row col s, (row, col, s) ∈ pl -> contains g' row col = Ok s.
Proof.
  induction 1 as [|g g1 g' row col symbol cells pl Hs Hv Hset Hpl IH];
    intros Hnodup row' col' s' Hin.
  - by apply elem_of_nil in Hin.
  - apply NoDup_cons in Hnodup as [Hnotin Hnodup].
    apply elem_of_cons in Hin as [[= -> -> ->] | Hin]; [|by eapply IH].
    apply Placements_frame in Hpl as (_ & _ & Hother).
    rewrite Hother by done.
    by apply setContains_Ok in Hset as (_ & Hhere & _).
Qed.

Lemma Placements_filled (g g' : Solver) (cells : list Coord) (pl : list Placement) :
  Placements g cells pl g' -> NoDup cells ->
  forall row col, (row, col) ∈ cells ->
    contains g' row col = Ok CellState.MOON \/ contains g' row col = Ok CellState.SUN.
Proof.
  intros Hpl Hnodup row col Hin.
  rewrite <- (Placements_cells _ _ _ _ Hpl) in Hin.
  apply list_elem_of_In, in_map_iff in Hin as ([[r c] s] & [= -> ->] & Hin%list_elem_of_In).
  rewrite (Placements_written _ _ _ _ Hpl Hnodup _ _ _ Hin).
  destruct (Placements_symbols _ _ _ _ Hpl _ _ _ Hin) as [-> | ->]; eauto.
Qed.

Lemma timesPlaced_notin (sol : list Placement) (rc : Coord) :
  rc ∉ map cellOf sol -> timesPlaced sol rc = 0.
Proof.
  unfold timesPlaced. induction sol as [|[[r c] s] sol IH]; simpl; [done|].
  intros [Hne Hnotin]%not_elem_of_cons. unfold cellOf in Hne. simpl in Hne.
  destruct rc as [row col]. simpl.
  destruct (Nat.eqb_spec r row) as [->|]; simpl; [|by apply IH].
  destruct (Nat.eqb_spec c col) as [->|]; simpl; [done | by apply IH].
Qed.

Lemma timesPlaced_once (sol : list Placement) (rc : Coord) :
  NoDup (map cellOf sol) -> rc ∈ map cellOf sol -> timesPlaced sol rc = 1.
Proof.
  induction sol as [|[[r c] s] sol IH]; simpl; intros Hnodup Hin.
  - by apply elem_of_nil in Hin.
  - apply NoDup_cons in Hnodup as [Hnotin Hnodup].
    apply elem_of_cons in Hin as [-> | Hin].
    + pose proof (timesPlaced_notin sol (r, c) Hnotin) as H0.
      unfold timesPlaced, cellOf in *. simpl in *. rewrite !Nat.eqb_refl. simpl.
      by rewrite H0.
    + assert (Hne : rc <> (r, c)) by (intros ->; done).
      specialize (IH Hnodup Hin). unfold timesPlaced in *. simpl.
      destruct rc as [row col]. simpl in *.
      destruct (Nat.eqb_spec r row) as [->|]; simpl; [|done].
      destruct (Nat.eqb_spec c col) as [->|]; simpl; [done | done].
Qed.

(** ** What a returning [solvePuzzle] has done *)

Lemma solvePuzzle_Ok (g g' : Solver) (res : option (list Placement)) :
  solvePuzzle g = Ok (res, g') ->
  exists cells,
    sortedEmptyCells g = Ok cells
    /\ match res with
       | Some sol =>
           Placements g cells sol g'
           /\ (forall pl' g'', Placements g cells pl' g'' -> SearchedFirst sol pl')
       | None => g' = g /\ (forall pl' g'', ~ Placements g cells pl' g'')
       end.
Proof.
  unfold solvePuzzle. intros H.
  inv_bind H. rename a into cells, Ha into Hcells.
  inv_bind H. rename a into r, Ha into Hrun.
  exists cells. split; [done|].
  pose proof (sortedEmptyCells_spec _ _ Hcells) as (_ & _ & Hnodup & Hin).
  apply dfs_Ok in Hrun; simpl.
  - unfold dfsPost in Hrun. rewrite drop_0 in Hrun. simpl in Hrun.
    destruct r as [[] [g2 sol]]; simpl in *; injection H as <- <-.
    + destruct Hrun as (pl & Hpl & -> & Hfirst). done.
    + destruct Hrun as [[= ->] Hnone]. done.
  - by rewrite drop_0.
  - rewrite drop_0. intros row col Hrc. by apply Hin.
Qed.

Lemma finishes_solvePuzzle (g : Solver) : finishes (solvePuzzle g).
Proof.
  unfold solvePuzzle.
  apply finishes_bind; [apply finishes_sortedEmptyCells|]. intros cells _.
  apply finishes_bind; [apply finishes_dfs; lia|]. intros r _.
  by apply finishes_if.
Qed.

Lemma solvePuzzle_total (g : Solver) :
  wellFormed g = true ->
  exists cells r,
    sortedEmptyCells g = Ok cells
    /\ (forall fuel, length cells < fuel -> dfs fuel cells 0 (g, []) = Ok r)
    /\ solvePuzzle g = Ok (if r.1 then Some r.2.2 else None, r.2.1).
Proof.
  intros Hwf. pose proof (wellFormed_readable _ Hwf) as Hread.
  destruct (sortedEmptyCells_total g Hread) as [cells Hcells].
  pose proof (sortedEmptyCells_spec _ _ Hcells) as (_ & _ & _ & Hin).
  destruct (dfs_total cells (S (length cells)) 0 (g, [])) as (r & Hrun & _); simpl;
    try done; try lia.
  { intros row col Hrc. apply Hin in Hrc. lia. }
  exists cells, r. split; [done|]. split.
  - intros fuel Hfuel. eapply dfs_fuel_mono; [|done]. lia.
  - unfold solvePuzzle. rewrite Hcells. cbn [bind]. rewrite Hrun. cbn [bind].
    by destruct r.1.
Qed.

(** ** Counting symbols *)

Lemma countBelow_ext (p q : nat -> bool) (n : nat) :
  (forall k, k < n -> p k = q k) -> countBelow p n = countBelow q n.
Proof.
  induction n as [|n IH]; intros H; simpl; [done|].
  rewrite IH by (intros k Hk; apply H; lia). by rewrite H by lia.
Qed.

Lemma countBelow_update (p q : nat -> bool) (n j : nat) :
  j < n -> p j = false -> q j = true ->
  (forall k, k <> j -> q k = p k) ->
  countBelow q n = countBelow p n + 1.
Proof.
  intros Hj Hp Hq Hother. induction n as [|n IH]; [lia|]. simpl.
  destruct (decide (j = n)) as [->|Hne].
  - rewrite Hp, Hq. rewrite (countBelow_ext q p) by (intros k Hk; apply Hother; lia). lia.
  - rewrite IH by lia. rewrite Hother by lia. lia.
Qed.

Lemma countBelow_zero (p : nat -> bool) (n : nat) :
  (forall k, k < n -> p k = false) -> countBelow p n = 0.
Proof.
  induction n as [|n IH]; intros H; simpl; [done|].
  rewrite IH by (intros k Hk; apply H; lia). by rewrite H by lia.
Qed.

(** Three predicates of which exactly one holds at each position share
    the positions among them. *)
Lemma countBelow_partition (p1 p2 p3 : nat -> bool) (n : nat) :
  (forall k, k < n ->
     (if p1 k then 1 else 0) + (if p2 k then 1 else 0) + (if p3 k then 1 else 0) = 1) ->
  countBelow p1 n + countBelow p2 n + countBelow p3 n = n.
Proof.
  induction n as [|n IH]; intros H; simpl; [done|].
  specialize (H n) as Hn. specialize (IH (fun k Hk => H k (Nat.lt_lt_succ_r _ _ Hk))).
  lia.
Qed.

Lemma holds_setContains (g g1 : Solver) (row col : nat) (v : CellState.t) :
  setContains g row col v = Ok g1 ->
  holds g1 row col v = true
  /\ (forall s, s <> v -> holds g1 row col s = false)
  /\ (forall r c s, (r, c) <> (row, col) -> holds g1 r c s = holds g r c s).
Proof.
  intros (_ & Hhere & Hother & _)%setContains_Ok. split; [|split].
  - by apply holds_contains.
  - intros s Hne. apply holds_false. rewrite Hhere. congruence.
  - intros r c s Hne. specialize (Hother r c Hne).
    destruct (holds g r c s) eqn:E.
    + apply holds_contains. rewrite Hother. by apply holds_contains.
    + apply holds_false. rewrite Hother. by apply holds_false.
Qed.

Section counting_after_a_placement.
Context (g g1 : Solver) (row col : nat) (symbol : CellState.t).
Hypothesis Hempty : contains g row col = Ok CellState.EMPTY.
Hypothesis Hrow : row < BOARD_SIZE g.
Hypothesis Hcol : col < BOARD_SIZE g.
Hypothesis Hsymbol : symbol <> CellState.EMPTY.
Hypothesis Hset : setContains g row col symbol = Ok g1.

Lemma BOARD_SIZE_placed : BOARD_SIZE g1 = BOARD_SIZE g.
Proof using Hset. by apply setContains_Ok in Hset as (_ & _ & _ & ? & _). Qed.

Lemma countInRow_placed : countInRow g1 row symbol = countInRow g row symbol + 1.
Proof using Hempty Hcol Hsymbol Hset.
  unfold countInRow. rewrite BOARD_SIZE_placed.
  destruct (holds_setContains _ _ _ _ _ Hset) as (Hhere & _ & Hother).
  apply (countBelow_update _ _ _ col); try done.
  - apply holds_false. rewrite Hempty. congruence.
  - intros k Hk. apply Hother. congruence.
Qed.

Lemma countInColumn_placed : countInColumn g1 col symbol = countInColumn g col symbol + 1.
Proof using Hempty Hrow Hsymbol Hset.
  unfold countInColumn. rewrite BOARD_SIZE_placed.
  destruct (holds_setContains _ _ _ _ _ Hset) as (Hhere & _ & Hother).
  apply (countBelow_update _ _ _ row); try done.
  - apply holds_false. rewrite Hempty. congruence.
  - intros k Hk. apply Hother. congruence.
Qed.

Lemma holds_other (r c : nat) (s : CellState.t) :
  s <> CellState.EMPTY -> (r <> row \/ c <> col \/ s <> symbol) ->
  holds g1 r c s = holds g r c s.
Proof using Hempty Hset.
  intros Hs Hne.
  destruct (holds_setContains _ _ _ _ _ Hset) as (_ & Hhere & Hother).
  destruct (decide ((r, c) = (row, col))) as [[= -> ->]|]; [|by apply Hother].
  rewrite Hhere by (destruct Hne as [|[|]]; congruence).
  symmetry. apply holds_false. rewrite Hempty. congruence.
Qed.

Lemma countInRow_other (r : nat) (s : CellState.t) :
  s <> CellState.EMPTY -> (r <> row \/ s <> symbol) ->
  countInRow g1 r s = countInRow g r s.
Proof using Hempty Hset.
  intros Hs Hne. unfold countInRow. rewrite BOARD_SIZE_placed.
  apply countBelow_ext. intros k _. apply holds_other; [done | tauto].
Qed.

Lemma countInColumn_other (c : nat) (s : CellState.t) :
  s <> CellState.EMPTY -> (c <> col \/ s <> symbol) ->
  countInColumn g1 c s = countInColumn g c s.
Proof using Hempty Hset.
  intros Hs Hne. unfold countInColumn. rewrite BOARD_SIZE_placed.
  apply countBelow_ext. intros k _. apply holds_other; [done | tauto].
Qed.

(** A placement that passed the balance check keeps the caps. *)
Lemma withinCaps_placed :
  checkRowColumnBalance g row col symbol = Ok false ->
  withinCaps g -> withinCaps g1.
Proof using Hempty Hrow Hcol Hsymbol Hset.
  unfold checkRowColumnBalance. intros [= Hbal] Hcaps k s Hk Hs.
  apply orb_false_elim in Hbal as [Hbr%Nat.ltb_ge Hbc%Nat.ltb_ge].
  rewrite BOARD_SIZE_placed in *. specialize (Hcaps k s Hk Hs) as [Hr Hc].
  split.
  - destruct (decide (k = row)) as [->|Hk1];
      [destruct (decide (s = symbol)) as [->|Hs1]|].
    + rewrite countInRow_placed. lia.
    + rewrite countInRow_other; [done | done | by right].
    + rewrite countInRow_other; [done | done | by left].
  - destruct (decide (k = col)) as [->|Hk1];
      [destruct (decide (s = symbol)) as [->|Hs1]|].
    + rewrite countInColumn_placed. lia.
    + rewrite countInColumn_other; [done | done | by right].
    + rewrite countInColumn_other; [done | done | by left].
Qed.

(** A placement that passed the two three-in-a-row checks creates no
    run of three. *)
Lemma noThreeInARow_placed :
  checkThreeInRowHorizontal g row col symbol = Ok false ->
  checkThreeInRowVertical g row col symbol = Ok false ->
  noThreeInARow g -> noThreeInARow g1.
Proof using Hempty Hrow Hcol Hsymbol Hset.
  intros Hh Hv Hno s Hs r c.
  pose proof (setContains_Ok _ _ _ _ _ Hset) as (_ & Hhere & Hother & _).
  assert (Hcell : forall r' c', contains g1 r' c' = Ok s ->
            (r', c') <> (row, col) -> contains g r' c' = Ok s).
  { intros r' c' Hc' Hne. by rewrite <- Hother. }
  assert (Hsym : forall r' c', contains g1 r' c' = Ok s ->
            (r', c') = (row, col) -> s = symbol).
  { intros r' c' Hc' [= -> ->]. congruence. }
  rewrite BOARD_SIZE_placed. destruct (Hno s Hs r c) as [Hnr Hnc].
  split.
  - intros (Hr & Hc & H0 & H1 & H2).
    destruct (decide (r = row /\ c <= col <= c + 2)) as [[-> Hin]|Hout].
    + assert (s = symbol) as ->.
      { assert (col = c \/ col = c + 1 \/ col = c + 2) as [E | [E | E]] by lia.
        - apply (Hsym row c H0). by rewrite E.
        - apply (Hsym row (c + 1) H1). by rewrite E.
        - apply (Hsym row (c + 2) H2). by rewrite E. }
      assert (Hw : rowWindow g row col symbol);
        [|by apply (checkThreeInRowHorizontal_Ok _ _ _ _ _ Hcol Hh) in Hw].
      exists c. split; [lia|]. split; [lia|].
      intros k Hk Hne.
      assert (k = c \/ k = c + 1 \/ k = c + 2) as [-> | [-> | ->]] by lia;
        apply Hcell; congruence.
    + apply Hnr. repeat split; try done; apply Hcell; try done;
        intros [= E1 E2]; lia.
  - intros (Hr & Hc & H0 & H1 & H2).
    destruct (decide (c = col /\ r <= row <= r + 2)) as [[-> Hin]|Hout].
    + assert (s = symbol) as ->.
      { assert (row = r \/ row = r + 1 \/ row = r + 2) as [E | [E | E]] by lia.
        - apply (Hsym r col H0). by rewrite E.
        - apply (Hsym (r + 1) col H1). by rewrite E.
        - apply (Hsym (r + 2) col H2). by rewrite E. }
      assert (Hw : columnWindow g row col symbol);
        [|by apply (checkThreeInRowVertical_Ok _ _ _ _ _ Hrow Hv) in Hw].
      exists r. split; [lia|]. split; [lia|].
      intros k Hk Hne.
      assert (k = r \/ k = r + 1 \/ k = r + 2) as [-> | [-> | ->]] by lia;
        apply Hcell; congruence.
    + apply Hnc. repeat split; try done; apply Hcell; try done;
        intros [= E1 E2]; lia.
Qed.
End counting_after_a_placement.

(** ** The rules along a successful search *)

Lemma Placements_withinCaps (g g' : Solver) (cells : list Coord) (pl : list Placement) :
  Placements g cells pl g' ->
  NoDup cells ->
  (forall row col, (row, col) ∈ cells ->
     row < BOARD_SIZE g /\ col < BOARD_SIZE g
     /\ contains g row col = Ok CellState.EMPTY) ->
  withinCaps g -> withinCaps g'.
Proof.
  induction 1 as [|g g1 g' row col symbol cells pl Hs Hv Hset Hpl IH];
    intros Hnodup Hcells Hcaps; [done|].
  apply NoDup_cons in Hnodup as [Hnotin Hnodup].
  destruct (Hcells row col) as (Hrow & Hcol & Hempty); [left|].
  assert (Hsymbol : symbol <> CellState.EMPTY) by (destruct Hs as [-> | ->]; done).
  apply isValidPlacement_true in Hv as (_ & _ & Hbal & _).
  apply IH; [done| | by eapply withinCaps_placed].
  intros row' col' Hin.
  destruct (Hcells row' col') as (Hrow' & Hcol' & Hempty'); [by right|].
  apply setContains_Ok in Hset as (_ & _ & Hother & -> & _).
  split; [done|]. split; [done|].
  rewrite Hother; [done|]. intros [= -> ->]. done.
Qed.

Lemma Placements_noThreeInARow (g g' : Solver) (cells : list Coord) (pl : list Placement) :
  Placements g cells pl g' ->
  NoDup cells ->
  (forall row col, (row, col) ∈ cells ->
     row < BOARD_SIZE g /\ col < BOARD_SIZE g
     /\ contains g row col = Ok CellState.EMPTY) ->
  noThreeInARow g -> noThreeInARow g'.
Proof.
  induction 1 as [|g g1 g' row col symbol cells pl Hs Hv Hset Hpl IH];
    intros Hnodup Hcells Hno; [done|].
  apply NoDup_cons in Hnodup as [Hnotin Hnodup].
  destruct (Hcells row col) as (Hrow & Hcol & Hempty); [left|].
  assert (Hsymbol : symbol <> CellState.EMPTY) by (destruct Hs as [-> | ->]; done).
  apply isValidPlacement_true in Hv as (Hh & Hvert & _ & _).
  apply IH; [done| | by eapply (noThreeInARow_placed g g1 row col symbol)].
  intros row' col' Hin.
  destruct (Hcells row' col') as (Hrow' & Hcol' & Hempty'); [by right|].
  apply setContains_Ok in Hset as (_ & _ & Hother & -> & _).
  split; [done|]. split; [done|].
  rewrite Hother; [done|]. intros [= -> ->]. done.
Qed.

Lemma holds_one_symbol (g : Solver) (row col : nat) :
  readable g -> row < BOARD_SIZE g -> col < BOARD_SIZE g ->
  (if holds g row col CellState.SUN then 1 else 0)
  + (if holds g row col CellState.MOON then 1 else 0)
  + (if holds g row col CellState.EMPTY then 1 else 0) = 1.
Proof.
  intros Hread Hr Hc. destruct (Hread row col Hr Hc) as [x Hx].
  unfold holds, contains in *.
  destruct (board g !! row) as [r|]; [|done].
  destruct (r !! col) as [y|]; [|done].
  injection Hx as ->. by destruct x.
Qed.

(** The cells of a row, and of a column, are shared among the three
    symbols. *)
Lemma countInRow_total (g : Solver) (k : nat) :
  readable g -> k < BOARD_SIZE g ->
  countInRow g k CellState.SUN + countInRow g k CellState.MOON
  + countInRow g k CellState.EMPTY = BOARD_SIZE g.
Proof.
  intros Hread Hk. apply countBelow_partition.
  intros c Hc. by apply holds_one_symbol.
Qed.

Lemma countInColumn_total (g : Solver) (k : nat) :
  readable g -> k < BOARD_SIZE g ->
  countInColumn g k CellState.SUN + countInColumn g k CellState.MOON
  + countInColumn g k CellState.EMPTY = BOARD_SIZE g.
Proof.
  intros Hread Hk. apply countBelow_partition.
  intros r Hr. by apply holds_one_symbol.
Qed.

Lemma complete_balanced (g : Solver) :
  readable g -> withinCaps g ->
  (forall row col, row < BOARD_SIZE g -> col < BOARD_SIZE g ->
     contains g row col <> Ok CellState.EMPTY) ->
  balanced g.
Proof.
  intros Hread Hcaps Hfull k Hk.
  destruct (Hcaps k CellState.SUN Hk) as [Hrs Hcs]; [done|].
  destruct (Hcaps k CellState.MOON Hk) as [Hrm Hcm]; [done|].
  assert (Hre : countInRow g k CellState.EMPTY = 0).
  { apply countBelow_zero. intros c Hc. apply holds_false. by apply Hfull. }
  assert (Hce : countInColumn g k CellState.EMPTY = 0).
  { apply countBelow_zero. intros r Hr. apply holds_false. by apply Hfull. }
  pose proof (countInRow_total g k Hread Hk) as Hr.
  pose proof (countInColumn_total g k Hread Hk) as Hc.
  assert (Hhalf : forall a b n, 2 * a <= n -> 2 * b <= n -> a + b + 0 = n ->
            a = n / 2 /\ b = n / 2).
  { intros a b n Ha Hb Hab.
    assert (n = 2 * a) as -> by lia. assert (b = a) as -> by lia.
    rewrite Nat.mul_comm, Nat.div_mul by done. done. }
  rewrite Hre in Hr. rewrite Hce in Hc.
  destruct (Hhalf _ _ _ Hrs Hrm Hr) as [-> ->].
  destruct (Hhalf _ _ _ Hcs Hcm Hc) as [-> ->].
  done.
Qed.


Lemma complete_noRunOf (g : Solver) :
  noThreeInARow g ->
  (forall row col, row < BOARD_SIZE g -> col < BOARD_SIZE g ->
     contains g row col <> Ok CellState.EMPTY) ->
  forall s, noRunOf g s.
Proof.
  intros Hno Hfull s.
  destruct (decide (s = CellState.EMPTY)) as [->|Hs]; [|by apply Hno].
  intros row col. split.
  - intros (Hr & Hc & H0 & _). apply (Hfull row col); [done | lia | done].
  - intros (Hr & Hc & H0 & _). apply (Hfull row col); [lia | done | done].
Qed.

(** The board after a successful search: the cells that were filled are
    untouched, and the cells that were EMPTY hold MOON or SUN. *)
Lemma solvePuzzle_board (g g' : Solver) (sol : list Placement) :
  solvePuzzle g = Ok (Some sol, g') ->
  BOARD_SIZE g' = BOARD_SIZE g
  /\ edges g' = edges g
  /\ (forall row col s, contains g row col = Ok s -> s <> CellState.EMPTY ->
        contains g' row col = Ok s)
  /\ (forall row col, row < BOARD_SIZE g -> col < BOARD_SIZE g ->
        contains g' row col = Ok CellState.MOON
        \/ contains g' row col = Ok CellState.SUN
        \/ exists s, s <> CellState.EMPTY /\ contains g row col = Ok s
                     /\ contains g' row col = Ok s).
Proof.
  intros (cells & Hcells & Hpl & _)%solvePuzzle_Ok.
  apply sortedEmptyCells_spec in Hcells as (Hread & _ & Hnodup & Hin).
  pose proof (Placements_frame _ _ _ _ Hpl) as (Hsize & Hedges & Hother).
  assert (Hkeep : forall row col s, contains g row col = Ok s -> s <> CellState.EMPTY ->
            contains g' row col = Ok s).
  { intros row col s Hc Hs. rewrite Hother; [done|].
    intros (_ & _ & He)%Hin. congruence. }
  split; [done|]. split; [done|]. split; [done|].
  intros row col Hr Hc.
  destruct (Hread row col Hr Hc) as [s Hs].
  destruct (decide (s = CellState.EMPTY)) as [->|Hne].
  - destruct (Placements_filled _ _ _ _ Hpl Hnodup row col) as [Hm | Hsun]; eauto.
    by apply Hin.
  - right; right. exists s. auto.
Qed.

(** ** Boards without filled cells *)

Lemma contains_gameState (n row col : nat) (s : CellState.t) :
  contains (gameState n) row col = Ok s -> s = CellState.EMPTY.
Proof.
  unfold contains, gameState. simpl.
  destruct (replicate n (replicate n CellState.EMPTY) !! row) as [r|] eqn:Hr; [|done].
  apply lookup_replicate in Hr as [-> _].
  destruct (replicate n CellState.EMPTY !! col) as [c|] eqn:Hc; [|done].
  apply lookup_replicate in Hc as [-> _]. congruence.
Qed.

Lemma withinCaps_gameState (n : nat) : withinCaps (gameState n).
Proof.
  intros k s _ Hs.
  assert (Hz : forall row col, holds (gameState n) row col s = false).
  { intros row col. apply holds_false. intros H%contains_gameState. done. }
  unfold countInRow, countInColumn.
  rewrite !countBelow_zero by (intros; apply Hz). lia.
Qed.

Lemma noThreeInARow_gameState (n : nat) : noThreeInARow (gameState n).
Proof.
  intros s Hs row col.
  split; intros (_ & _ & H%contains_gameState & _); done.
Qed.

(** The board of a solution can be read and has no EMPTY cell, and it
    keeps the caps of the input. *)
Lemma solvePuzzle_complete (g g' : Solver) (sol : list Placement) :
  solvePuzzle g = Ok (Some sol, g') ->
  readable g'
  /\ (forall row col, row < BOARD_SIZE g' -> col < BOARD_SIZE g' ->
        contains g' row col <> Ok CellState.EMPTY)
  /\ (withinCaps g -> withinCaps g')
  /\ (noThreeInARow g -> noThreeInARow g').
Proof.
  intros H.
  pose proof (solvePuzzle_board _ _ _ H) as (Hsize & _ & _ & Hfilled).
  apply solvePuzzle_Ok in H as (cells & Hcells & Hpl & _).
  apply sortedEmptyCells_spec in Hcells as (_ & _ & Hnodup & Hin).
  assert (Hcells : forall row col, (row, col) ∈ cells ->
            row < BOARD_SIZE g /\ col < BOARD_SIZE g
            /\ contains g row col = Ok CellState.EMPTY).
  { intros row col Hrc. by apply Hin. }
  split; [|split; [|split]].
  - unfold readable. rewrite Hsize. intros row col Hr Hc.
    destruct (Hfilled row col Hr Hc) as [-> | [-> | (s & Hs & _ & ->)]]; eauto.
  - rewrite Hsize. intros row col Hr Hc.
    destruct (Hfilled row col Hr Hc) as [-> | [-> | (s & Hs & _ & ->)]]; congruence.
  - by apply (Placements_withinCaps _ _ _ _ Hpl).
  - by apply (Placements_noThreeInARow _ _ _ _ Hpl).
Qed.

(** ** The solver at work *)

(** The heuristic order on the board with SUN at [(0,0)]: the cells with
    two EMPTY neighbours, then those with three, then those with four, in
    row-major order within each group. *)
Example sortedEmptyCells_equalEdgeBoard :
  sortedEmptyCells equalEdgeBoard
  = Ok [(0, 1); (0, 3); (1, 0); (3, 0); (3, 3);
        (0, 2); (1, 3); (2, 0); (2, 3); (3, 1); (3, 2);
        (1, 1); (1, 2); (2, 1); (2, 2)].
Proof. reflexivity. Qed.

(** The 4 by 4 board without filled cells and without constraints: sixteen
    placements, and a board that follows the rules. *)
Example solvePuzzle_gameState_4 :
  exists sol g',
    solvePuzzle (gameState 4) = Ok (Some sol, g')
    /\ length sol = 16
    /\ board g' = [[CellState.MOON; CellState.SUN; CellState.SUN; CellState.MOON];
                   [CellState.SUN; CellState.MOON; CellState.MOON; CellState.SUN];
                   [CellState.SUN; CellState.MOON; CellState.MOON; CellState.SUN];
                   [CellState.MOON; CellState.SUN; CellState.SUN; CellState.MOON]].
Proof. eexists _, _. split; [vm_compute; reflexivity|]. split; reflexivity. Qed.

(** A board whose search fails, after placements that are all undone:
    three SUN at the start of row 0 of a 4 by 4 board leave no way to
    balance the columns. *)
Example solvePuzzle_lockedRunBoard4 :
  isValidPlacement lockedRunBoard4 0 3 CellState.MOON = Ok true
  /\ isValidPlacement lockedRunBoard4 0 3 CellState.SUN = Ok false
  /\ solvePuzzle lockedRunBoard4 = Ok (None, lockedRunBoard4).
Proof. vm_compute. auto. Qed.

(** ** The search order among assignments that share a prefix *)

Lemma SearchedFirst_app_inv (pre pl pl' : list Placement) :
  SearchedFirst (pre ++ pl) (pre ++ pl') -> SearchedFirst pl pl'.
Proof.
  induction pre as [|p pre IH]; [done|].
  simpl. inversion 1 as [|row col s s' l l' [Hs Hs'] E1 E2|q l l' Hrest]; subst.
  - congruence.
  - by apply IH.
Qed.

Lemma SearchedFirst_SUN_MOON (row col : nat) (pl pl' : list Placement) :
  ~ SearchedFirst ((row, col, CellState.SUN) :: pl) ((row, col, CellState.MOON) :: pl').
Proof.
  inversion 1 as [|r c s s' l l' [Hs Hs'] E1 E2|q l l' Hrest]; subst; congruence.
Qed.

(** ** [edges.vertical] is not read *)







(** * The claims of the specification *)

(** ** C3: a failed search leaves the board as it found it *)

(** C3.  When [solvePuzzle] returns [null] (NO_SOLUTION), the solver
    object after the call is the one before the call: every placement of
    the failed search has been undone. *)
Theorem solvePuzzle_restores (g g' : Solver) :
  solvePuzzle g = Ok (None, g') -> g' = g.
Proof.
  intros (cells & _ & Hsame & _)%solvePuzzle_Ok. done.
Qed.

Lemma solvePuzzle_restores_witness :
  solvePuzzle lockedRunBoard4 = Ok (None, lockedRunBoard4)
  /\ lockedRunBoard4 = lockedRunBoard4.
Proof.
  split; [vm_compute; reflexivity|].
  apply (solvePuzzle_restores lockedRunBoard4 lockedRunBoard4).
  vm_compute. reflexivity.
Defined.

(** ** C6: conservation *)

(** C6.  In a solution returned by [solvePuzzle], every cell that was
    filled in the input holds the same symbol in the resulting board and
    is not in the placement list, and every cell that was EMPTY in the
    input is in the placement list exactly once. *)
Theorem solvePuzzle_conservation (g g' : Solver) (sol : list Placement) :
  solvePuzzle g = Ok (Some sol, g') ->
  (forall row col s,
     contains g row col = Ok s -> s <> CellState.EMPTY ->
     contains g' row col = Ok s /\ timesPlaced sol (row, col) = 0)
  /\ (forall row col,
        row < BOARD_SIZE g -> col < BOARD_SIZE g ->
        contains g row col = Ok CellState.EMPTY ->
        timesPlaced sol (row, col) = 1).
Proof.
  intros H. pose proof (solvePuzzle_board _ _ _ H) as (_ & _ & Hkeep & _).
  apply solvePuzzle_Ok in H as (cells & Hcells & Hpl & _).
  apply sortedEmptyCells_spec in Hcells as (_ & _ & Hnodup & Hin).
  pose proof (Placements_cells _ _ _ _ Hpl) as Hmap.
  split.
  - intros row col s Hc Hs. split; [by apply Hkeep|].
    apply timesPlaced_notin. rewrite Hmap.
    intros (_ & _ & He)%Hin. congruence.
  - intros row col Hr Hc He.
    apply timesPlaced_once; rewrite Hmap; [done|]. by apply Hin.
Qed.

Lemma solvePuzzle_conservation_witness :
  contains equalEdgeBoard 0 0 = Ok CellState.SUN
  /\ exists sol g',
       solvePuzzle equalEdgeBoard = Ok (Some sol, g')
       /\ contains g' 0 0 = Ok CellState.SUN
       /\ timesPlaced sol (0, 0) = 0
       /\ timesPlaced sol (1, 1) = 1.
Proof.
  split; [reflexivity|].
  destruct (solvePuzzle equalEdgeBoard) as [[[sol|] g']| |] eqn:E;
    try (vm_compute in E; discriminate).
  exists sol, g'. split; [reflexivity|].
  destruct (solvePuzzle_conservation equalEdgeBoard g' sol E) as [Hkeep Honce].
  destruct (Hkeep 0 0 CellState.SUN) as [H1 H2]; [reflexivity | discriminate |].
  split; [exact H1|]. split; [exact H2|].
  apply Honce; [simpl; lia | simpl; lia | reflexivity].
Defined.

(** ** C10: termination *)

(** C10.  [solvePuzzle] never runs out of the fuel [emptyCells.length + 1]
    it gives to [dfs(0)], so the recursion, whose [index] grows by one at
    each level up to [emptyCells.length], is finite; and on a game state
    whose matrices have the dimensions of [BOARD_SIZE] it raises nothing:
    it returns a solution or [null], the same for any larger fuel. *)
Theorem solvePuzzle_terminates (g : Solver) :
  finishes (solvePuzzle g)
  /\ (wellFormed g = true ->
      exists cells r,
        sortedEmptyCells g = Ok cells
        /\ (forall fuel, length cells < fuel -> dfs fuel cells 0 (g, []) = Ok r)
        /\ solvePuzzle g = Ok (if r.1 then Some r.2.2 else None, r.2.1)).
Proof.
  split; [apply finishes_solvePuzzle | apply solvePuzzle_total].
Qed.

Lemma solvePuzzle_terminates_witness :
  wellFormed (gameState 4) = true
  /\ exists cells r,
       sortedEmptyCells (gameState 4) = Ok cells
       /\ (forall fuel, length cells < fuel ->
             dfs fuel cells 0 (gameState 4, []) = Ok r)
       /\ solvePuzzle (gameState 4) = Ok (if r.1 then Some r.2.2 else None, r.2.1).
Proof.
  split; [reflexivity|].
  apply (proj2 (solvePuzzle_terminates (gameState 4))). reflexivity.
Defined.

(** ** C4: the order of the placement list *)

(** C4.  The placement list of a successful [solvePuzzle] goes through the
    cells in the heuristic order measured on the input board: by ascending
    number of EMPTY 4-neighbours, and in row-major order among cells with
    the same number.  Its cells are the cells that were EMPTY in the input,
    each one exactly once, with MOON or SUN.  Each of its placements is
    accepted by [isValidPlacement] on the board as the earlier ones left
    it.  MOON is attempted before SUN at each cell: the list is the first
    in search order among the assignments accepted in this way, and where
    it has SUN, no accepted assignment has the same earlier placements and
    MOON there. *)
Theorem solvePuzzle_heuristic_order (g g' : Solver) (sol : list Placement) :
  solvePuzzle g = Ok (Some sol, g') ->
  StronglySorted (heuristicLt g) (map cellOf sol)
  /\ (forall row col,
        row < BOARD_SIZE g -> col < BOARD_SIZE g ->
        contains g row col = Ok CellState.EMPTY ->
        timesPlaced sol (row, col) = 1)
  /\ (forall row col s,
        (row, col, s) ∈ sol ->
        row < BOARD_SIZE g /\ col < BOARD_SIZE g
        /\ contains g row col = Ok CellState.EMPTY
        /\ (s = CellState.MOON \/ s = CellState.SUN))
  /\ Placements g (map cellOf sol) sol g'
  /\ (forall pl' g'',
        Placements g (map cellOf sol) pl' g'' -> SearchedFirst sol pl')
  /\ (forall pre row col post rest g'',
        sol = pre ++ (row, col, CellState.SUN) :: post ->
        ~ Placements g (map cellOf sol)
            (pre ++ (row, col, CellState.MOON) :: rest) g'').
Proof.
  intros (cells & Hcells & Hpl & Hfirst)%solvePuzzle_Ok.
  apply sortedEmptyCells_spec in Hcells as (_ & Hsorted & Hnodup & Hin).
  pose proof (Placements_cells _ _ _ _ Hpl) as Hmap. rewrite Hmap.
  split; [done|]. split; [|split; [|split; [done|split; [done|]]]].
  - intros row col Hr Hc He.
    apply timesPlaced_once; rewrite Hmap; [done|]. by apply Hin.
  - intros row col s Hs.
    assert (Hrc : (row, col) ∈ cells).
    { rewrite <- Hmap. apply list_elem_of_In, in_map_iff.
      exists (row, col, s). split; [done | by apply list_elem_of_In]. }
    apply Hin in Hrc as (Hr & Hc & He).
    repeat (split; [done|]). by eapply Placements_symbols.
  - intros pre row col post rest g'' Hsol Hmoon.
    apply Hfirst in Hmoon. rewrite Hsol in Hmoon.
    apply SearchedFirst_app_inv in Hmoon.
    by apply SearchedFirst_SUN_MOON in Hmoon.
Qed.

Lemma solvePuzzle_heuristic_order_witness :
  exists sol g',
    solvePuzzle equalEdgeBoard = Ok (Some sol, g')
    /\ StronglySorted (heuristicLt equalEdgeBoard) (map cellOf sol)
    /\ timesPlaced sol (0, 1) = 1
    /\ Placements equalEdgeBoard (map cellOf sol) sol g'.
Proof.
  destruct (solvePuzzle equalEdgeBoard) as [[[sol|] g']| |] eqn:E;
    try (vm_compute in E; discriminate).
  exists sol, g'. split; [reflexivity|].
  destruct (solvePuzzle_heuristic_order equalEdgeBoard g' sol E)
    as (Hs & Honce & _ & Hpl & _).
  split; [exact Hs|]. split; [|exact Hpl].
  apply Honce; [simpl; lia | simpl; lia | reflexivity].
Defined.

(** ** C5: the three-in-a-row component of the validator *)

(** C5.  On a well-formed game state and for a cell of the board, the two
    three-in-a-row checks return; the horizontal one returns true exactly
    when a window of three consecutive cells of the row, within the board
    and containing the target cell, has its two other cells holding the
    symbol (the two cells before the target, the two after it, or one on
    each side), the vertical one the same with the column; and
    [isValidPlacement] rejects the placement when one of them is true. *)
Theorem threeInARow_windows (g : Solver) (row col : nat) (symbol : CellState.t) :
  wellFormed g = true -> row < BOARD_SIZE g -> col < BOARD_SIZE g ->
  exists h v,
    checkThreeInRowHorizontal g row col symbol = Ok h
    /\ checkThreeInRowVertical g row col symbol = Ok v
    /\ (h = true <-> rowWindow g row col symbol)
    /\ (v = true <-> columnWindow g row col symbol)
    /\ (h = true \/ v = true -> isValidPlacement g row col symbol = Ok false).
Proof.
  intros Hwf Hr Hc. pose proof (wellFormed_readable _ Hwf) as Hread.
  destruct (checkThreeInRowHorizontal_total g row col symbol Hread Hr Hc) as [h Hh].
  destruct (checkThreeInRowVertical_total g row col symbol Hread Hr Hc) as [v Hv].
  exists h, v. split; [done|]. split; [done|].
  split; [by apply checkThreeInRowHorizontal_Ok|].
  split; [by apply checkThreeInRowVertical_Ok|].
  unfold isValidPlacement. rewrite Hh. cbn [bind].
  intros [-> | ->]; [done|]. destruct h; [done|]. by rewrite Hv.
Qed.

Lemma threeInARow_windows_witness :
  wellFormed lockedRunBoard4 = true /\ 0 < 4 /\ 3 < 4
  /\ exists h v,
       checkThreeInRowHorizontal lockedRunBoard4 0 3 CellState.SUN = Ok h
       /\ checkThreeInRowVertical lockedRunBoard4 0 3 CellState.SUN = Ok v
       /\ (h = true <-> rowWindow lockedRunBoard4 0 3 CellState.SUN)
       /\ (v = true <-> columnWindow lockedRunBoard4 0 3 CellState.SUN)
       /\ (h = true \/ v = true ->
           isValidPlacement lockedRunBoard4 0 3 CellState.SUN = Ok false).
Proof.
  split; [reflexivity|]. split; [lia|]. split; [lia|].
  apply (threeInARow_windows lockedRunBoard4 0 3 CellState.SUN);
    [reflexivity | simpl; lia | simpl; lia].
Defined.

(** ** C1: the rules on the board of a solution *)

(** C1, counterexamples.  [solvePuzzle] looks at the filled cells of its
    input only as neighbours of the cells it fills: on the board filled
    with SUN it returns the empty placement list as a solution, and the
    board breaks the balance rule.  And on the board with SUN at [(0,0)]
    and an EQUAL edge to [(0,1)] it returns a solution whose board has
    MOON at [(0,1)]. *)
Lemma solvePuzzle_rules_counterexample :
  (solvePuzzle fullSunBoard = Ok (Some [], fullSunBoard)
   /\ ~ satisfiesRules fullSunBoard)
  /\ (exists sol g', solvePuzzle equalEdgeBoard = Ok (Some sol, g')
                     /\ ~ satisfiesRules g').
Proof.
  split.
  - split; [vm_compute; reflexivity|].
    intros (Hbal & _). destruct (Hbal 0) as [[H _] _]; [simpl; lia|].
    vm_compute in H. discriminate.
  - destruct (solvePuzzle equalEdgeBoard) as [[[sol|] g']| |] eqn:E;
      try (vm_compute in E; discriminate).
    exists sol, g'. split; [reflexivity|].
    intros (_ & _ & [Hh _]).
    vm_compute in E. injection E as <- <-.
    specialize (Hh 0 0 EdgeState.EQUAL CellState.SUN CellState.MOON).
    destruct Hh as [_ Heq]; try reflexivity. discriminate.
Qed.

(** C1, amended.  If in the input board no row and no column holds more
    than [N/2] SUN or more than [N/2] MOON, and no three consecutive cells
    of a row or of a column hold the same symbol among the filled cells,
    then the board of a solution returned by [solvePuzzle] has [N/2] SUN,
    [N/2] MOON and no EMPTY cell in every row and every column, and no
    three consecutive cells of a row or of a column holding the same
    symbol. *)
Theorem solvePuzzle_rules (g g' : Solver) (sol : list Placement) :
  withinCaps g -> noThreeInARow g ->
  solvePuzzle g = Ok (Some sol, g') ->
  balanced g' /\ (forall s, noRunOf g' s).
Proof.
  intros Hcaps Hno (Hread & Hfull & Hcaps' & Hno')%solvePuzzle_complete.
  split.
  - apply complete_balanced; auto.
  - apply complete_noRunOf; auto.
Qed.

Lemma solvePuzzle_rules_witness :
  withinCaps (gameState 4) /\ noThreeInARow (gameState 4)
  /\ exists sol g',
       solvePuzzle (gameState 4) = Ok (Some sol, g')
       /\ balanced g' /\ (forall s, noRunOf g' s).
Proof.
  split; [apply withinCaps_gameState|]. split; [apply noThreeInARow_gameState|].
  destruct (solvePuzzle (gameState 4)) as [[[sol|] g']| |] eqn:E;
    try (vm_compute in E; discriminate).
  exists sol, g'. split; [reflexivity|].
  apply (solvePuzzle_rules (gameState 4) g' sol);
    [apply withinCaps_gameState | apply noThreeInARow_gameState | exact E].
Defined.

(** ** C9: three SUN in a row among the filled cells of the input *)

(** C9, counterexample.  Row 0 of the 6 by 6 board starts with MOON, SUN,
    SUN, SUN; [solvePuzzle] returns a solution for it. *)
Lemma solvePuzzle_locked_run_counterexample :
  contains lockedRunBoard6 0 1 = Ok CellState.SUN
  /\ contains lockedRunBoard6 0 2 = Ok CellState.SUN
  /\ contains lockedRunBoard6 0 3 = Ok CellState.SUN
  /\ exists sol g', solvePuzzle lockedRunBoard6 = Ok (Some sol, g').
Proof.
  repeat (split; [reflexivity|]).
  destruct (solvePuzzle lockedRunBoard6) as [[[sol|] g']| |] eqn:E;
    try (vm_compute in E; discriminate).
  by exists sol, g'.
Qed.

(** C9, amended.  [solvePuzzle] does not examine the filled cells of its
    input for runs: when three consecutive cells of a row hold SUN in the
    input and it returns a solution, the three cells still hold SUN in the
    board of that solution, which therefore breaks the three-in-a-row
    rule. *)
Theorem solvePuzzle_keeps_locked_run (g g' : Solver) (sol : list Placement)
    (row col : nat) :
  row < BOARD_SIZE g -> col + 2 < BOARD_SIZE g ->
  contains g row col = Ok CellState.SUN ->
  contains g row (col + 1) = Ok CellState.SUN ->
  contains g row (col + 2) = Ok CellState.SUN ->
  solvePuzzle g = Ok (Some sol, g') ->
  (contains g' row col = Ok CellState.SUN
   /\ contains g' row (col + 1) = Ok CellState.SUN
   /\ contains g' row (col + 2) = Ok CellState.SUN)
  /\ ~ noRunOf g' CellState.SUN.
Proof.
  intros Hr Hc H0 H1 H2 H.
  apply solvePuzzle_board in H as (Hsize & _ & Hkeep & _).
  assert (Hrun : contains g' row col = Ok CellState.SUN
                 /\ contains g' row (col + 1) = Ok CellState.SUN
                 /\ contains g' row (col + 2) = Ok CellState.SUN).
  { repeat split; by apply Hkeep. }
  split; [done|].
  intros Hno. destruct (Hno row col) as [Hrow _]. apply Hrow.
  rewrite Hsize. tauto.
Qed.

Lemma solvePuzzle_keeps_locked_run_witness :
  exists sol g',
    solvePuzzle lockedRunBoard6 = Ok (Some sol, g')
    /\ (contains g' 0 1 = Ok CellState.SUN
        /\ contains g' 0 (1 + 1) = Ok CellState.SUN
        /\ contains g' 0 (1 + 2) = Ok CellState.SUN)
    /\ ~ noRunOf g' CellState.SUN.
Proof.
  destruct (solvePuzzle lockedRunBoard6) as [[[sol|] g']| |] eqn:E;
    try (vm_compute in E; discriminate).
  exists sol, g'. split; [reflexivity|].
  apply (solvePuzzle_keeps_locked_run lockedRunBoard6 g' sol 0 1);
    [simpl; lia | simpl; lia | reflexivity | reflexivity | reflexivity | exact E].
Defined.

(** ** C7: structural validation *)




(** ** C2: edge constraints towards the four neighbours *)

(** C2, the code at the failing input.  On the board with SUN at [(0,0)]
    and an EQUAL edge between [(0,0)] and [(0,1)], the cell [(0,1)] is
    EMPTY, its left neighbour is filled and linked to it by the EQUAL edge,
    and [isValidPlacement] accepts MOON at [(0,1)]: [checkEdgeConstraints]
    reads the edge to the right of the cell only. *)
Theorem isValidPlacement_ignores_left_edge :
  contains equalEdgeBoard 0 1 = Ok CellState.EMPTY
  /\ contains equalEdgeBoard 0 0 = Ok CellState.SUN
  /\ state (horizontal (edges equalEdgeBoard)) 0 0 = Ok EdgeState.EQUAL
  /\ checkEdgeConstraints equalEdgeBoard 0 1 CellState.MOON = Ok false
  /\ isValidPlacement equalEdgeBoard 0 1 CellState.MOON = Ok true.
Proof. vm_compute. auto 10. Qed.

(** ** C8: the scenario of the EQUAL edge *)

(** C8, the code at the failing input.  On the 4 by 4 board with SUN at
    [(0,0)] and [horizontal[0][0] = EQUAL], [(0,1)] is the first cell of
    the heuristic order, MOON is tried first and accepted there, and the
    solution returned assigns MOON to [(0,1)]. *)
Theorem solvePuzzle_equal_edge_board :
  exists sol g',
    solvePuzzle equalEdgeBoard = Ok (Some sol, g')
    /\ head sol = Some (0, 1, CellState.MOON)
    /\ timesPlaced sol (0, 1) = 1
    /\ contains g' 0 0 = Ok CellState.SUN
    /\ contains g' 0 1 = Ok CellState.MOON.
Proof.
  destruct (solvePuzzle equalEdgeBoard) as [[[sol|] g']| |] eqn:E;
    try (vm_compute in E; discriminate).
  exists sol, g'. split; [reflexivity|].
  vm_compute in E. injection E as <- <-. vm_compute. auto.
Qed.

(** * Further properties of the code *)

(** ** The search is exhaustive *)

(** X1.  On a well-formed game state, [solvePuzzle] returns a solution
    exactly when some assignment of MOON and SUN to the EMPTY cells, taken
    in the heuristic order, has each placement accepted by
    [isValidPlacement] on the board as the earlier ones left it; it
    returns [null] only when there is none. *)
Theorem solvePuzzle_exhaustive (g : Solver) :
  wellFormed g = true ->
  exists cells,
    sortedEmptyCells g = Ok cells
    /\ ((exists sol g', solvePuzzle g = Ok (Some sol, g'))
        <-> (exists pl g', Placements g cells pl g'))
    /\ (solvePuzzle g = Ok (None, g)
        <-> (forall pl g', ~ Placements g cells pl g')).
Proof.
  intros Hwf.
  destruct (solvePuzzle_total g Hwf) as (cells & r & Hcells & _ & Hrun).
  exists cells. split; [done|].
  destruct r as [[] [g1 sol]]; simpl in Hrun.
  - pose proof (solvePuzzle_Ok _ _ _ Hrun) as (cells' & Hcells' & Hpl & _).
    assert (cells' = cells) as -> by congruence.
    split; split.
    + eauto.
    + eauto.
    + rewrite Hrun. discriminate.
    + intros Hnone. by apply Hnone in Hpl.
  - pose proof (solvePuzzle_Ok _ _ _ Hrun) as (cells' & Hcells' & -> & Hnone).
    assert (cells' = cells) as -> by congruence.
    split; split.
    + rewrite Hrun. intros (sol' & g' & [=]).
    + intros (pl & g' & Hpl). by apply Hnone in Hpl.
    + done.
    + done.
Qed.

Lemma solvePuzzle_exhaustive_witness :
  wellFormed lockedRunBoard4 = true
  /\ exists cells,
       sortedEmptyCells lockedRunBoard4 = Ok cells
       /\ ((exists sol g', solvePuzzle lockedRunBoard4 = Ok (Some sol, g'))
           <-> (exists pl g', Placements lockedRunBoard4 cells pl g'))
       /\ (solvePuzzle lockedRunBoard4 = Ok (None, lockedRunBoard4)
           <-> (forall pl g', ~ Placements lockedRunBoard4 cells pl g')).
Proof.
  split; [reflexivity|].
  apply (solvePuzzle_exhaustive lockedRunBoard4). reflexivity.
Defined.

(** ** A board without EMPTY cells *)

Lemma filter_isEmptyAt_nil (g : Solver) (l : list (nat * nat)) :
  (forall row col, (row, col) ∈ l -> contains g row col <> Ok CellState.EMPTY) ->
  List.filter (isEmptyAt g) l = [].
Proof.
  induction l as [|[row col] l IH]; intros H; simpl; [done|].
  assert (isEmptyAt g (row, col) = false) as ->.
  { apply holds_false. apply H. left. }
  apply IH. intros row' col' Hin. apply H. by right.
Qed.

(** X2.  When every cell of the board is filled, [solvePuzzle] returns the
    empty placement list as a solution and leaves the board as it is; it
    does not look at what the cells hold. *)
Theorem solvePuzzle_nothing_to_fill (g : Solver) :
  readable g ->
  (forall row col, row < BOARD_SIZE g -> col < BOARD_SIZE g ->
     contains g row col <> Ok CellState.EMPTY) ->
  solvePuzzle g = Ok (Some [], g).
Proof.
  intros Hread Hfull.
  destruct (findEmptyCells_total g Hread) as [l Hl].
  pose proof (findEmptyCells_Ok _ _ Hl) as [_ ->].
  rewrite filter_isEmptyAt_nil in Hl.
  2:{ intros row col [Hr Hc]%elem_of_allCoords. by apply Hfull. }
  unfold solvePuzzle, sortedEmptyCells. rewrite Hl. reflexivity.
Qed.

Lemma solvePuzzle_nothing_to_fill_witness :
  readable fullSunBoard
  /\ solvePuzzle fullSunBoard = Ok (Some [], fullSunBoard).
Proof.
  assert (Hread : readable fullSunBoard).
  { apply wellFormed_readable. reflexivity. }
  split; [exact Hread|].
  apply (solvePuzzle_nothing_to_fill fullSunBoard Hread).
  intros row col Hr Hc.
  unfold BOARD_SIZE, fullSunBoard in Hr, Hc.
  do 4 (destruct row as [|row]; [do 4 (destruct col as [|col]; [discriminate|]); lia|]).
  lia.
Defined.

(** ** The placement list describes the board *)

Lemma Placements_writePlacements (g g' : Solver) (cells : list (nat * nat))
    (pl : list (nat * nat * CellState.t)) :
  Placements g cells pl g' -> writePlacements pl g = Ok g'.
Proof.
  unfold writePlacements.
  induction 1 as [|g g1 g' row col symbol cells pl Hs Hv Hset Hpl IH]; [done|].
  simpl. rewrite Hset. done.
Qed.

(** X3.  The solution returned by [solvePuzzle] accounts for the whole
    change of the solver object: writing its placements, in order, into
    the input board gives the board the call leaves; the size and the
    edges are untouched, and every placement of the list is what the
    final board holds at its cell. *)
Theorem solvePuzzle_solution_replays (g g' : Solver) (sol : list (nat * nat * CellState.t)) :
  solvePuzzle g = Ok (Some sol, g') ->
  writePlacements sol g = Ok g'
  /\ BOARD_SIZE g' = BOARD_SIZE g
  /\ edges g' = edges g
  /\ (forall row col s, (row, col, s) ∈ sol -> contains g' row col = Ok s).
Proof.
  intros (cells & Hcells & Hpl & _)%solvePuzzle_Ok.
  apply sortedEmptyCells_spec in Hcells as (_ & _ & Hnodup & _).
  pose proof (Placements_frame _ _ _ _ Hpl) as (Hsize & Hedges & _).
  split; [by eapply Placements_writePlacements|].
  split; [done|]. split; [done|].
  by apply (Placements_written _ _ _ _ Hpl).
Qed.

Lemma solvePuzzle_solution_replays_witness :
  exists sol g',
    solvePuzzle (gameState 4) = Ok (Some sol, g')
    /\ writePlacements sol (gameState 4) = Ok g'.
Proof.
  destruct (solvePuzzle (gameState 4)) as [[[sol|] g']| |] eqn:E;
    try (vm_compute in E; discriminate).
  exists sol, g'. split; [reflexivity|].
  apply (solvePuzzle_solution_replays (gameState 4) g' sol E).
Defined.

(** ** Edge constraints: what is enforced and what is not *)

Lemma checkEdgeConstraints_false (g : Solver) (row col : nat) (symbol : CellState.t) :
  checkEdgeConstraints g row col symbol = Ok false ->
  forall e rightCell,
    col < EDGE_SIZE g ->
    state (horizontal (edges g)) row col = Ok e ->
    contains g row (col + 1) = Ok rightCell ->
    rightCell <> CellState.EMPTY ->
    (e = EdgeState.EQUAL -> rightCell = symbol)
    /\ (e = EdgeState.OPPOSITE -> rightCell <> symbol).
Proof.
  intros H e rightCell Hlt He Hc Hne.
  split.
  - intros ->. destruct (decide (rightCell = symbol)) as [|Hs]; [done|].
    destruct (checkEdgeConstraints_right g row col symbol EdgeState.EQUAL rightCell)
      as [Ht _]; auto. congruence.
  - intros -> ->.
    destruct (checkEdgeConstraints_right g row col symbol EdgeState.OPPOSITE symbol)
      as [Ht _]; auto. congruence.
Qed.

(** X4.  [isValidPlacement] enforces the edge to the right: when the
    right neighbour is filled and the edge between the two cells is EQUAL
    with a different symbol there, or OPPOSITE with the same symbol, the
    placement is not accepted. *)
Theorem isValidPlacement_right_edge (g : Solver) (row col : nat)
    (symbol : CellState.t) (e : EdgeState.t) (rightCell : CellState.t) :
  col < EDGE_SIZE g ->
  state (horizontal (edges g)) row col = Ok e ->
  contains g row (col + 1) = Ok rightCell ->
  rightCell <> CellState.EMPTY ->
  (e = EdgeState.EQUAL /\ rightCell <> symbol)
  \/ (e = EdgeState.OPPOSITE /\ rightCell = symbol) ->
  isValidPlacement g row col symbol <> Ok true.
Proof.
  intros Hlt He Hc Hne Hconflict.
  by apply (checkEdgeConstraints_right g row col symbol e rightCell).
Qed.

Lemma isValidPlacement_right_edge_witness :
  isValidPlacement
    (withCell 0 1 CellState.SUN (withHorizontal 0 0 EdgeState.EQUAL (gameState 4)))
    0 0 CellState.MOON <> Ok true.
Proof.
  apply (isValidPlacement_right_edge _ 0 0 CellState.MOON EdgeState.EQUAL CellState.SUN);
    [unfold EDGE_SIZE; simpl; lia | reflexivity | reflexivity | discriminate
    | left; split; [reflexivity | discriminate]].
Defined.

Lemma state_withHorizontal_other (g : Solver) (row col row' col' : nat) (e : EdgeState.t) :
  (row', col') <> (row, col) ->
  state (horizontal (edges (withHorizontal row col e g))) row' col'
  = state (horizontal (edges g)) row' col'.
Proof.
  intros Hne. unfold state, withHorizontal. simpl.
  destruct (decide (row' = row)) as [->|Hr].
  - rewrite list_lookup_alter_eq.
    destruct (horizontal (edges g) !! row) as [r|]; simpl; [|done].
    rewrite list_lookup_insert_ne by congruence. done.
  - by rewrite list_lookup_alter_ne.
Qed.

(** X5.  The verdict of [isValidPlacement] for a cell does not depend on
    the edge between that cell and its left neighbour: whatever is put in
    [edges.horizontal[row][col - 1]], the verdict for [(row,col)] is the
    same.  The edge to the left of a cell is never read when the cell is
    examined. *)
Theorem isValidPlacement_left_edge_irrelevant (g : Solver) (row col : nat)
    (symbol : CellState.t) (e : EdgeState.t) :
  0 < col ->
  isValidPlacement (withHorizontal row (col - 1) e g) row col symbol
  = isValidPlacement g row col symbol.
Proof.
  intros Hcol. unfold isValidPlacement.
  assert (Hedge : checkEdgeConstraints (withHorizontal row (col - 1) e g) row col symbol
                  = checkEdgeConstraints g row col symbol).
  { unfold checkEdgeConstraints.
    rewrite state_withHorizontal_other by (intros [= ?]; lia).
    reflexivity. }
  by rewrite Hedge.
Qed.

Lemma isValidPlacement_left_edge_irrelevant_witness :
  0 < 1
  /\ isValidPlacement
       (withHorizontal 0 (1 - 1) EdgeState.OPPOSITE (withCell 0 0 CellState.SUN (gameState 4)))
       0 1 CellState.SUN
     = isValidPlacement (withCell 0 0 CellState.SUN (gameState 4)) 0 1 CellState.SUN.
Proof.
  split; [lia|].
  apply (isValidPlacement_left_edge_irrelevant
           (withCell 0 0 CellState.SUN (gameState 4)) 0 1 CellState.SUN EdgeState.OPPOSITE).
  lia.
Defined.

(** ** Edges that a solution does satisfy *)

Lemma Placements_right_edge (g g' : Solver) (cells : list (nat * nat))
    (pl : list (nat * nat * CellState.t)) (row col : nat)
    (e : EdgeState.t) (b : CellState.t) :
  Placements g cells pl g' ->
  NoDup cells ->
  (row, col) ∈ cells -> (row, col + 1) ∉ cells ->
  col < EDGE_SIZE g ->
  state (horizontal (edges g)) row col = Ok e ->
  contains g row (col + 1) = Ok b -> b <> CellState.EMPTY ->
  exists a, contains g' row col = Ok a
            /\ contains g' row (col + 1) = Ok b
            /\ edgeSatisfied e a b.
Proof.
  induction 1 as [|g g1 g' r0 c0 symbol cells pl Hs Hv Hset Hpl IH];
    intros Hnodup Hin Hnotin Hlt He Hb Hne.
  - by apply elem_of_nil in Hin.
  - apply NoDup_cons in Hnodup as [Hnotin0 Hnodup].
    apply not_elem_of_cons in Hnotin as [Hne0 Hnotin].
    pose proof (setContains_Ok _ _ _ _ _ Hset) as (_ & Hhere & Hother & Hsize & Hedges).
    pose proof (Placements_frame _ _ _ _ Hpl) as (_ & _ & Hframe).
    apply elem_of_cons in Hin as [[= <- <-] | Hin].
    + exists symbol.
      split; [by rewrite Hframe|].
      split; [by rewrite Hframe, Hother|].
      apply isValidPlacement_true in Hv as (_ & _ & _ & Hedge).
      destruct (checkEdgeConstraints_false _ _ _ _ Hedge e b Hlt He Hb Hne) as [Heq Hopp].
      assert (symbol <> CellState.EMPTY) by (destruct Hs as [-> | ->]; done).
      destruct e; simpl; [done | |].
      * split; [done|]. symmetry. by apply Heq.
      * split; [done|]. split; [done|]. intros ->. by apply Hopp.
    + apply IH; try done.
      * unfold EDGE_SIZE in *. by rewrite Hsize.
      * by rewrite Hedges.
      * by rewrite Hother.
Qed.

Lemma Placements_app_inv (g g' : Solver) (cells1 cells2 : list (nat * nat))
    (pl : list (nat * nat * CellState.t)) :
  Placements g (cells1 ++ cells2) pl g' ->
  exists pl1 pl2 g1,
    pl = pl1 ++ pl2 /\ Placements g cells1 pl1 g1 /\ Placements g1 cells2 pl2 g'.
Proof.
  revert g pl. induction cells1 as [|[row col] cells1 IH]; intros g pl H; simpl in H.
  - exists [], pl, g. split; [done|]. split; [constructor | done].
  - apply Placements_cons_inv in H as (s & g1 & pl' & -> & Hs & Hv & Hset & Hpl).
    apply IH in Hpl as (pl1 & pl2 & g2 & -> & H1 & H2).
    exists ((row, col, s) :: pl1), pl2, g2. split; [done|].
    split; [by econstructor | done].
Qed.

(** X6.  In the board of a solution, a horizontal edge is satisfied
    whenever its left cell was EMPTY in the input and its right cell was
    filled first: filled in the input already, or placed earlier in the
    placement list.  (When the left cell is filled first, the edge is not
    examined.) *)
Theorem solvePuzzle_right_edges (g g' : Solver) (sol : list (nat * nat * CellState.t))
    (row col : nat) (e : EdgeState.t) :
  solvePuzzle g = Ok (Some sol, g') ->
  row < BOARD_SIZE g -> col < EDGE_SIZE g ->
  contains g row col = Ok CellState.EMPTY ->
  state (horizontal (edges g)) row col = Ok e ->
  contains g row (col + 1) <> Ok CellState.EMPTY
  \/ placedBefore sol (row, col + 1) (row, col) ->
  exists a b, contains g' row col = Ok a
              /\ contains g' row (col + 1) = Ok b
              /\ edgeSatisfied e a b.
Proof.
  intros H Hr Hc Hempty He Hfirst.
  apply solvePuzzle_Ok in H as (cells & Hcells & Hpl & _).
  apply sortedEmptyCells_spec in Hcells as (Hread & _ & Hnodup & Hin).
  assert (Hleft : (row, col) ∈ cells).
  { apply Hin. unfold EDGE_SIZE in Hc. split; [done|]. split; [lia | done]. }
  destruct Hfirst as [Hfilled | (l1 & l2 & l3 & sb & sa & Hsol)].
  - destruct (Hread row (col + 1)) as [b Hb]; [done | unfold EDGE_SIZE in Hc; lia |].
    assert (Hne : b <> CellState.EMPTY) by congruence.
    destruct (Placements_right_edge _ _ _ _ row col e b Hpl) as (a & Ha & Hb' & Hsat);
      try done.
    { intros (_ & _ & Hcontra)%Hin. congruence. }
    eauto.
  - pose proof (Placements_cells _ _ _ _ Hpl) as Hmap.
    rewrite Hsol in Hmap. rewrite map_app in Hmap. simpl in Hmap.
    rewrite <- Hmap in Hpl, Hnodup. rewrite Hsol in Hpl.
    apply Placements_app_inv in Hpl as (pl1 & pl2 & g1 & Heq & Hpl1 & Hpl2).
    apply Placements_cons_inv in Hpl2 as (s & g2 & pl' & -> & Hs & Hv & Hset & Hpl2).
    apply NoDup_app in Hnodup as (Hnd1 & Hdisj & Hnd2).
    apply NoDup_cons in Hnd2 as [Hnotin Hnd2].
    pose proof (Placements_frame _ _ _ _ Hpl1) as (Hsize1 & Hedges1 & _).
    pose proof (setContains_Ok _ _ _ _ _ Hset) as (_ & Hhere & _ & Hsize2 & Hedges2).
    assert (Hs' : s <> CellState.EMPTY) by (destruct Hs as [-> | ->]; done).
    destruct (Placements_right_edge _ _ _ _ row col e s Hpl2) as (a & Ha & Hb & Hsat);
      try done.
    + rewrite map_app. simpl. apply elem_of_app. right. left.
    + unfold EDGE_SIZE in *. by rewrite Hsize2, Hsize1.
    + by rewrite Hedges2, Hedges1.
    + eauto.
Qed.

Lemma solvePuzzle_right_edges_witness :
  exists sol g',
    solvePuzzle
      (withCell 0 1 CellState.SUN (withHorizontal 0 0 EdgeState.EQUAL (gameState 4)))
    = Ok (Some sol, g')
    /\ exists a b, contains g' 0 0 = Ok a
                   /\ contains g' 0 (0 + 1) = Ok b
                   /\ edgeSatisfied EdgeState.EQUAL a b.
Proof.
  destruct (solvePuzzle
              (withCell 0 1 CellState.SUN (withHorizontal 0 0 EdgeState.EQUAL (gameState 4))))
    as [[[sol|] g']| |] eqn:E; try (vm_compute in E; discriminate).
  exists sol, g'. split; [reflexivity|].
  apply (solvePuzzle_right_edges _ g' sol 0 0 EdgeState.EQUAL E);
    [simpl; lia | unfold EDGE_SIZE; simpl; lia | reflexivity | reflexivity
    | left; discriminate].
Defined.

(** ** Bounds of the three-in-a-row check *)

(** X7.  The guards of [checkThreeInRowHorizontal] keep its reads on the
    board: for every cell of a board whose cells can be read, corners and
    borders included, it raises nothing; and on a board of size at most 2
    it reads nothing and reports no run. *)
Theorem checkThreeInRowHorizontal_in_bounds (g : Solver) (row col : nat)
    (symbol : CellState.t) :
  col < BOARD_SIZE g ->
  (readable g -> row < BOARD_SIZE g ->
     exists b, checkThreeInRowHorizontal g row col symbol = Ok b)
  /\ (BOARD_SIZE g <= 2 -> checkThreeInRowHorizontal g row col symbol = Ok false).
Proof.
  intros Hc. split.
  - intros Hread Hr. by apply checkThreeInRowHorizontal_total.
  - intros Hsmall. unfold checkThreeInRowHorizontal.
    destruct (Nat.leb_spec 2 col); [lia|].
    destruct (Nat.leb_spec (col + 3) (BOARD_SIZE g)); [lia|].
    destruct (Nat.ltb_spec 0 col); [|done].
    destruct (Nat.ltb_spec col (BOARD_SIZE g - 1)); [lia | done].
Qed.

Lemma checkThreeInRowHorizontal_in_bounds_witness :
  3 < BOARD_SIZE (gameState 4)
  /\ (readable (gameState 4) -> 3 < BOARD_SIZE (gameState 4) ->
        exists b, checkThreeInRowHorizontal (gameState 4) 3 3 CellState.SUN = Ok b)
  /\ (BOARD_SIZE (gameState 4) <= 2 ->
        checkThreeInRowHorizontal (gameState 4) 3 3 CellState.SUN = Ok false).
Proof.
  split; [simpl; lia|].
  apply (checkThreeInRowHorizontal_in_bounds (gameState 4) 3 3 CellState.SUN).
  simpl. lia.
Defined.

(** ** The scan for EMPTY cells *)

(** X8.  The two loops that collect the EMPTY cells return exactly when
    every cell of the [BOARD_SIZE] by [BOARD_SIZE] square exists (a
    missing cell is a [TypeError]); what they return is the list of the
    EMPTY cells of that square, each one once, in row-major order. *)
Theorem findEmptyCells_scan (g : Solver) :
  (readable g <-> exists l, findEmptyCells g = Ok l)
  /\ (forall l, findEmptyCells g = Ok l ->
        StronglySorted rowMajorLt l
        /\ NoDup l
        /\ (forall row col, (row, col) ∈ l <->
              row < BOARD_SIZE g /\ col < BOARD_SIZE g
              /\ contains g row col = Ok CellState.EMPTY)).
Proof.
  split.
  - split; [apply findEmptyCells_total|].
    intros [l Hl]. by apply findEmptyCells_spec in Hl as (? & _).
  - intros l Hl. by apply findEmptyCells_spec in Hl as (_ & ? & ? & ?).
Qed.

Lemma findEmptyCells_scan_witness :
  exists l, findEmptyCells lockedRunBoard4 = Ok l
            /\ StronglySorted rowMajorLt l
            /\ NoDup l.
Proof.
  destruct (findEmptyCells lockedRunBoard4) as [l| |] eqn:E;
    try (vm_compute in E; discriminate).
  exists l. split; [reflexivity|].
  destruct (proj2 (findEmptyCells_scan lockedRunBoard4) l E) as (Hs & Hn & _).
  split; [exact Hs | exact Hn].
Defined.

(** ** Loops that write one slot per iteration *)

Lemma forEach_app {A S : Type} (body : A -> S -> result S) (l1 l2 : list A) (s : S) :
  forEach (l1 ++ l2) body s = let* s1 := forEach l1 body s in forEach l2 body s1.
Proof.
  revert s. induction l1 as [|x l1 IH]; intros s; simpl; [done|].
  destruct (body x s) as [s1| |]; simpl; [apply IH | done | done].
Qed.

Lemma forEach_map {A B S : Type} (f : A -> B) (body : B -> S -> result S)
    (l : list A) (s : S) :
  forEach (map f l) body s = forEach l (fun x => body (f x)) s.
Proof.
  revert s. induction l as [|x l IH]; intros s; simpl; [done|].
  destruct (body (f x) s) as [s1| |]; simpl; [apply IH | done | done].
Qed.

Lemma forEach_flat_map {A B S : Type} (f : A -> list B) (body : B -> S -> result S)
    (l : list A) (s : S) :
  forEach (flat_map f l) body s = forEach l (fun x s => forEach (f x) body s) s.
Proof.
  revert s. induction l as [|x l IH]; intros s; simpl; [done|].
  rewrite forEach_app.
  destruct (forEach (f x) body s) as [s1| |]; simpl; [apply IH | done | done].
Qed.

(** Two nested loops over the rows and the columns of the board are one
    loop over its coordinates in row-major order. *)
Lemma forEach_allCoords {S : Type} (n : nat) (body : nat -> nat -> S -> result S) (s : S) :
  forEach (seq 0 n) (fun row s => forEach (seq 0 n) (fun col s => body row col s) s) s
  = forEach (allCoords n) (fun rc s => body rc.1 rc.2 s) s.
Proof.
  unfold allCoords. rewrite forEach_flat_map.
  generalize (seq 0 n) at 1 3 as rows. intros rows. revert s.
  induction rows as [|row rows IH]; intros s; simpl; [done|].
  rewrite forEach_map. simpl.
  destruct (forEach (seq 0 n) _ s) as [s1| |]; simpl; [apply IH | done | done].
Qed.

Section forEach_slots.
Context {A S K V : Type}.
Context (key : A -> K) (slot : K -> S -> V).
Context (body : A -> S -> result S) (F : A -> V -> V) (I : S -> Prop).
Hypothesis Hinv : forall x s s', I s -> body x s = Ok s' -> I s'.
Hypothesis Hframe : forall x s s' k,
  I s -> body x s = Ok s' -> k <> key x -> slot k s' = slot k s.
Hypothesis Hown : forall x s s',
  I s -> body x s = Ok s' -> slot (key x) s' = F x (slot (key x) s).

(** A loop whose iterations keep [I] and write, each one, the slot of its
    own key only: at the end a slot holds what the iteration with that key
    made of its initial content, or its initial content if there was no
    such iteration. *)
Lemma forEach_slots (l : list A) :
  forall s s',
    I s -> NoDup (map key l) -> forEach l body s = Ok s' ->
    I s'
    /\ (forall k, k ∉ map key l -> slot k s' = slot k s)
    /\ (forall x, x ∈ l -> slot (key x) s' = F x (slot (key x) s)).
Proof using Hinv Hframe Hown.
  induction l as [|x l IH]; intros s s' HI Hnodup H; simpl in *.
  - injection H as <-. split; [done|]. split; [done|].
    intros x Hx. by apply elem_of_nil in Hx.
  - apply NoDup_cons in Hnodup as [Hnotin Hnodup].
    apply bind_Ok in H as (s1 & Hbody & Hrest).
    destruct (IH s1 s' (Hinv _ _ _ HI Hbody) Hnodup Hrest) as (HI' & Hout & Hin).
    split; [done|]. split.
    + intros k [Hne Hk]%not_elem_of_cons.
      rewrite Hout by done. by eapply Hframe.
    + intros y [-> | Hy]%elem_of_cons.
      * rewrite Hout by done. by apply Hown.
      * rewrite Hin by done. f_equal. eapply Hframe; [done | done |].
        intros Heq. apply Hnotin. rewrite <- Heq.
        apply list_elem_of_fmap. by exists y.
Qed.
End forEach_slots.

(** A loop that returns has run the body of each of its elements. *)
Lemma forEach_ran {A S : Type} (body : A -> S -> result S) (l : list A) :
  forall s s', forEach l body s = Ok s' ->
    forall x, x ∈ l -> exists s1 s2, body x s1 = Ok s2.
Proof.
  induction l as [|y l IH]; intros s s' H x Hx; simpl in H.
  - by apply elem_of_nil in Hx.
  - apply bind_Ok in H as (s1 & Hbody & Hrest).
    apply elem_of_cons in Hx as [-> | Hx]; [eauto | by eapply IH].
Qed.

(** A loop returns when each body returns on the states that satisfy an
    invariant which the bodies keep. *)
Lemma forEach_total {A S : Type} (body : A -> S -> result S) (I : S -> Prop)
    (l : list A) :
  (forall x s, x ∈ l -> I s -> exists s', body x s = Ok s' /\ I s') ->
  forall s, I s -> exists s', forEach l body s = Ok s' /\ I s'.
Proof.
  induction l as [|y l IH]; intros Hbody s HI; simpl; [eauto|].
  destruct (Hbody y s) as (s1 & -> & HI1); [left | done |]. simpl.
  apply IH; [|done]. intros x s0 Hx. apply Hbody. by right.
Qed.

(** ** Positions and indices of the cells of the page *)

(** X9.  The index that [inputSolution] computes for a cell and the
    position that [parseBoardState] computes for an index are inverse to
    each other on a board of positive size: [inputSolution] clicks the
    element that [parseBoardState] read the cell from. *)
Theorem cellIndex_cellPosition (n row col index : nat) :
  0 < n ->
  (col < n -> cellPosition n (cellIndex n row col) = (row, col))
  /\ cellIndex n (cellPosition n index).1 (cellPosition n index).2 = index.
Proof.
  intros Hn. unfold cellPosition, cellIndex. simpl. split.
  - intros Hcol. f_equal.
    + rewrite Nat.div_add_l by lia. rewrite Nat.div_small by done. lia.
    + rewrite Nat.add_comm, Nat.Div0.mod_add. by apply Nat.mod_small.
  - rewrite (Nat.div_mod_eq index n) at 3. lia.
Qed.

Lemma cellIndex_cellPosition_witness :
  0 < 6
  /\ (5 < 6 -> cellPosition 6 (cellIndex 6 2 5) = (2, 5))
  /\ cellIndex 6 (cellPosition 6 17).1 (cellPosition 6 17).2 = 17.
Proof.
  split; [lia|]. apply (cellIndex_cellPosition 6 2 5 17). lia.
Defined.

Lemma cellPosition_inj (n i j : nat) :
  cellPosition n i = cellPosition n j -> i = j.
Proof.
  unfold cellPosition. intros [= Hd Hm].
  rewrite (Nat.div_mod_eq i n), (Nat.div_mod_eq j n). by rewrite Hd, Hm.
Qed.

Lemma cellPosition_row (n i : nat) : i / n < n -> 0 < n /\ i mod n < n /\ i < n * n.
Proof.
  intros Hrow. assert (0 < n) by lia. split; [done|].
  pose proof (Nat.mod_upper_bound i n ltac:(lia)) as Hm. split; [done|].
  pose proof (Nat.div_mod_eq i n). nia.
Qed.

(** ** Laying out the cells of the page *)

Lemma entry_replicate {A : Type} (n row col : nat) (x : A) :
  row < n -> col < n -> entry (replicate n (replicate n x)) row col = Some x.
Proof.
  intros Hr Hc. unfold entry.
  rewrite lookup_replicate_2 by done. by rewrite lookup_replicate_2.
Qed.

Lemma assign2D_Ok {A : Type} (n : nat) (m m' : list (list A)) (row col : nat) (v : A) :
  hasShape n n m = true -> assign2D m row col v = Ok m' ->
  row < n
  /\ hasShape n n m' = true
  /\ (col < n -> entry m' row col = Some v)
  /\ (forall r c, (r, c) <> (row, col) -> entry m' r c = entry m r c).
Proof.
  unfold assign2D. intros Hshape H.
  destruct (m !! row) as [r|] eqn:Hr; [|done]. injection H as <-.
  pose proof (lookup_lt_Some _ _ _ Hr) as Hlt.
  pose proof Hshape as [Hlen Hall]%andb_prop. apply Nat.eqb_eq in Hlen.
  split; [lia|]. split; [by apply hasShape_insert|]. split.
  - intros Hc. unfold entry. rewrite list_lookup_insert_eq by done.
    apply list_lookup_insert_eq.
    rewrite forallb_forall in Hall.
    assert (Hin : In r m) by (apply list_elem_of_In; by eapply list_elem_of_lookup_2).
    apply Hall, Nat.eqb_eq in Hin. lia.
  - intros r0 c0 Hne. unfold entry.
    destruct (decide (r0 = row)) as [->|Hrr].
    + rewrite list_lookup_insert_eq by done. rewrite Hr.
      rewrite list_lookup_insert_ne by congruence. done.
    + by rewrite list_lookup_insert_ne.
Qed.

Lemma forEach_ran_inv {A S : Type} (body : A -> S -> result S) (I : S -> Prop)
    (l : list A) :
  (forall x s s', I s -> body x s = Ok s' -> I s') ->
  forall s s', I s -> forEach l body s = Ok s' ->
    forall x, x ∈ l -> exists s1 s2, I s1 /\ body x s1 = Ok s2.
Proof.
  intros Hinv. induction l as [|y l IH]; intros s s' HI H x Hx; simpl in H.
  - by apply elem_of_nil in Hx.
  - apply bind_Ok in H as (s1 & Hbody & Hrest).
    apply elem_of_cons in Hx as [-> | Hx]; [eauto|].
    eapply IH; [|done|done]. by eapply Hinv.
Qed.

Lemma zip_seq_lookup {A : Type} (l : list A) (i : nat) (x : A) :
  (i, x) ∈ zip (seq 0 (length l)) l <-> l !! i = Some x.
Proof.
  rewrite list_elem_of_lookup. split.
  - intros (k & Hk). apply lookup_zip_with_Some in Hk as (a & b & [= <- <-] & Ha & Hb).
    apply lookup_seq in Ha as [-> _]. done.
  - intros Hx. exists i. apply lookup_zip_with_Some. exists i, x. split; [done|].
    split; [|done]. apply lookup_seq. split; [done|]. by eapply lookup_lt_Some.
Qed.

Lemma fst_zip_seq {A : Type} (l : list A) :
  map fst (zip (seq 0 (length l)) l) = seq 0 (length l).
Proof. apply fst_zip. by rewrite length_seq. Qed.

(** The layout returns only for at most [n * n] cells, and then the cell
    at [(row,col)] of the matrix is the cell of index [row * n + col] of
    the page, [null] if the page has no such cell. *)
Lemma layoutCells_Ok (n : nat) (cells : list LotkaCell)
    (m : list (list (option LotkaCell))) :
  layoutCells n cells = Ok m ->
  length cells <= n * n
  /\ (forall row col, row < n -> col < n ->
        entry m row col = Some (cells !! cellIndex n row col)).
Proof.
  unfold layoutCells. intros H.
  set (body := fun (ic : nat * LotkaCell) (cells2D : list (list (option LotkaCell))) =>
                 assign2D cells2D (cellPosition n ic.1).1 (cellPosition n ic.1).2
                   (Some ic.2)) in *.
  set (I := fun m : list (list (option LotkaCell)) => hasShape n n m = true).
  assert (HI0 : I (replicate n (replicate n None))).
  { unfold I, hasShape. rewrite length_replicate, Nat.eqb_refl. simpl.
    apply forallb_forall. intros r Hr%list_elem_of_In%elem_of_replicate.
    destruct Hr as [-> _]. rewrite length_replicate. apply Nat.eqb_refl. }
  assert (Hinv : forall x s s', I s -> body x s = Ok s' -> I s').
  { intros x s s' HI Hb. by apply (assign2D_Ok n) in Hb as (_ & ? & _). }
  assert (Hnodup : NoDup (map (fun ic : nat * LotkaCell => cellPosition n ic.1)
                            (zip (seq 0 (length cells)) cells))).
  { rewrite <- (map_map fst (cellPosition n)), fst_zip_seq.
    apply NoDup_fmap_2_strong; [|apply NoDup_seq].
    intros i j _ _. apply cellPosition_inj. }
  destruct (forEach_slots (fun ic : nat * LotkaCell => cellPosition n ic.1)
              (fun k m => entry m k.1 k.2) body
              (fun ic _ => Some (Some ic.2)) I Hinv) with
    (l := zip (seq 0 (length cells)) cells)
    (s := replicate n (replicate n (@None LotkaCell))) (s' := m)
    as (_ & Hout & Hin); try done.
  { intros x s s' k HI Hb Hne. apply (assign2D_Ok n) in Hb as (_ & _ & _ & Hother); [|done].
    apply Hother. intros Heq. apply Hne. destruct k as [k1 k2]. simpl in Heq.
    injection Heq as -> ->. reflexivity. }
  { intros x s s' HI Hb. apply (assign2D_Ok n) in Hb as (Hrow & _ & Hhere & _); [|done].
    apply Hhere. by apply cellPosition_row in Hrow as (_ & ? & _). }
  assert (Hbound : forall i x, cells !! i = Some x -> i < n * n).
  { intros i x Hx. apply zip_seq_lookup in Hx.
    destruct (forEach_ran_inv body I _ Hinv _ _ HI0 H _ Hx) as (s1 & s2 & HI1 & Hb).
    apply (assign2D_Ok n) in Hb as (Hrow & _); [|done].
    by apply cellPosition_row in Hrow as (_ & _ & ?). }
  split.
  - destruct (decide (length cells = 0)) as [->|Hne]; [lia|].
    destruct (lookup_lt_is_Some_2 cells (length cells - 1)) as [x Hx]; [lia|].
    apply Hbound in Hx. lia.
  - intros row col Hr Hc.
    destruct (cells !! cellIndex n row col) as [cell|] eqn:Hcell.
    + apply zip_seq_lookup in Hcell. specialize (Hin _ Hcell).
      cbv beta in Hin. cbn [fst snd] in Hin.
      destruct (cellIndex_cellPosition n row col 0 ltac:(lia)) as [Hpos _].
      rewrite (Hpos Hc) in Hin. done.
    + pose proof (Hout (row, col)) as Ho. cbv beta in Ho. cbn [fst snd] in Ho.
      rewrite Ho; [by apply entry_replicate|].
      intros Hk. apply list_elem_of_fmap in Hk as ([i x] & Hpos & Hix).
      apply zip_seq_lookup in Hix. cbn [fst snd] in Hpos.
      destruct (cellIndex_cellPosition n row col 0 ltac:(lia)) as [Hrt _].
      rewrite <- (Hrt Hc) in Hpos. apply cellPosition_inj in Hpos. congruence.
Qed.

Lemma layoutCells_total (n : nat) (cells : list LotkaCell) :
  length cells <= n * n -> exists m, layoutCells n cells = Ok m.
Proof.
  intros Hlen. unfold layoutCells.
  destruct (forEach_total
              (fun (ic : nat * LotkaCell) (cells2D : list (list (option LotkaCell))) =>
                 assign2D cells2D (cellPosition n ic.1).1 (cellPosition n ic.1).2
                   (Some ic.2))
              (fun m => length m = n)
              (zip (seq 0 (length cells)) cells)) with
    (s := replicate n (replicate n (@None LotkaCell))) as (m & Hm & _).
  - intros [i x] s Hx Hs. apply zip_seq_lookup, lookup_lt_Some in Hx.
    unfold assign2D, cellPosition. simpl.
    assert (Hrow : i / n < n) by (apply Nat.Div0.div_lt_upper_bound; lia).
    destruct (lookup_lt_is_Some_2 s (i / n)) as [r ->]; [lia|].
    eexists. split; [done|]. by rewrite length_insert.
  - apply length_replicate.
  - eauto.
Qed.

(** ** Parsing one cell of the page *)

Lemma setState_Ok (m m' : list (list EdgeState.t)) (row col : nat) (e : EdgeState.t) :
  setState m row col e = Ok m' ->
  (exists old, state m row col = Ok old)
  /\ state m' row col = Ok e
  /\ (forall r c, (r, c) <> (row, col) -> state m' r c = state m r c)
  /\ (forall rows cols, hasShape rows cols m = true -> hasShape rows cols m' = true).
Proof.
  unfold setState, state.
  destruct (m !! row) as [r|] eqn:Hr; [|discriminate].
  destruct (r !! col) as [old|] eqn:Hc; [|discriminate].
  intros [= <-].
  assert (Hlr : row < length m) by (by eapply lookup_lt_Some).
  assert (Hlc : col < length r) by (by eapply lookup_lt_Some).
  split; [eauto|]. split; [|split].
  - rewrite list_lookup_insert_eq by done. by rewrite list_lookup_insert_eq.
  - intros r' c' Hne.
    destruct (decide (r' = row)) as [->|Hrr].
    + rewrite list_lookup_insert_eq by done. rewrite Hr.
      rewrite list_lookup_insert_ne by congruence. done.
    + by rewrite list_lookup_insert_ne.
  - intros rows cols Hshape. by apply hasShape_insert.
Qed.

Lemma setState_total (m : list (list EdgeState.t)) (row col : nat) (e old : EdgeState.t) :
  state m row col = Ok old -> exists m', setState m row col e = Ok m'.
Proof.
  unfold setState, state.
  destruct (m !! row) as [r|]; [|discriminate].
  destruct (r !! col); [|discriminate]. eauto.
Qed.

Lemma mapResult_Ok {A B : Type} (f : A -> B) (m : result A) (a : A) :
  m = Ok a -> mapResult f m = Ok (f a).
Proof. by intros ->. Qed.

(** What [parseConstraintEdges] does: the size and the board are
    untouched; the two edges of the position are parsed from the edge
    elements of the cell, within [EDGE_SIZE]; no other edge changes. *)
Lemma parseConstraintEdges_Ok (cell : LotkaCell) (row col : nat) (st st' : Solver) :
  parseConstraintEdges cell row col st = Ok st' ->
  BOARD_SIZE st' = BOARD_SIZE st
  /\ board st' = board st
  /\ state (horizontal (edges st')) row col
     = (if col <? EDGE_SIZE st
        then mapResult (parsedEdge (rightEdge cell)) (state (horizontal (edges st)) row col)
        else state (horizontal (edges st)) row col)
  /\ state (vertical (edges st')) row col
     = (if row <? EDGE_SIZE st
        then mapResult (parsedEdge (downEdge cell)) (state (vertical (edges st)) row col)
        else state (vertical (edges st)) row col)
  /\ (forall r c, (r, c) <> (row, col) ->
        state (horizontal (edges st')) r c = state (horizontal (edges st)) r c
        /\ state (vertical (edges st')) r c = state (vertical (edges st)) r c)
  /\ (wellFormed st = true -> wellFormed st' = true).
Proof.
  unfold parseConstraintEdges. intros H.
  apply bind_Ok in H as (st1 & H1 & H2).
  assert (Hright : BOARD_SIZE st1 = BOARD_SIZE st
    /\ board st1 = board st
    /\ vertical (edges st1) = vertical (edges st)
    /\ state (horizontal (edges st1)) row col
       = (if col <? EDGE_SIZE st
          then mapResult (parsedEdge (rightEdge cell)) (state (horizontal (edges st)) row col)
          else state (horizontal (edges st)) row col)
    /\ (forall r c, (r, c) <> (row, col) ->
          state (horizontal (edges st1)) r c = state (horizontal (edges st)) r c)
    /\ (wellFormed st = true -> wellFormed st1 = true)).
  { destruct (rightEdge cell) as [| |label]; simpl.
    - injection H1 as <-. repeat (split; [done|]).
      split; [|done]. destruct (col <? EDGE_SIZE st); [|done].
      by destruct (state (horizontal (edges st)) row col).
    - injection H1 as <-. repeat (split; [done|]).
      split; [|done]. destruct (col <? EDGE_SIZE st); [|done].
      by destruct (state (horizontal (edges st)) row col).
    - destruct (col <? EDGE_SIZE st); [|injection H1 as <-; done].
      apply bind_Ok in H1 as (h & Hh & [= <-]). simpl.
      apply setState_Ok in Hh as ([old Hold] & Hhere & Hother & Hshape).
      repeat (split; [done|]). split; [by rewrite Hold|]. split; [done|].
      unfold wellFormed, EDGE_SIZE. simpl.
      intros [[Hb Hhs]%andb_prop Hv]%andb_prop.
      by rewrite Hb, Hv, (Hshape _ _ Hhs). }
  destruct Hright as (Hsize1 & Hboard1 & Hvert1 & Hh1 & Hother1 & Hwf1).
  assert (HE : EDGE_SIZE st1 = EDGE_SIZE st) by (unfold EDGE_SIZE; by rewrite Hsize1).
  rewrite HE in H2.
  destruct (downEdge cell) as [| |label]; simpl.
  - injection H2 as <-. repeat (split; [done|]). rewrite Hvert1.
    split; [|split; [|done]].
    + destruct (row <? EDGE_SIZE st); [|done].
      by destruct (state (vertical (edges st)) row col).
    + intros r c Hne. split; [by apply Hother1 | done].
  - injection H2 as <-. repeat (split; [done|]). rewrite Hvert1.
    split; [|split; [|done]].
    + destruct (row <? EDGE_SIZE st); [|done].
      by destruct (state (vertical (edges st)) row col).
    + intros r c Hne. split; [by apply Hother1 | done].
  - destruct (row <? EDGE_SIZE st).
    2:{ injection H2 as <-. repeat (split; [done|]). rewrite Hvert1.
        split; [done|]. split; [|done].
        intros r c Hne. split; [by apply Hother1 | done]. }
    apply bind_Ok in H2 as (v & Hv & [= <-]). simpl.
    apply setState_Ok in Hv as ([old Hold] & Hhere & Hother & Hshape).
    rewrite Hvert1 in *.
    repeat (split; [done|]). split; [by rewrite Hold|]. split.
    + intros r c Hne. split; [by apply Hother1 | by apply Hother].
    + intros Hwf. specialize (Hwf1 Hwf). revert Hwf1.
      unfold wellFormed, EDGE_SIZE. simpl. rewrite Hsize1.
      intros [[Hb Hhs]%andb_prop Hvs]%andb_prop.
      rewrite Hvert1 in Hvs.
      by rewrite Hb, Hhs, (Hshape _ _ Hvs).
Qed.

Lemma parseCell_Ok (cells2D : list (list (option LotkaCell))) (row col : nat)
    (st st' : Solver) :
  parseCell cells2D row col st = Ok st' ->
  exists cell,
    entry cells2D row col = Some (Some cell)
    /\ BOARD_SIZE st' = BOARD_SIZE st
    /\ contains st' row col = mapResult (parsedContent cell) (contains st row col)
    /\ state (horizontal (edges st')) row col
       = (if col <? EDGE_SIZE st
          then mapResult (parsedEdge (rightEdge cell)) (state (horizontal (edges st)) row col)
          else state (horizontal (edges st)) row col)
    /\ state (vertical (edges st')) row col
       = (if row <? EDGE_SIZE st
          then mapResult (parsedEdge (downEdge cell)) (state (vertical (edges st)) row col)
          else state (vertical (edges st)) row col)
    /\ (forall r c, (r, c) <> (row, col) ->
          contains st' r c = contains st r c
          /\ state (horizontal (edges st')) r c = state (horizontal (edges st)) r c
          /\ state (vertical (edges st')) r c = state (vertical (edges st)) r c)
    /\ (wellFormed st = true -> wellFormed st' = true).
Proof.
  unfold parseCell, entry. intros H.
  destruct (cells2D !! row) as [line|]; [|done].
  destruct (line !! col) as [[cell|]|]; [|done|done].
  exists cell. split; [done|].
  apply bind_Ok in H as (st1 & H1 & H2).
  assert (Hcontent : BOARD_SIZE st1 = BOARD_SIZE st
    /\ edges st1 = edges st
    /\ contains st1 row col = mapResult (parsedContent cell) (contains st row col)
    /\ (forall r c, (r, c) <> (row, col) -> contains st1 r c = contains st r c)
    /\ (wellFormed st = true -> wellFormed st1 = true)).
  { unfold parsedContent.
    assert (Hwrite : forall v, setContains st row col v = Ok st1 ->
      BOARD_SIZE st1 = BOARD_SIZE st
      /\ edges st1 = edges st
      /\ contains st1 row col = mapResult (fun _ => v) (contains st row col)
      /\ (forall r c, (r, c) <> (row, col) -> contains st1 r c = contains st r c)
      /\ (wellFormed st = true -> wellFormed st1 = true)).
    { intros v Hset.
      pose proof (setContains_Ok _ _ _ _ _ Hset) as ([old Hold] & Hhere & Hother & Hs & He).
      repeat (split; [done|]). split; [by rewrite Hold|]. split; [done|].
      intros Hwf. by eapply wellFormed_setContains. }
    destruct (emptyMarker cell); [by apply Hwrite|].
    destruct (moonById cell || moonByLabel cell); [by apply Hwrite|].
    destruct (sunById cell || sunByLabel cell); [by apply Hwrite|].
    injection H1 as <-. repeat (split; [done|]). split; [|done].
    by destruct (contains st row col). }
  destruct Hcontent as (Hsize1 & Hedges1 & Hhere1 & Hother1 & Hwf1).
  apply parseConstraintEdges_Ok in H2 as (Hsize2 & Hboard2 & Hh & Hv & Hother2 & Hwf2).
  assert (HE : EDGE_SIZE st1 = EDGE_SIZE st) by (unfold EDGE_SIZE; by rewrite Hsize1).
  assert (Hc : forall r c, contains st' r c = contains st1 r c).
  { intros r c. unfold contains. by rewrite Hboard2. }
  rewrite HE, Hedges1 in Hh, Hv.
  split; [congruence|]. split; [by rewrite Hc|]. split; [done|]. split; [done|].
  split; [|auto].
  intros r c Hne. destruct (Hother2 r c Hne) as [Hh' Hv'].
  rewrite Hc, Hh', Hv', Hedges1. split; [by apply Hother1 | done].
Qed.

Lemma parseConstraintEdges_total (cell : LotkaCell) (row col : nat) (st : Solver) :
  wellFormed st = true -> row < BOARD_SIZE st -> col < BOARD_SIZE st ->
  exists st', parseConstraintEdges cell row col st = Ok st'.
Proof.
  intros Hwf Hr Hc. unfold parseConstraintEdges.
  assert (exists st1,
    match rightEdge cell with
    | EdgeSvg label =>
        if col <? EDGE_SIZE st then
          let* h := setState (horizontal (edges st)) row col (edgeOfLabel label) in
          Ok (mkSolver (BOARD_SIZE st) (board st) (mkEdges h (vertical (edges st))))
        else Ok st
    | _ => Ok st
    end = Ok st1
    /\ wellFormed st1 = true /\ BOARD_SIZE st1 = BOARD_SIZE st) as (st1 & H1 & Hwf1 & Hs1).
  { destruct (rightEdge cell) as [| |label]; [eauto | eauto |].
    destruct (Nat.ltb_spec col (EDGE_SIZE st)) as [Hlt|]; [|eauto].
    destruct (wellFormed_horizontal st row col Hwf Hr Hlt) as [old Hold].
    destruct (setState_total _ row col (edgeOfLabel label) old Hold) as [h Hh].
    rewrite Hh. cbn [bind]. eexists. split; [done|]. split; [|done].
    apply setState_Ok in Hh as (_ & _ & _ & Hshape).
    revert Hwf. unfold wellFormed, EDGE_SIZE. simpl.
    intros [[Hb Hhs]%andb_prop Hv]%andb_prop.
    by rewrite Hb, Hv, (Hshape _ _ Hhs). }
  rewrite H1. cbn [bind].
  destruct (downEdge cell) as [| |label]; [eauto | eauto |].
  assert (HE : EDGE_SIZE st1 = EDGE_SIZE st) by (unfold EDGE_SIZE; by rewrite Hs1).
  destruct (Nat.ltb_spec row (EDGE_SIZE st1)) as [Hlt|]; [|eauto].
  destruct (wellFormed_vertical st1 row col Hwf1 Hlt) as [old Hold]; [lia|].
  destruct (setState_total _ row col (edgeOfLabel label) old Hold) as [v Hv].
  rewrite Hv. cbn [bind]. eauto.
Qed.

Lemma parseCell_total (cells2D : list (list (option LotkaCell))) (row col : nat)
    (st : Solver) (cell : LotkaCell) :
  wellFormed st = true -> row < BOARD_SIZE st -> col < BOARD_SIZE st ->
  entry cells2D row col = Some (Some cell) ->
  exists st', parseCell cells2D row col st = Ok st'.
Proof.
  intros Hwf Hr Hc Hentry. unfold parseCell. unfold entry in Hentry.
  destruct (cells2D !! row) as [r|]; [|done]. rewrite Hentry.
  destruct (wellFormed_readable _ Hwf row col Hr Hc) as [old Hold].
  assert (Hwrite : forall v, exists st1, setContains st row col v = Ok st1
            /\ wellFormed st1 = true /\ BOARD_SIZE st1 = BOARD_SIZE st).
  { intros v. destruct (setContains_total st row col old v Hold) as [st1 Hset].
    exists st1. split; [done|]. split; [by eapply wellFormed_setContains|].
    by apply setContains_Ok in Hset as (_ & _ & _ & ? & _). }
  assert (exists st1,
    (if emptyMarker cell then setContains st row col CellState.EMPTY
     else if moonById cell || moonByLabel cell then setContains st row col CellState.MOON
     else if sunById cell || sunByLabel cell then setContains st row col CellState.SUN
     else Ok st) = Ok st1
    /\ wellFormed st1 = true /\ BOARD_SIZE st1 = BOARD_SIZE st) as (st1 & -> & Hwf1 & Hs1).
  { destruct (emptyMarker cell); [apply Hwrite|].
    destruct (moonById cell || moonByLabel cell); [apply Hwrite|].
    destruct (sunById cell || sunByLabel cell); [apply Hwrite | eauto]. }
  cbn [bind]. apply parseConstraintEdges_total; [done | lia | lia].
Qed.

(** ** Parsing the board *)

Lemma cellIndex_lt (n row col : nat) : row < n -> col < n -> cellIndex n row col < n * n.
Proof. unfold cellIndex. nia. Qed.

Lemma parseBoardState_cells (cells : list LotkaCell) (st st' : Solver) :
  parseBoardState cells st = Ok st' ->
  length cells = BOARD_SIZE st * BOARD_SIZE st
  /\ BOARD_SIZE st' = BOARD_SIZE st
  /\ (wellFormed st = true -> wellFormed st' = true)
  /\ (forall row col, row < BOARD_SIZE st -> col < BOARD_SIZE st ->
        exists cell,
          cells !! cellIndex (BOARD_SIZE st) row col = Some cell
          /\ contains st' row col = mapResult (parsedContent cell) (contains st row col)
          /\ state (horizontal (edges st')) row col
             = (if col <? EDGE_SIZE st
                then mapResult (parsedEdge (rightEdge cell))
                       (state (horizontal (edges st)) row col)
                else state (horizontal (edges st)) row col)
          /\ state (vertical (edges st')) row col
             = (if row <? EDGE_SIZE st
                then mapResult (parsedEdge (downEdge cell))
                       (state (vertical (edges st)) row col)
                else state (vertical (edges st)) row col)).
Proof.
  unfold parseBoardState. intros H.
  apply bind_Ok in H as (cells2D & Hlayout & Hloop).
  apply layoutCells_Ok in Hlayout as [Hlen Hentry].
  rewrite forEach_allCoords in Hloop.
  set (n := BOARD_SIZE st) in *.
  set (body := fun (rc : nat * nat) (s : Solver) => parseCell cells2D rc.1 rc.2 s) in *.
  set (I := fun s : Solver =>
              BOARD_SIZE s = n /\ (wellFormed st = true -> wellFormed s = true)).
  set (slot := fun (k : nat * nat) (s : Solver) =>
                 (contains s k.1 k.2,
                  state (horizontal (edges s)) k.1 k.2,
                  state (vertical (edges s)) k.1 k.2)).
  set (F := fun (rc : nat * nat)
                (v : result CellState.t * result EdgeState.t * result EdgeState.t) =>
              match entry cells2D rc.1 rc.2 with
              | Some (Some cell) =>
                  (mapResult (parsedContent cell) v.1.1,
                   (if rc.2 <? n - 1
                    then mapResult (parsedEdge (rightEdge cell)) v.1.2 else v.1.2),
                   (if rc.1 <? n - 1
                    then mapResult (parsedEdge (downEdge cell)) v.2 else v.2))
              | _ => v
              end).
  assert (HI0 : I st) by done.
  assert (Hinv : forall x s s', I s -> body x s = Ok s' -> I s').
  { intros x s s' [Hs Hw] Hb.
    apply parseCell_Ok in Hb as (cell & _ & Hsize & _ & _ & _ & _ & Hwf).
    split; [congruence | auto]. }
  destruct (forEach_slots (fun rc : nat * nat => rc) slot body F I Hinv)
    with (l := allCoords n) (s := st) (s' := st') as ([Hsize Hwf] & _ & Hin); try done.
  { intros x s s' k [Hs Hw] Hb Hne.
    apply parseCell_Ok in Hb as (cell & _ & _ & _ & _ & _ & Hother & _).
    destruct (Hother k.1 k.2) as (Hc & Hh & Hv).
    { intros Heq. apply Hne. destruct k, x. simpl in *. congruence. }
    unfold slot. by rewrite Hc, Hh, Hv. }
  { intros x s s' [Hs Hw] Hb.
    apply parseCell_Ok in Hb as (cell & Hcell & _ & Hc & Hh & Hv & _).
    unfold slot, F. rewrite Hcell. cbn [fst snd].
    unfold EDGE_SIZE in Hh, Hv. rewrite Hs in Hh, Hv. by rewrite Hc, Hh, Hv. }
  { rewrite map_id. eapply StronglySorted_NoDup;
      [apply rowMajorLt_irrefl | apply StronglySorted_allCoords]. }
  assert (Hcellof : forall row col, row < n -> col < n ->
            exists cell, cells !! cellIndex n row col = Some cell
                         /\ entry cells2D row col = Some (Some cell)).
  { intros row col Hr Hc.
    assert (Hrc : (row, col) ∈ allCoords n) by (by apply elem_of_allCoords).
    destruct (forEach_ran body _ _ _ Hloop _ Hrc) as (s1 & s2 & Hb).
    apply parseCell_Ok in Hb as (cell & Hcell & _). cbn [fst snd] in Hcell.
    exists cell. split; [|done].
    rewrite (Hentry row col Hr Hc) in Hcell. congruence. }
  split.
  { destruct (decide (n = 0)) as [Hz|Hnz]; [rewrite Hz in *; simpl in *; lia|].
    destruct (Hcellof (n - 1) (n - 1)) as (cell & Hcell & _); [lia | lia |].
    apply lookup_lt_Some in Hcell. unfold cellIndex in Hcell. nia. }
  split; [done|]. split; [done|].
  intros row col Hr Hc.
  destruct (Hcellof row col Hr Hc) as (cell & Hcell & Hentry').
  exists cell. split; [done|].
  assert (Hrc : (row, col) ∈ allCoords n) by (by apply elem_of_allCoords).
  specialize (Hin _ Hrc). unfold slot, F in Hin. cbn [fst snd] in Hin.
  rewrite Hentry' in Hin. cbn [fst snd] in Hin.
  injection Hin as Hc' Hh' Hv'. unfold EDGE_SIZE. fold n. done.
Qed.

Lemma parseBoardState_total (cells : list LotkaCell) (st : Solver) :
  wellFormed st = true ->
  length cells = BOARD_SIZE st * BOARD_SIZE st ->
  exists st', parseBoardState cells st = Ok st'.
Proof.
  intros Hwf Hlen. unfold parseBoardState.
  destruct (layoutCells_total (BOARD_SIZE st) cells) as [cells2D Hlayout]; [lia|].
  rewrite Hlayout. cbn [bind].
  pose proof (layoutCells_Ok _ _ _ Hlayout) as [_ Hentry].
  rewrite forEach_allCoords.
  destruct (forEach_total
              (fun (rc : nat * nat) (s : Solver) => parseCell cells2D rc.1 rc.2 s)
              (fun s => wellFormed s = true /\ BOARD_SIZE s = BOARD_SIZE st)
              (allCoords (BOARD_SIZE st))) with (s := st) as (st' & Hst' & _);
    [|done|eauto].
  intros [row col] s [Hr Hc]%elem_of_allCoords [Hwfs Hsize]. cbn [fst snd].
  destruct (lookup_lt_is_Some_2 cells (cellIndex (BOARD_SIZE st) row col)) as [cell Hcell].
  { rewrite Hlen. by apply cellIndex_lt. }
  destruct (parseCell_total cells2D row col s cell) as [s' Hs']; try done; try lia.
  { by rewrite (Hentry row col Hr Hc), Hcell. }
  exists s'. split; [done|].
  apply parseCell_Ok in Hs' as (_ & _ & Hsize' & _ & _ & _ & _ & Hwf').
  split; [auto | congruence].
Qed.

(** X10.  With a well-formed [state], [parseBoardState] returns exactly
    when the page has [BOARD_SIZE * BOARD_SIZE] cells: with fewer cells a
    position of the layout stays [null] and reading it throws, with more
    cells the layout writes beyond its last row.  The state it returns is
    well-formed, with the same size. *)
Theorem parseBoardState_returns (cells : list LotkaCell) (st : Solver) :
  wellFormed st = true ->
  ((exists st', parseBoardState cells st = Ok st')
   <-> length cells = BOARD_SIZE st * BOARD_SIZE st)
  /\ (forall st', parseBoardState cells st = Ok st' ->
        wellFormed st' = true /\ BOARD_SIZE st' = BOARD_SIZE st).
Proof.
  intros Hwf. split.
  - split.
    + intros [st' H]. by apply parseBoardState_cells in H as (? & _).
    + by apply parseBoardState_total.
  - intros st' H. apply parseBoardState_cells in H as (_ & ? & Hwf' & _). auto.
Qed.

Lemma parseBoardState_returns_witness :
  wellFormed (gameState 2) = true
  /\ ((exists st', parseBoardState samplePage (gameState 2) = Ok st')
      <-> length samplePage = BOARD_SIZE (gameState 2) * BOARD_SIZE (gameState 2))
  /\ (forall st', parseBoardState samplePage (gameState 2) = Ok st' ->
        wellFormed st' = true /\ BOARD_SIZE st' = BOARD_SIZE (gameState 2)).
Proof.
  split; [reflexivity|].
  apply (parseBoardState_returns samplePage (gameState 2)). reflexivity.
Defined.

(** X11.  In the state that [parseBoardState] returns, the cell at
    [(row,col)] is parsed from the page cell of index
    [row * BOARD_SIZE + col] and from nothing else: it holds EMPTY, MOON or
    SUN as the content of that page cell says, and what [state] held there
    when the page cell shows none of them; the edge to its right and the
    edge below are EQUAL or OPPOSITE by the label of the edge element of
    that page cell (OPPOSITE for the label [Cross], EQUAL for any other),
    and as they were in [state] when the page cell has no such element or
    when the cell is in the last column (the last row). *)
Theorem parseBoardState_reads_each_cell (cells : list LotkaCell) (st st' : Solver)
    (row col : nat) :
  parseBoardState cells st = Ok st' ->
  row < BOARD_SIZE st -> col < BOARD_SIZE st ->
  exists cell,
    cells !! cellIndex (BOARD_SIZE st) row col = Some cell
    /\ contains st' row col = mapResult (parsedContent cell) (contains st row col)
    /\ state (horizontal (edges st')) row col
       = (if col <? EDGE_SIZE st
          then mapResult (parsedEdge (rightEdge cell))
                 (state (horizontal (edges st)) row col)
          else state (horizontal (edges st)) row col)
    /\ state (vertical (edges st')) row col
       = (if row <? EDGE_SIZE st
          then mapResult (parsedEdge (downEdge cell))
                 (state (vertical (edges st)) row col)
          else state (vertical (edges st)) row col).
Proof.
  intros H Hr Hc. apply parseBoardState_cells in H as (_ & _ & _ & Hcells). auto.
Qed.

Lemma parseBoardState_reads_each_cell_witness :
  exists st' cell,
    parseBoardState samplePage (gameState 2) = Ok st'
    /\ samplePage !! cellIndex (BOARD_SIZE (gameState 2)) 0 0 = Some cell
    /\ contains st' 0 0
       = mapResult (parsedContent cell) (contains (gameState 2) 0 0).
Proof.
  destruct (parseBoardState samplePage (gameState 2)) as [st'| |] eqn:E;
    try (vm_compute in E; discriminate).
  destruct (parseBoardState_reads_each_cell samplePage (gameState 2) st' 0 0 E)
    as (cell & Hcell & Hc & _); [simpl; lia | simpl; lia |].
  exists st', cell. split; [reflexivity|]. split; [exact Hcell | exact Hc].
Defined.

(** ** Sending a solution to the page *)

Lemma filterM_Ok {A : Type} (p : A -> result bool) (l l' : list A) :
  filterM p l = Ok l' ->
  (forall x, x ∈ l -> exists b, p x = Ok b)
  /\ (forall x, x ∈ l' <-> x ∈ l /\ p x = Ok true)
  /\ l' `sublist_of` l.
Proof.
  revert l'. induction l as [|y l IH]; intros l' H; simpl in H.
  - injection H as <-. split; [|split; [|done]].
    + intros x Hx. by apply elem_of_nil in Hx.
    + intros x. split; [intros Hx; by apply elem_of_nil in Hx | by intros [Hx%elem_of_nil _]].
  - apply bind_Ok in H as (keep & Hkeep & H).
    apply bind_Ok in H as (rest & Hrest & [= <-]).
    destruct (IH rest Hrest) as (Hall & Hin & Hsub).
    split; [|split].
    + intros x [-> | Hx]%elem_of_cons; eauto.
    + intros x. destruct keep.
      * rewrite !elem_of_cons, Hin. split.
        -- intros [-> | [Hx Hp]]; auto.
        -- intros [[-> | Hx] Hp]; auto.
      * rewrite elem_of_cons, Hin. split.
        -- intros [Hx Hp]; auto.
        -- intros [[-> | Hx] Hp]; [congruence | auto].
    + destruct keep; [by apply sublist_skip | by apply sublist_cons].
Qed.

Lemma filterM_all {A : Type} (p : A -> result bool) (l : list A) :
  (forall x, x ∈ l -> p x = Ok true) -> filterM p l = Ok l.
Proof.
  induction l as [|y l IH]; intros H; simpl; [done|].
  rewrite (H y) by left. cbn [bind]. rewrite IH; [done|].
  intros x Hx. apply H. by right.
Qed.

Lemma insertBy_Permutation {A : Type} (cmp : A -> A -> Z) (x : A) (l : list A) :
  insertBy cmp x l ≡ₚ x :: l.
Proof.
  induction l as [|y l IH]; simpl; [done|].
  destruct (cmp x y <=? 0)%Z; [done|].
  rewrite IH. apply Permutation_swap.
Qed.

Lemma sortBy_Permutation {A : Type} (cmp : A -> A -> Z) (l : list A) :
  sortBy cmp l ≡ₚ l.
Proof.
  induction l as [|x l IH]; simpl; [done|].
  by rewrite insertBy_Permutation, IH.
Qed.

Lemma insertBy_sorted {A : Type} (cmp : A -> A -> Z) (x : A) (l : list A) :
  (forall a b, (0 < cmp a b)%Z -> (cmp b a <= 0)%Z) ->
  (forall a b c, (cmp a b <= 0)%Z -> (cmp b c <= 0)%Z -> (cmp a c <= 0)%Z) ->
  StronglySorted (fun a b => (cmp a b <= 0)%Z) l ->
  StronglySorted (fun a b => (cmp a b <= 0)%Z) (insertBy cmp x l).
Proof.
  intros Htotal Htrans. induction 1 as [|y l Hl IH Hy]; simpl.
  - repeat constructor.
  - destruct (Z.leb_spec (cmp x y) 0) as [Hle|Hgt].
    + constructor; [by constructor|]. constructor; [done|].
      rewrite Forall_forall in *. intros z Hz. eapply Htrans; [done|]. by apply Hy.
    + constructor; [done|].
      rewrite Forall_forall in *. intros z Hz.
      rewrite insertBy_Permutation in Hz.
      apply elem_of_cons in Hz as [-> | Hz]; [by apply Htotal | by apply Hy].
Qed.

Lemma sortBy_sorted {A : Type} (cmp : A -> A -> Z) (l : list A) :
  (forall a b, (0 < cmp a b)%Z -> (cmp b a <= 0)%Z) ->
  (forall a b c, (cmp a b <= 0)%Z -> (cmp b c <= 0)%Z -> (cmp a c <= 0)%Z) ->
  StronglySorted (fun a b => (cmp a b <= 0)%Z) (sortBy cmp l).
Proof.
  intros Htotal Htrans. induction l as [|x l IH]; simpl; [constructor|].
  by apply insertBy_sorted.
Qed.

(** The comparator puts [a] before or with [b] when [a] is not after [b]
    in row-major order. *)
Lemma comparePlacements_le (a b : nat * nat * CellState.t) :
  (comparePlacements a b <= 0)%Z <->
  a.1.1 < b.1.1 \/ (a.1.1 = b.1.1 /\ a.1.2 <= b.1.2).
Proof.
  unfold comparePlacements.
  destruct (Nat.eqb_spec a.1.1 b.1.1); simpl; lia.
Qed.

Lemma StronglySorted_mono {A : Type} (R R' : relation A) (l : list A) :
  (forall a b, R a b -> R' a b) -> StronglySorted R l -> StronglySorted R' l.
Proof.
  intros HR. induction 1 as [|x l Hl IH Hx]; constructor; [done|].
  eapply Forall_impl; [done|]. intros y. apply HR.
Qed.

Lemma sortBy_comparePlacements_sorted (l : list (nat * nat * CellState.t)) :
  StronglySorted (fun a b => a.1.1 < b.1.1 \/ (a.1.1 = b.1.1 /\ a.1.2 <= b.1.2))
    (sortBy comparePlacements l).
Proof.
  eapply StronglySorted_mono; [|apply sortBy_sorted].
  - intros a b. apply comparePlacements_le.
  - intros a b Hab. apply comparePlacements_le.
    unfold comparePlacements in Hab.
    destruct (Nat.eqb_spec a.1.1 b.1.1); simpl in *; lia.
  - intros a b c Hab%comparePlacements_le Hbc%comparePlacements_le.
    apply comparePlacements_le. lia.
Qed.

Lemma elem_of_clicksFor (n : nat) (document : nat -> option LotkaCell)
    (p : nat * nat * CellState.t) (index : nat) (ev : MouseEventType) :
  (index, ev) ∈ clicksFor n document p ->
  index = cellIndex n p.1.1 p.1.2
  /\ (exists cell, document index = Some cell /\ locked cell = false)
  /\ (p.2 = CellState.SUN \/ p.2 = CellState.MOON).
Proof.
  unfold clicksFor.
  destruct (document (cellIndex n p.1.1 p.1.2)) as [cell|] eqn:Hdoc;
    [|by intros ?%elem_of_nil].
  destruct (locked cell) eqn:Hlocked; simpl; [by intros ?%elem_of_nil|].
  assert (Hsingle : forall i, (index, ev) ∈ singleClick i -> index = i).
  { intros i Hin. unfold singleClick in Hin.
    repeat (apply elem_of_cons in Hin as [[= -> _] | Hin]; [done|]).
    by apply elem_of_nil in Hin. }
  destruct p.2; [by intros ?%elem_of_nil | |].
  - intros ->%Hsingle. eauto 6.
  - unfold doubleClick. intros [->%Hsingle | ->%Hsingle]%elem_of_app; eauto 6.
Qed.

(** X12.  [inputSolution] returns [true], and every event it dispatches is
    on the element of a placement of the solution whose cell is EMPTY in
    [baseGameState], exists on the page and is not locked, for the symbol
    SUN or MOON: it never clicks a pre-filled or a locked cell. *)
Theorem inputSolution_clicks_only_new_cells (base : Solver)
    (document : nat -> option LotkaCell) (solution : list (nat * nat * CellState.t))
    (r : bool) (log : list (nat * MouseEventType)) :
  inputSolution base document solution = Ok (r, log) ->
  r = true
  /\ (forall index ev, (index, ev) ∈ log ->
        exists row col s cell,
          (row, col, s) ∈ solution
          /\ index = cellIndex (BOARD_SIZE base) row col
          /\ contains base row col = Ok CellState.EMPTY
          /\ document index = Some cell /\ locked cell = false
          /\ (s = CellState.SUN \/ s = CellState.MOON)).
Proof.
  unfold inputSolution. intros H.
  apply bind_Ok in H as (newPlacements & Hfilter & [= <- <-]).
  split; [done|]. intros index ev Hin.
  apply list_elem_of_In, in_flat_map in Hin as ([[row col] s] & Hp & Hev).
  apply list_elem_of_In in Hp, Hev.
  rewrite sortBy_Permutation in Hp.
  apply filterM_Ok in Hfilter as (_ & Hkept & _).
  apply Hkept in Hp as [Hsol Hbase]. cbn [fst snd] in Hbase.
  apply bind_Ok in Hbase as (c & Hc & [= Heq]). apply CellState_eqb_eq in Heq as ->.
  apply elem_of_clicksFor in Hev as (-> & (cell & Hdoc & Hlocked) & Hs).
  exists row, col, s, cell. auto 10.
Qed.

Lemma inputSolution_clicks_only_new_cells_witness :
  exists log,
    inputSolution (gameState 2) (fun i => samplePage !! i)
      [(0, 0, CellState.SUN); (0, 1, CellState.MOON)] = Ok (true, log)
    /\ (forall index ev, (index, ev) ∈ log ->
          exists row col s cell,
            (row, col, s) ∈ [(0, 0, CellState.SUN); (0, 1, CellState.MOON)]
            /\ index = cellIndex (BOARD_SIZE (gameState 2)) row col
            /\ contains (gameState 2) row col = Ok CellState.EMPTY
            /\ samplePage !! index = Some cell /\ locked cell = false
            /\ (s = CellState.SUN \/ s = CellState.MOON)).
Proof.
  destruct (inputSolution (gameState 2) (fun i => samplePage !! i)
              [(0, 0, CellState.SUN); (0, 1, CellState.MOON)])
    as [[r log]| |] eqn:E; try (vm_compute in E; discriminate).
  destruct (inputSolution_clicks_only_new_cells _ _ _ r log E) as [-> Hlog].
  exists log. split; [reflexivity|exact Hlog].
Defined.

(** ** Counting the clicks *)

Lemma clickCount_app (l1 l2 : list (nat * MouseEventType)) (index : nat) :
  clickCount (l1 ++ l2) index = clickCount l1 index + clickCount l2 index.
Proof. unfold clickCount. by rewrite List.filter_app, length_app. Qed.

Lemma clickCount_Permutation {A : Type} (f : A -> list (nat * MouseEventType))
    (l l' : list A) (index : nat) :
  l ≡ₚ l' -> clickCount (flat_map f l) index = clickCount (flat_map f l') index.
Proof.
  induction 1 as [|x l l' _ IH|x y l|l l' l'' _ IH1 _ IH2]; simpl.
  - done.
  - by rewrite !clickCount_app, IH.
  - rewrite !clickCount_app. lia.
  - by rewrite IH1.
Qed.

Lemma clickCount_clicksFor (n : nat) (document : nat -> option LotkaCell)
    (p : nat * nat * CellState.t) (index : nat) :
  clickCount (clicksFor n document p) index
  = if index =? cellIndex n p.1.1 p.1.2 then
      match document index with
      | Some cell => if locked cell then 0 else clicksOf p.2
      | None => 0
      end
    else 0.
Proof.
  unfold clicksFor.
  destruct (Nat.eqb_spec index (cellIndex n p.1.1 p.1.2)) as [->|Hne].
  - destruct (document _) as [cell|]; [|done].
    destruct (locked cell); simpl; [done|].
    destruct p.2; unfold clickCount; simpl; rewrite ?Nat.eqb_refl; done.
  - assert (Hz : (cellIndex n p.1.1 p.1.2 =? index) = false) by (apply Nat.eqb_neq; lia).
    destruct (document _) as [cell|]; [|done].
    destruct (locked cell); simpl; [done|].
    destruct p.2; unfold clickCount; simpl; rewrite ?Hz; done.
Qed.

Lemma cellIndex_inj (n row col row' col' : nat) :
  col < n -> col' < n -> cellIndex n row col = cellIndex n row' col' ->
  (row, col) = (row', col').
Proof.
  intros Hc Hc' Heq.
  destruct (cellIndex_cellPosition n row col 0 ltac:(lia)) as [H1 _].
  destruct (cellIndex_cellPosition n row' col' 0 ltac:(lia)) as [H2 _].
  rewrite <- (H1 Hc), <- (H2 Hc'). by rewrite Heq.
Qed.

(** The clicks on the element of a cell come from the placement of that
    cell alone, when the placements are for distinct cells of the
    board. *)
Lemma clickCount_placements (n : nat) (document : nat -> option LotkaCell)
    (l : list (nat * nat * CellState.t)) (row col : nat) :
  NoDup (map cellOf l) ->
  (forall r c s, (r, c, s) ∈ l -> c < n) ->
  col < n ->
  (forall s, (row, col, s) ∈ l ->
     clickCount (flat_map (clicksFor n document) l) (cellIndex n row col)
     = clickCount (clicksFor n document (row, col, s)) (cellIndex n row col))
  /\ ((row, col) ∉ map cellOf l ->
      clickCount (flat_map (clicksFor n document) l) (cellIndex n row col) = 0).
Proof.
  intros Hnodup Hcols Hcol.
  assert (Hout : forall l' : list (nat * nat * CellState.t),
            (forall r c s, (r, c, s) ∈ l' -> c < n) ->
            (row, col) ∉ map cellOf l' ->
            clickCount (flat_map (clicksFor n document) l') (cellIndex n row col) = 0).
  { induction l' as [|[[r c] s] l' IH]; intros Hc' Hnotin; simpl; [done|].
    apply not_elem_of_cons in Hnotin as [Hne Hnotin]. unfold cellOf in Hne. simpl in Hne.
    rewrite clickCount_app, IH; [|intros r0 c0 s0 ?; apply (Hc' r0 c0 s0); by right | done].
    rewrite clickCount_clicksFor. cbn [fst snd].
    destruct (Nat.eqb_spec (cellIndex n row col) (cellIndex n r c)) as [Heq|]; [|done].
    apply cellIndex_inj in Heq; [congruence | done |]. apply (Hc' r c s). left. }
  split; [|by apply Hout].
  induction l as [|[[r c] s'] l IH]; intros s Hin; simpl.
  - by apply elem_of_nil in Hin.
  - simpl in Hnodup. apply NoDup_cons in Hnodup as [Hnotin Hnodup].
    rewrite clickCount_app.
    apply elem_of_cons in Hin as [[= <- <- <-] | Hin].
    + rewrite Hout; [lia | intros r0 c0 s0 ?; apply (Hcols r0 c0 s0); by right | done].
    + assert (Hcols0 : forall r0 c0 s0, (r0, c0, s0) ∈ l -> c0 < n).
      { intros r0 c0 s0 ?. apply (Hcols r0 c0 s0). by right. }
      rewrite (IH Hnodup Hcols0 s Hin).
      rewrite (clickCount_clicksFor n document (r, c, s')). cbn [fst snd].
      destruct (Nat.eqb_spec (cellIndex n row col) (cellIndex n r c)) as [Heq|]; [|done].
      apply cellIndex_inj in Heq; [|done | apply (Hcols r c s'); left].
      injection Heq as <- <-. exfalso. apply Hnotin.
      apply list_elem_of_fmap. by exists (row, col, s).
Qed.

(** X13.  For a solution whose placements are for distinct cells of the
    board, [inputSolution] sends to the element of each placement whose
    cell is EMPTY in [baseGameState] and unlocked on the page exactly one
    click for SUN and two clicks for MOON, and no click to the element of
    a placement whose cell is filled in [baseGameState]; and the elements
    are visited by ascending index, whatever the order of the solution. *)
Theorem inputSolution_click_counts (base : Solver) (document : nat -> option LotkaCell)
    (solution : list (nat * nat * CellState.t)) (r : bool)
    (log : list (nat * MouseEventType)) :
  inputSolution base document solution = Ok (r, log) ->
  NoDup (map cellOf solution) ->
  (forall row col s, (row, col, s) ∈ solution -> col < BOARD_SIZE base) ->
  (forall row col s c,
     (row, col, s) ∈ solution -> contains base row col = Ok c ->
     clickCount log (cellIndex (BOARD_SIZE base) row col)
     = if CellState.eqb c CellState.EMPTY then
         match document (cellIndex (BOARD_SIZE base) row col) with
         | Some cell => if locked cell then 0 else clicksOf s
         | None => 0
         end
       else 0)
  /\ StronglySorted le (map fst log).
Proof.
  unfold inputSolution. intros H Hnodup Hcols.
  apply bind_Ok in H as (newPlacements & Hfilter & [= <- <-]).
  apply filterM_Ok in Hfilter as (_ & Hkept & Hsub).
  set (n := BOARD_SIZE base) in *.
  assert (Hnodup' : NoDup (map cellOf newPlacements)).
  { exact (sublist_NoDup _ _ Hnodup (fmap_sublist cellOf _ _ Hsub)). }
  assert (Hcols' : forall row col s, (row, col, s) ∈ newPlacements -> col < n).
  { intros row col s [Hin _]%Hkept. eauto. }
  split.
  - intros row col s c Hin Hc.
    rewrite (clickCount_Permutation _ _ newPlacements) by apply sortBy_Permutation.
    assert (Hcol : col < n) by eauto.
    destruct (clickCount_placements n document newPlacements row col Hnodup' Hcols' Hcol)
      as [Hown Hnone].
    destruct (CellState.eqb c CellState.EMPTY) eqn:E.
    + rewrite (Hown s).
      * rewrite clickCount_clicksFor. cbn [fst snd]. by rewrite Nat.eqb_refl.
      * apply Hkept. split; [done|]. cbn [fst snd]. rewrite Hc. cbn [bind]. by rewrite E.
    + apply Hnone. intros Hk.
      apply list_elem_of_fmap in Hk as ([[r' c'] s'] & [= <- <-] & Hin').
      apply Hkept in Hin' as [_ Hp]. cbn [fst snd] in Hp.
      rewrite Hc in Hp. cbn [bind] in Hp. congruence.
  - pose proof (sortBy_comparePlacements_sorted newPlacements) as Hsorted.
    assert (Hcols'' : forall row col s,
              (row, col, s) ∈ sortBy comparePlacements newPlacements -> col < n).
    { intros row col s Hin. rewrite sortBy_Permutation in Hin. eauto. }
    revert Hsorted Hcols''.
    generalize (sortBy comparePlacements newPlacements) as sorted.
    induction sorted as [|[[row col] s] sorted IH]; intros Hsorted Hc; simpl; [constructor|].
    apply StronglySorted_inv in Hsorted as [Hrest Hfirst].
    rewrite map_app. apply StronglySorted_app_2.
    + intros i j Hi Hj.
      apply list_elem_of_fmap in Hi as ([i' ev] & -> & Hi).
      apply elem_of_clicksFor in Hi as (-> & _). cbn [fst snd].
      apply list_elem_of_fmap in Hj as ([j' ev'] & -> & Hj).
      apply list_elem_of_In, in_flat_map in Hj as ([[r' c'] s'] & Hp & Hev).
      apply list_elem_of_In in Hp, Hev.
      apply elem_of_clicksFor in Hev as (-> & _). cbn [fst snd].
      rewrite Forall_forall in Hfirst. specialize (Hfirst _ Hp). cbn [fst snd] in Hfirst.
      assert (c' < n) by (apply (Hc r' c' s'); by right).
      assert (col < n) by (apply (Hc row col s); left).
      unfold cellIndex. nia.
    + assert (Hall : forall i, i ∈ map fst (clicksFor n document (row, col, s)) ->
                i = cellIndex n row col).
      { intros i Hi. apply list_elem_of_fmap in Hi as ([i' ev] & -> & Hi).
        by apply elem_of_clicksFor in Hi as (-> & _). }
      revert Hall. generalize (map fst (clicksFor n document (row, col, s))) as idxs.
      induction idxs as [|i idxs IHis]; intros Hall; constructor.
      * apply IHis. intros j Hj. apply Hall. by right.
      * apply Forall_forall. intros j Hj.
        rewrite (Hall i) by left. rewrite (Hall j) by (by right). done.
    + apply IH; [done|]. intros r' c' s' Hin. apply (Hc r' c' s'). by right.
Qed.

Lemma inputSolution_click_counts_witness :
  exists log,
    inputSolution (gameState 2) (fun i => samplePage !! i)
      [(1, 1, CellState.MOON); (0, 1, CellState.SUN)] = Ok (true, log)
    /\ clickCount log (cellIndex (BOARD_SIZE (gameState 2)) 1 1) = 2
    /\ StronglySorted le (map fst log).
Proof.
  destruct (inputSolution (gameState 2) (fun i => samplePage !! i)
              [(1, 1, CellState.MOON); (0, 1, CellState.SUN)])
    as [[r log]| |] eqn:E; try (vm_compute in E; discriminate).
  destruct (inputSolution_click_counts _ _ _ r log E) as [Hcount Hsorted].
  - simpl. apply NoDup_cons. split; [|apply NoDup_singleton].
    intros [Hx | Hx]%elem_of_cons; [discriminate | by apply elem_of_nil in Hx].
  - intros row col s Hin. simpl.
    repeat (apply elem_of_cons in Hin as [[= -> -> ->] | Hin]; [lia|]).
    by apply elem_of_nil in Hin.
  - exists log. split; [by vm_compute in E; injection E as <- <-|].
    split; [|exact Hsorted].
    rewrite (Hcount 1 1 CellState.MOON CellState.EMPTY); [reflexivity | left | reflexivity].
Defined.

(** ** From the solver to the page *)

Lemma pageAfter_clickCount (log : list (nat * MouseEventType))
    (shown : nat -> CellState.t) (index : nat) :
  pageAfter log shown index = Nat.iter (clickCount log index) nextSymbol (shown index).
Proof.
  revert shown. induction log as [|[i ev] log IH]; intros shown; [done|].
  unfold clickCount in *. simpl.
  destruct ev; simpl; rewrite ?andb_false_r; try apply IH.
  rewrite andb_true_r, IH.
  destruct (Nat.eqb_spec i index) as [->|Hne].
  - rewrite Nat.eqb_refl. cbn [length]. by rewrite Nat.iter_succ_r.
  - assert ((index =? i) = false) as -> by (apply Nat.eqb_neq; lia). done.
Qed.

(** X14.  The solver and [inputSolution] together.  Let the page show the
    board [g] ([shown] gives the symbol of each element), with an unlocked
    element for every EMPTY cell, and let its cells follow the click
    pattern of the game.  If [solvePuzzle] returns a solution for [g], then
    [inputSolution], given [g] as [baseGameState] and that solution,
    dispatches events after which the page shows, cell by cell, the board
    the solver has reached. *)
Theorem inputSolution_shows_solution (g g' : Solver)
    (sol : list (nat * nat * CellState.t))
    (document : nat -> option LotkaCell) (shown : nat -> CellState.t) :
  solvePuzzle g = Ok (Some sol, g') ->
  (forall row col, row < BOARD_SIZE g -> col < BOARD_SIZE g ->
     contains g row col = Ok (shown (cellIndex (BOARD_SIZE g) row col))) ->
  (forall row col, row < BOARD_SIZE g -> col < BOARD_SIZE g ->
     contains g row col = Ok CellState.EMPTY ->
     exists cell, document (cellIndex (BOARD_SIZE g) row col) = Some cell
                  /\ locked cell = false) ->
  exists log,
    inputSolution g document sol = Ok (true, log)
    /\ (forall row col, row < BOARD_SIZE g -> col < BOARD_SIZE g ->
          contains g' row col
          = Ok (pageAfter log shown (cellIndex (BOARD_SIZE g) row col))).
Proof.
  intros H Hshown Hdoc.
  apply solvePuzzle_Ok in H as (cells & Hcells & Hpl & _).
  apply sortedEmptyCells_spec in Hcells as (_ & _ & Hnodup & Hin).
  pose proof (Placements_cells _ _ _ _ Hpl) as Hmap.
  pose proof (Placements_frame _ _ _ _ Hpl) as (_ & _ & Hframe).
  set (n := BOARD_SIZE g) in *.
  assert (Hsol : forall row col s, (row, col, s) ∈ sol ->
            row < n /\ col < n /\ contains g row col = Ok CellState.EMPTY).
  { intros row col s Hs. apply Hin. rewrite <- Hmap.
    apply list_elem_of_fmap. by exists (row, col, s). }
  unfold inputSolution. rewrite filterM_all.
  2:{ intros [[row col] s] Hs. cbn [fst snd].
      destruct (Hsol _ _ _ Hs) as (_ & _ & ->). reflexivity. }
  cbn [bind]. eexists. split; [reflexivity|].
  intros row col Hr Hc. fold n.
  rewrite pageAfter_clickCount.
  rewrite (clickCount_Permutation _ _ sol) by apply sortBy_Permutation.
  destruct (clickCount_placements n document sol row col) as [Hown Hnone]; try done.
  { by rewrite Hmap. }
  { intros r c s Hs. by apply Hsol in Hs as (_ & ? & _). }
  pose proof (Hshown row col Hr Hc) as Hg.
  destruct (decide (shown (cellIndex n row col) = CellState.EMPTY)) as [He|Hne].
  - rewrite He in *.
    assert (Hrc : (row, col) ∈ map cellOf sol) by (rewrite Hmap; by apply Hin).
    apply list_elem_of_fmap in Hrc as ([[r c] s] & [= <- <-] & Hs).
    rewrite (Hown s Hs), clickCount_clicksFor. cbn [fst snd]. rewrite Nat.eqb_refl.
    destruct (Hdoc row col Hr Hc Hg) as (cell & -> & ->).
    rewrite (Placements_written _ _ _ _ Hpl Hnodup _ _ _ Hs).
    by destruct (Placements_symbols _ _ _ _ Hpl _ _ _ Hs) as [-> | ->].
  - rewrite Hnone.
    + simpl. rewrite Hframe; [done|]. intros (_ & _ & He)%Hin. congruence.
    + rewrite Hmap. intros (_ & _ & He)%Hin. congruence.
Qed.

Lemma inputSolution_shows_solution_witness :
  exists sol g' log,
    solvePuzzle (gameState 2) = Ok (Some sol, g')
    /\ inputSolution (gameState 2) (fun i => Some emptyLotkaCell) sol = Ok (true, log)
    /\ contains g' 1 0
       = Ok (pageAfter log (fun _ => CellState.EMPTY)
               (cellIndex (BOARD_SIZE (gameState 2)) 1 0)).
Proof.
  destruct (solvePuzzle (gameState 2)) as [[[sol|] g']| |] eqn:E;
    try (vm_compute in E; discriminate).
  destruct (inputSolution_shows_solution (gameState 2) g' sol
              (fun i => Some emptyLotkaCell) (fun _ => CellState.EMPTY) E)
    as (log & Hlog & Hpage).
  - intros row col Hr Hc.
    destruct (wellFormed_readable (gameState 2) eq_refl row col Hr Hc) as [c Hcell].
    rewrite Hcell. f_equal. by apply contains_gameState in Hcell.
  - intros row col _ _ _. by exists emptyLotkaCell.
  - exists sol, g', log. split; [reflexivity|]. split; [exact Hlog|].
    apply Hpage; simpl; lia.
Defined.

(** ** The search creates no run of three in a row *)

Lemma row_run_placed (g g1 : Solver) (row col : nat) (symbol : CellState.t)
    (r c : nat) (s : CellState.t) :
  col < BOARD_SIZE g ->
  checkThreeInRowHorizontal g row col symbol = Ok false ->
  setContains g row col symbol = Ok g1 ->
  c + 2 < BOARD_SIZE g ->
  contains g1 r c = Ok s /\ contains g1 r (c + 1) = Ok s /\ contains g1 r (c + 2) = Ok s ->
  contains g r c = Ok s /\ contains g r (c + 1) = Ok s /\ contains g r (c + 2) = Ok s.
Proof.
  intros Hcol Hcheck Hset Hc (H0 & H1 & H2).
  pose proof (setContains_Ok _ _ _ _ _ Hset) as (_ & Hhere & Hother & _).
  assert (Hcell : forall c', contains g1 r c' = Ok s ->
            (r, c') <> (row, col) -> contains g r c' = Ok s).
  { intros c' Hc' Hne. by rewrite <- Hother. }
  destruct (decide (r = row /\ c <= col <= c + 2)) as [[-> Hin]|Hout].
  - exfalso.
    assert (s = symbol) as ->.
    { assert (col = c \/ col = c + 1 \/ col = c + 2) as [E | [E | E]] by lia;
        rewrite <- E in *; congruence. }
    assert (Hw : rowWindow g row col symbol);
      [|by apply (checkThreeInRowHorizontal_Ok _ _ _ _ _ Hcol Hcheck) in Hw].
    exists c. split; [lia|]. split; [lia|].
    intros k Hk Hne.
    assert (k = c \/ k = c + 1 \/ k = c + 2) as [-> | [-> | ->]] by lia;
      apply Hcell; congruence.
  - split; [|split]; apply Hcell; try done; intros [= E1 E2]; lia.
Qed.

Lemma Placements_row_runs (g g' : Solver) (cells : list Coord) (pl : list Placement) :
  Placements g cells pl g' ->
  (forall row col, (row, col) ∈ cells -> col < BOARD_SIZE g) ->
  forall r c s,
    c + 2 < BOARD_SIZE g ->
    contains g' r c = Ok s /\ contains g' r (c + 1) = Ok s /\ contains g' r (c + 2) = Ok s ->
    contains g r c = Ok s /\ contains g r (c + 1) = Ok s /\ contains g r (c + 2) = Ok s.
Proof.
  induction 1 as [|g g1 g' row col symbol cells pl Hsym Hv Hset Hpl IH];
    intros Hcells r c s Hc Hrun; [done|].
  assert (Hcol : col < BOARD_SIZE g) by (apply (Hcells row col); left).
  apply isValidPlacement_true in Hv as (Hh & _).
  pose proof (setContains_Ok _ _ _ _ _ Hset) as (_ & _ & _ & Hsize & _).
  apply (row_run_placed g g1 row col symbol); try done.
  apply IH; [|by rewrite Hsize|done].
  intros row' col' Hin'. rewrite Hsize. apply (Hcells row' col'). by right.
Qed.

(** X15.  [solvePuzzle] creates no run of three in a row: three
    consecutive cells of a row that hold the same value in the board of a
    solution held that value, all three, in the input already. *)
Theorem solvePuzzle_creates_no_row_run (g g' : Solver) (sol : list Placement)
    (row col : nat) (s : CellState.t) :
  solvePuzzle g = Ok (Some sol, g') ->
  col + 2 < BOARD_SIZE g ->
  contains g' row col = Ok s ->
  contains g' row (col + 1) = Ok s ->
  contains g' row (col + 2) = Ok s ->
  contains g row col = Ok s
  /\ contains g row (col + 1) = Ok s
  /\ contains g row (col + 2) = Ok s.
Proof.
  intros H Hc H0 H1 H2.
  apply solvePuzzle_Ok in H as (cells & Hcells & Hpl & _).
  apply sortedEmptyCells_spec in Hcells as (_ & _ & _ & Hin).
  apply (Placements_row_runs _ _ _ _ Hpl); try done.
  intros r c Hrc. apply Hin in Hrc. tauto.
Qed.

Lemma solvePuzzle_creates_no_row_run_witness :
  exists sol g',
    solvePuzzle lockedRunBoard6 = Ok (Some sol, g')
    /\ contains g' 0 1 = Ok CellState.SUN
    /\ contains lockedRunBoard6 0 1 = Ok CellState.SUN
    /\ contains lockedRunBoard6 0 (1 + 1) = Ok CellState.SUN
    /\ contains lockedRunBoard6 0 (1 + 2) = Ok CellState.SUN.
Proof.
  destruct (solvePuzzle lockedRunBoard6) as [[[sol|] g']| |] eqn:E;
    try (vm_compute in E; discriminate).
  exists sol, g'. split; [reflexivity|].
  assert (Hg : g' = snd (match solvePuzzle lockedRunBoard6 with
                         | Ok r => r | _ => (None, lockedRunBoard6) end))
    by (by rewrite E).
  assert (H0 : contains g' 0 1 = Ok CellState.SUN) by (rewrite Hg; by vm_compute).
  assert (H1 : contains g' 0 (1 + 1) = Ok CellState.SUN) by (rewrite Hg; by vm_compute).
  assert (H2 : contains g' 0 (1 + 2) = Ok CellState.SUN) by (rewrite Hg; by vm_compute).
  split; [exact H0|].
  apply (solvePuzzle_creates_no_row_run lockedRunBoard6 g' sol 0 1 CellState.SUN E);
    [simpl; lia | exact H0 | exact H1 | exact H2].
Defined.
